(** * dependency-tree: tree store, paths, splines, circle layout, edge router

    A shallow embedding of the JavaScript sources
    [data/Tree.js], [lang/Array.js], [geom/Vector.js], [geom/Path.js],
    [geom/Line.js], [geom/BasisSpline.js], [geom/AffineTransform.js],
    [vis/CircleLayout.js], [vis/BundledEdgeRouter.js], [vis/RadialLabeler.js]
    and [DependencyTree.js].

    Conventions of the embedding.
    - Tree nodes are mutable JavaScript objects compared by identity.  They
      live in a store [heap : gmap ref Node]; a [ref] is the identity of an
      object and is never reused.  Every method takes the store and returns
      the new one.
    - A JavaScript value that may be [null] or [undefined] is an [option];
      [==] on such values is equality of options (null and undefined are
      loosely equal).
    - A method runs to an [outcome]: [Done v], [Throws] (a TypeError raised
      by reading a property of null/undefined), [OutOfFuel] when the step
      budget given to an unbounded loop or recursion is used up, or
      [NotANumber] when arithmetic is applied to [undefined].
    - JavaScript numbers that carry geometry are idealised as real numbers
      [R]; integer-valued numbers (indices, counts) are [nat].  The reals
      have no NaN: a run that would compute with [undefined] stops with
      [NotANumber]. *)

From Stdlib Require Import Reals Lra Lia Ascii.
From stdpp Require Import base option list gmap strings.

(** ** Outcomes *)

Inductive outcome (A : Type) : Type :=
| Done (a : A)
| Throws
| OutOfFuel
| NotANumber.
Arguments Done {A} a.
Arguments Throws {A}.
Arguments OutOfFuel {A}.
Arguments NotANumber {A}.

#[global] Instance outcome_ret : MRet outcome := λ A a, Done a.
#[global] Instance outcome_bind : MBind outcome := λ A B f m,
  match m with
  | Done a => f a
  | Throws => Throws
  | OutOfFuel => OutOfFuel
  | NotANumber => NotANumber
  end.
#[global] Instance outcome_fmap : FMap outcome := λ A B f m,
  match m with
  | Done a => Done (f a)
  | Throws => Throws
  | OutOfFuel => OutOfFuel
  | NotANumber => NotANumber
  end.

(** [number_of o]: the number [o], or [NotANumber] for [undefined]. *)
Definition number_of {A} (o : option A) : outcome A :=
  match o with
  | Some a => Done a
  | None => NotANumber
  end.

(** ** lang/Array.js *)

Module Array.

(** [Array.prototype.indexOf]: position of the first occurrence. *)
Fixpoint indexOf {A} `{EqDecision A} (x : A) (l : list A) : option nat :=
  match l with
  | [] => None
  | y :: l' => if decide (y = x) then Some 0 else S <$> indexOf x l'
  end.

(** [Array.prototype.remove]: splice out the first occurrence, report
    whether there was one. *)
Definition remove {A} `{EqDecision A} (x : A) (l : list A) : bool * list A :=
  match indexOf x l with
  | Some i => (true, delete i l)
  | None => (false, l)
  end.

(** [Array.prototype.add(index, element)] with two arguments:
    [splice(index, 0, element)]. *)
Definition add_at {A} (i : nat) (x : A) (l : list A) : list A :=
  take i l ++ x :: drop i l.

(** [Array.prototype.add(element)] with one argument: [push]. *)
Definition add {A} (x : A) (l : list A) : list A := l ++ [x].

(** [Array.prototype.pop]: the last element ([undefined] when empty) and
    the shortened array. *)
Definition pop {A} (l : list A) : option A * list A :=
  (last l, removelast l).

End Array.

(** ** data/Tree.js *)

Module Tree.

Definition ref := nat.

Record Node := mkNode {
  outgoing : list ref;
  incoming : list ref;
  children : list ref;
  index : nat;
  parent : option ref
}.

Record Tree := mkTree {
  heap : gmap ref Node;
  nodes : list ref;
  root : ref
}.

Definition set_outgoing (f : list ref → list ref) (n : Node) : Node :=
  mkNode (f (outgoing n)) (incoming n) (children n) (index n) (parent n).
Definition set_incoming (f : list ref → list ref) (n : Node) : Node :=
  mkNode (outgoing n) (f (incoming n)) (children n) (index n) (parent n).
Definition set_children (f : list ref → list ref) (n : Node) : Node :=
  mkNode (outgoing n) (incoming n) (f (children n)) (index n) (parent n).
Definition set_index (i : nat) (n : Node) : Node :=
  mkNode (outgoing n) (incoming n) (children n) i (parent n).

Definition deref (r : ref) (t : Tree) : outcome Node :=
  match heap t !! r with
  | Some n => Done n
  | None => Throws
  end.

Definition update (r : ref) (f : Node → Node) (t : Tree) : Tree :=
  mkTree (alter f r (heap t)) (nodes t) (root t).

Definition set_nodes (f : list ref → list ref) (t : Tree) : Tree :=
  mkTree (heap t) (f (nodes t)) (root t).

(** [new Tree._Node(tree, parent)]: a fresh object with no edges and no
    children, whose index is the current length of [tree.nodes], pushed
    onto [tree.nodes]. *)
Definition new_Node (p : option ref) (t : Tree) : ref * Tree :=
  let r := fresh (dom (heap t)) in
  (r, mkTree (<[r := mkNode [] [] [] (length (nodes t)) p]> (heap t))
             (Array.add r (nodes t))
             (root t)).

(** [Tree.prototype.clear] on a new tree: an empty table, then the root. *)
Definition clear : Tree :=
  let t0 := mkTree ∅ [] 0 in
  let '(r, t1) := new_Node None t0 in
  mkTree (heap t1) (nodes t1) r.

(** [Tree._Node.prototype.addChild] *)
Definition addChild (this : ref) (t : Tree) : outcome (ref * Tree) :=
  _ ← deref this t;
  let '(child, t1) := new_Node (Some this) t in
  Done (child, update this (set_children (Array.add child)) t1).

(** [Tree._Node.prototype.addEdge] *)
Definition addEdge (this node : ref) (t : Tree) : outcome Tree :=
  _ ← deref node t;
  let t1 := update node (set_incoming (Array.add this)) t in
  _ ← deref this t1;
  Done (update this (set_outgoing (Array.add node)) t1).

(** [Tree._Node.prototype.removeEdge] *)
Definition removeEdge (this node : ref) (t : Tree) : outcome (bool * Tree) :=
  n ← deref node t;
  if (Array.remove this (incoming n)).1 then
    let t1 := update node (set_incoming (λ l, (Array.remove this l).2)) t in
    _ ← deref this t1;
    Done (true, update this (set_outgoing (λ l, (Array.remove node l).2)) t1)
  else Done (false, t).

(** The two loops of [clearEdges]; each iteration re-reads the array
    being walked from the store, as the source does. *)
Fixpoint clearEdges_incoming (fuel : nat) (this : ref) (i : nat) (t : Tree)
  : outcome Tree :=
  n ← deref this t;
  match incoming n !! i with
  | None => Done t
  | Some src =>
      match fuel with
      | 0 => OutOfFuel
      | S f =>
          _ ← deref src t;
          clearEdges_incoming f this (S i)
            (update src (set_outgoing (λ l, (Array.remove this l).2)) t)
      end
  end.

Fixpoint clearEdges_outgoing (fuel : nat) (this : ref) (i : nat) (t : Tree)
  : outcome Tree :=
  n ← deref this t;
  match outgoing n !! i with
  | None => Done t
  | Some dst =>
      match fuel with
      | 0 => OutOfFuel
      | S f =>
          _ ← deref dst t;
          clearEdges_outgoing f this (S i)
            (update dst (set_incoming (λ l, (Array.remove this l).2)) t)
      end
  end.

(** [Tree._Node.prototype.clearEdges] *)
Definition clearEdges (fuel : nat) (this : ref) (t : Tree) : outcome Tree :=
  t1 ← clearEdges_incoming fuel this 0 t;
  t2 ← clearEdges_outgoing fuel this 0 t1;
  Done (update this (set_outgoing (λ _, [])) (update this (set_incoming (λ _, [])) t2)).

(** The renumbering loop of [removeChild]:
    [for (i = child.index, n = nodes.length; i < n; i++) nodes[i].index = i].
    [cnt] is [n - i], fixed when the loop starts. *)
Fixpoint renumber (cnt i : nat) (t : Tree) : outcome Tree :=
  match cnt with
  | 0 => Done t
  | S cnt' =>
      match nodes t !! i with
      | None => Throws
      | Some r =>
          _ ← deref r t;
          renumber cnt' (S i) (update r (set_index i) t)
      end
  end.

(** [Tree._Node.prototype.removeChild] and the loop of
    [Tree._Node.prototype.clearChildren], which calls it back.  The loop
    [for (i = 0; i < this.children.length; i++) this.removeChild(this.children[i])]
    reads [this.children] afresh at every iteration. *)
Fixpoint removeChild (fuel : nat) (this child : ref) (t : Tree) {struct fuel}
  : outcome Tree :=
  match fuel with
  | 0 => OutOfFuel
  | S f =>
      _ ← deref this t;
      let t1 := update this (set_children (λ l, (Array.remove child l).2)) t in
      t2 ← clearEdges f child t1;
      t3 ← clearChildren_from f child 0 t2;
      c ← deref child t3;
      let t4 := set_nodes (delete (index c)) t3 in
      renumber (length (nodes t4) - index c) (index c) t4
  end
with clearChildren_from (fuel : nat) (this : ref) (i : nat) (t : Tree) {struct fuel}
  : outcome Tree :=
  match fuel with
  | 0 => OutOfFuel
  | S f =>
      n ← deref this t;
      match children n !! i with
      | None => Done t
      | Some c =>
          t' ← removeChild f this c t;
          clearChildren_from f this (S i) t'
      end
  end.

(** [Tree._Node.prototype.clearChildren] *)
Definition clearChildren (fuel : nat) (this : ref) (t : Tree) : outcome Tree :=
  clearChildren_from fuel this 0 t.

(** [Tree._Node.prototype.ancestors]: the loop
    [while (parent != null) { ancestors.add(node); node = parent; parent = parent.parent; }]
    followed by the final [ancestors.add(node)]. *)
Fixpoint ancestors_loop (fuel : nat) (t : Tree) (acc : list ref) (node : ref)
    (par : option ref) : outcome (list ref) :=
  match par with
  | None => Done (Array.add node acc)
  | Some p =>
      match fuel with
      | 0 => OutOfFuel
      | S f =>
          pn ← deref p t;
          ancestors_loop f t (Array.add node acc) p (parent pn)
      end
  end.

Definition ancestors (fuel : nat) (this : ref) (t : Tree) : outcome (list ref) :=
  n ← deref this t;
  ancestors_loop fuel t [] this (parent n).

(** The loop of [leastCommonAncestor]:
    [while (aNode == bNode) { sharedNode = aNode; aNode = aNodes.pop(); bNode = bNodes.pop(); }].
    Popping an empty array gives [undefined], and two [undefined] are equal. *)
Fixpoint lca_loop (fuel : nat) (aNodes bNodes : list ref)
    (aNode bNode sharedNode : option ref) : outcome (option ref) :=
  if decide (aNode = bNode) then
    match fuel with
    | 0 => OutOfFuel
    | S f =>
        let '(aNode', aNodes') := Array.pop aNodes in
        let '(bNode', bNodes') := Array.pop bNodes in
        lca_loop f aNodes' bNodes' aNode' bNode' aNode
    end
  else Done sharedNode.

(** [Tree.prototype.leastCommonAncestor] *)
Definition leastCommonAncestor (fuel : nat) (a b : option ref) (t : Tree)
  : outcome (option ref) :=
  if decide (a = b) then Done a
  else
    match a with
    | None => Throws
    | Some a' =>
        aNodes ← ancestors fuel a' t;
        match b with
        | None => Throws
        | Some b' =>
            bNodes ← ancestors fuel b' t;
            let '(aNode, aNodes') := Array.pop aNodes in
            let '(bNode, bNodes') := Array.pop bNodes in
            lca_loop fuel aNodes' bNodes' aNode bNode None
        end
    end.

(** *** Structure of a tree, read off the store *)

(** [parent_of t c] is [c.parent]. *)
Definition parent_of (t : Tree) (c : ref) : option ref :=
  n ← heap t !! c; parent n.

Definition index_of (t : Tree) (c : ref) : option nat :=
  index <$> heap t !! c.

(** [ancestor t a d]: [a] is reached from [d] by following [parent] links
    zero or more times; every node is an ancestor of itself. *)
Definition ancestor (t : Tree) (a d : ref) : Prop :=
  rtc (λ c p, parent_of t c = Some p) d a.

(** [descendant t d a]: [d] lies below [a], possibly [d = a]. *)
Definition descendant (t : Tree) (d a : ref) : Prop := ancestor t a d.

(** The invariants of the node table stated in the data model: the table
    holds each node once, the node at position [i] has index [i], the root
    is the only parentless node, and the parent of a table node is a table
    node with a strictly smaller index (heap ordering). *)
Definition wf_node (t : Tree) (r : ref) : Prop :=
  match heap t !! r with
  | None => False
  | Some n =>
      nodes t !! index n = Some r ∧
      match parent n with
      | None => r = root t
      | Some p =>
          match heap t !! p with
          | None => False
          | Some pn => nodes t !! index pn = Some p ∧ index pn < index n
          end
      end
  end.

Definition wf_tree (t : Tree) : Prop :=
  NoDup (nodes t) ∧ Forall (wf_node t) (nodes t).

(** The three parts of the heap-ordering claim, one by one. *)
Definition heap_ordered (t : Tree) : Prop :=
  ∀ c p, c ∈ nodes t → parent_of t c = Some p →
    ∃ ip ic, index_of t p = Some ip ∧ index_of t c = Some ic ∧ ip < ic.

Definition parents_in_table (t : Tree) : Prop :=
  ∀ c p, c ∈ nodes t → parent_of t c = Some p → p ∈ nodes t.

Definition indices_contiguous (t : Tree) : Prop :=
  ∀ i r, nodes t !! i = Some r → index_of t r = Some i.

(** Every allocated node is in the table (nothing was removed yet). *)
Definition heap_closed (t : Tree) : Prop :=
  ∀ r, is_Some (heap t !! r) → r ∈ nodes t.

(** *** Sequences of structural mutations *)

Inductive op :=
| OpAddChild (this : ref)
| OpRemoveChild (this child : ref).

(** [is_child t this child]: [child] is in [this.children]. *)
Definition is_child (t : Tree) (this child : ref) : bool :=
  match heap t !! this with
  | Some n => bool_decide (child ∈ children n)
  | None => false
  end.

(** Runs the operations in order.  A [removeChild] whose argument is not a
    child of the receiver is outside the contract of the method; such a
    sequence is not run ([None]). *)
Fixpoint run_ops (fuel : nat) (ops : list op) (t : Tree) : option (outcome Tree) :=
  match ops with
  | [] => Some (Done t)
  | OpAddChild this :: ops' =>
      match addChild this t with
      | Done (_, t') => run_ops fuel ops' t'
      | Throws => Some Throws
      | OutOfFuel => Some OutOfFuel
      | NotANumber => Some NotANumber
      end
  | OpRemoveChild this child :: ops' =>
      if is_child t this child then
        match removeChild fuel this child t with
        | Done t' => run_ops fuel ops' t'
        | Throws => Some Throws
        | OutOfFuel => Some OutOfFuel
        | NotANumber => Some NotANumber
        end
      else None
  end.

End Tree.

(** ** Decisions on real numbers

    The comparisons [==], [<], [<=], [>] of the source on numbers. *)

#[global] Instance Req_decision (a b : R) : Decision (a = b) := Req_dec_T a b.
#[global] Instance Rlt_decision (a b : R) : Decision (a < b)%R := Rlt_dec a b.
#[global] Instance Rle_decision (a b : R) : Decision (a <= b)%R := Rle_dec a b.
#[global] Instance Rgt_decision (a b : R) : Decision (a > b)%R := Rgt_dec a b.

(** ** geom/Vector.js *)

Module Vector.
Local Open Scope R_scope.

Record t := mk { x : R; y : R }.

(** [Vector.prototype.distance(x, y)] *)
Definition distance (this : t) (x0 y0 : R) : R :=
  let dx := x this - x0 in
  let dy := y this - y0 in
  sqrt (dx * dx + dy * dy).

(** [Vector.prototype.perp] *)
Definition perp (this : t) : t := mk (- y this) (x this).

(** [Vector.prototype.dot] *)
Definition dot (this v : t) : R := x this * x v + y this * y v.

(** [Vector.prototype.cross] *)
Definition cross (this v : t) : R := x this * y v - y this * x v.

#[global] Instance eq_dec : EqDecision t.
Proof.
  intros [x1 y1] [x2 y2].
  destruct (decide (x1 = x2)) as [->|Hx]; [|right; congruence].
  destruct (decide (y1 = y2)) as [->|Hy]; [left; reflexivity|right; congruence].
Defined.
End Vector.

Abbreviation Vector := Vector.t.

(** ** geom/Path.js *)

Module Path.
Local Open Scope R_scope.

(** [Path.Segment]: a type tag and its points.  A move and a line carry
    one point; a Bezier segment carries the destination first, then the
    two control points. *)
Inductive Segment :=
| SEG_MOVE (p : Vector)
| SEG_LINE (p : Vector)
| SEG_BEZIER (p cp1 cp2 : Vector).

(** [segment.points[0]] *)
Definition point0 (s : Segment) : Vector :=
  match s with
  | SEG_MOVE p | SEG_LINE p | SEG_BEZIER p _ _ => p
  end.

Definition is_bezier (s : Segment) : bool :=
  match s with
  | SEG_BEZIER _ _ _ => true
  | _ => false
  end.

(** A plain path is its [_segments] array. *)
Definition Path := list Segment.

Definition moveTo (x y : R) (this : Path) : Path :=
  Array.add (SEG_MOVE (Vector.mk x y)) this.

Definition lineTo (x y : R) (this : Path) : Path :=
  Array.add (SEG_LINE (Vector.mk x y)) this.

Definition bezierCurveTo (cp1x cp1y cp2x cp2y x y : R) (this : Path) : Path :=
  Array.add (SEG_BEZIER (Vector.mk x y) (Vector.mk cp1x cp1y) (Vector.mk cp2x cp2y)) this.

(** [Path.prototype.flat] *)
Definition flat (this : Path) : bool :=
  forallb (λ s, negb (is_bezier s)) this.

(** [Path._weightCurve]; a row of weights is a list, [w[k]] its entries. *)
Definition weight (w : list R) (k : nat) : R := nth k w 0.

Definition _weightCurve (w : list R) (p1 p2 p3 p4 : Vector) : Vector :=
  Vector.mk
    (weight w 0 * Vector.x p1 + weight w 1 * Vector.x p2
     + weight w 2 * Vector.x p3 + weight w 3 * Vector.x p4)
    (weight w 0 * Vector.y p1 + weight w 1 * Vector.y p2
     + weight w 2 * Vector.y p3 + weight w 3 * Vector.y p4).

Definition _bezierLeft : list (list R) :=
  [ [ 8/8; 0/8; 0/8; 0/8 ];
    [ 4/8; 4/8; 0/8; 0/8 ];
    [ 2/8; 4/8; 2/8; 0/8 ];
    [ 1/8; 3/8; 3/8; 1/8 ] ].

Definition _bezierRight : list (list R) :=
  [ [ 1/8; 3/8; 3/8; 1/8 ];
    [ 0/8; 2/8; 4/8; 2/8 ];
    [ 0/8; 0/8; 4/8; 4/8 ];
    [ 0/8; 0/8; 0/8; 8/8 ] ].

Definition row (m : list (list R)) (k : nat) : list R := nth k m [].

End Path.

Abbreviation Segment := Path.Segment.
Abbreviation SEG_MOVE := Path.SEG_MOVE.
Abbreviation SEG_LINE := Path.SEG_LINE.
Abbreviation SEG_BEZIER := Path.SEG_BEZIER.

(** ** geom/Line.js *)

Module Line.
Local Open Scope R_scope.

(** [new Line(x1, y1, x2, y2)] is the path [[MOVE (x1,y1); LINE (x2,y2)]];
    [start()] and [end()] read the points of its two segments. *)
Record t := mk { x1 : R; y1 : R; x2 : R; y2 : R }.

Definition segments (l : t) : Path.Path :=
  [SEG_MOVE (Vector.mk (x1 l) (y1 l)); SEG_LINE (Vector.mk (x2 l) (y2 l))].

Definition start (l : t) : Vector := Vector.mk (x1 l) (y1 l).
Definition end_ (l : t) : Vector := Vector.mk (x2 l) (y2 l).

(** [Line.prototype.distance] *)
Definition distance (this : t) (x y : R) : R :=
  let s := start this in
  let e := end_ this in
  let dx := Vector.x e - Vector.x s in
  let dy := Vector.y e - Vector.y s in
  if bool_decide (dx = 0) && bool_decide (dy = 0)
  then Vector.distance s x y
  else Rabs (dx * (Vector.y s - y) - dy * (Vector.x s - x))
       / sqrt (dx * dx + dy * dy).

(** [Line.intersect] *)
Definition intersect (p1 p2 q1 q2 : Vector) : bool :=
  let a := Vector.mk (Vector.x q2 - Vector.x q1) (Vector.y q2 - Vector.y q1) in
  let b := Vector.mk (Vector.y p1 - Vector.y p2) (Vector.x p2 - Vector.x p1) in
  let c := Vector.mk (Vector.x p1 - Vector.x q1) (Vector.y p1 - Vector.y q1) in
  let d := Vector.dot c (Vector.perp a) in
  let f := Vector.dot a b in
  if (if bool_decide (f > 0)
      then bool_decide (d < 0) || bool_decide (d > f)
      else bool_decide (d > 0) || bool_decide (d < f))
  then false
  else
    let e := Vector.dot c b in
    if (if bool_decide (f > 0)
        then bool_decide (e < 0) || bool_decide (e > f)
        else bool_decide (e > 0) || bool_decide (e < f))
    then false
    else true.

End Line.

(** ** Path.prototype.flatten *)

Module Flatten.
Import Path.
Local Open Scope R_scope.

(** The flatness actually used: [if (!flatness) flatness = 1], so a missing
    argument and the number [0] both give [1]. *)
Definition effective_flatness (flatness : option R) : R :=
  match flatness with
  | None => 1
  | Some f => if bool_decide (f = 0) then 1 else f
  end.

(** The test of [addCurve] on the curve [{a, b, c, d}]. *)
Definition flat_enough (flatness : R) (a b c d : Vector) : bool :=
  let line := Line.mk (Vector.x a) (Vector.y a) (Vector.x d) (Vector.y d) in
  bool_decide (Line.distance line (Vector.x b) (Vector.y b) <= flatness)
  && bool_decide (Line.distance line (Vector.x c) (Vector.y c) <= flatness).

(** The inner function [addCurve]; [that] is the [_segments] array of the
    path being rebuilt, to which [that.lineTo] appends. *)
Fixpoint addCurve (fuel : nat) (flatness : R) (a b c d : Vector) (that : Path)
  : outcome Path :=
  if flat_enough flatness a b c d then
    Done (lineTo (Vector.x d) (Vector.y d) that)
  else
    match fuel with
    | 0 => OutOfFuel
    | S f =>
        let al := a in
        let bl := _weightCurve (row _bezierLeft 1) a b c d in
        let cl := _weightCurve (row _bezierLeft 2) a b c d in
        let dl := _weightCurve (row _bezierLeft 3) a b c d in
        that1 ← addCurve f flatness al bl cl dl that;
        let ar := dl in
        let br := _weightCurve (row _bezierRight 1) a b c d in
        let cr := _weightCurve (row _bezierRight 2) a b c d in
        let dr := d in
        addCurve f flatness ar br cr dr that1
    end.

(** The loop over the old [segments] array; [prev] is [segments[i - 1]],
    [undefined] at [i = 0]. *)
Fixpoint flatten_loop (fuel : nat) (flatness : R) (prev : option Segment)
    (segments : list Segment) (that : Path) : outcome Path :=
  match segments with
  | [] => Done that
  | s :: rest =>
      that' ← match s with
              | SEG_BEZIER p cp1 cp2 =>
                  match prev with
                  | None => Throws
                  | Some ps => addCurve fuel flatness (point0 ps) cp1 cp2 p that
                  end
              | _ => Done (Array.add s that)
              end;
      flatten_loop fuel flatness (Some s) rest that'
  end.

(** [Path.prototype.flatten] *)
Definition flatten (fuel : nat) (flatness : option R) (this : Path) : outcome Path :=
  if flat this then Done this
  else flatten_loop fuel (effective_flatness flatness) None this [].

End Flatten.

(** ** geom/BasisSpline.js *)

Module BasisSpline.
Import Path.
Local Open Scope R_scope.

(** A spline owns its control points [_points] and caches the derived
    segments in [_segments] ([None] is [null]/unset).  Control points are
    held by value: the spline's points are distinct [Vector] objects, so
    an assignment to [z[i].x] changes entry [i] of the array only. *)
Record t := mk {
  _points : list Vector;
  _segments : option Path
}.

(** [new BasisSpline()] *)
Definition new : t := mk [] None.

(** [BasisSpline.prototype.add] *)
Definition add (x y : R) (this : t) : t :=
  mk (_points this ++ [Vector.mk x y]) None.

(** [BasisSpline.prototype.addAll] *)
Definition addAll (pts : list Vector) (this : t) : t :=
  mk (_points this ++ pts) None.

(** [BasisSpline.prototype.clear] *)
Definition clear (this : t) : t := mk [] None.

(** [BasisSpline.prototype.points] *)
Definition points (this : t) : list Vector := _points this.

(** The loop [for (i = 1; i < e; i++)] of [straighten]; [cnt] is [e - i].
    Each iteration reads [z[i]] and [z[0]] from the current array. *)
Fixpoint straighten_loop (cnt i : nat) (beta dx dy : R) (e : nat)
    (z : list Vector) : outcome (list Vector) :=
  match cnt with
  | 0%nat => Done z
  | S cnt' =>
      match z !! i, z !! 0%nat with
      | Some p, Some z0 =>
          let p' :=
            Vector.mk
              (beta * Vector.x p + (1 - beta) * (Vector.x z0 + INR i * dx / INR e))
              (beta * Vector.y p + (1 - beta) * (Vector.y z0 + INR i * dy / INR e)) in
          straighten_loop cnt' (S i) beta dx dy e (<[i := p']> z)
      | _, _ => Throws
      end
  end.

(** [BasisSpline.prototype.straighten].  With no control point, [e] is
    [-1] and [z[e].x] reads a property of [undefined]. *)
Definition straighten (beta : R) (this : t) : outcome t :=
  let z := _points this in
  match z with
  | [] => Throws
  | z0 :: _ =>
      let e := (length z - 1)%nat in
      match z !! e with
      | None => Throws
      | Some ze =>
          let dx := Vector.x ze - Vector.x z0 in
          let dy := Vector.y ze - Vector.y z0 in
          z' ← straighten_loop (e - 1) 1 beta dx dy e z;
          Done (mk z' None)
      end
  end.

Definition _basisToBezier : list (list R) :=
  [ [ 1/6; 4/6; 1/6; 0/6 ];
    [ 0/6; 4/6; 2/6; 0/6 ];
    [ 0/6; 2/6; 4/6; 0/6 ];
    [ 0/6; 1/6; 4/6; 1/6 ] ].

(** [BasisSpline.prototype._basisCurveTo], on the segment array. *)
Definition _basisCurveTo (p0 p1 p2 p3 : Vector) (segs : Path) : Path :=
  let b1 := _weightCurve (row _basisToBezier 1) p0 p1 p2 p3 in
  let b2 := _weightCurve (row _basisToBezier 2) p0 p1 p2 p3 in
  let b3 := _weightCurve (row _basisToBezier 3) p0 p1 p2 p3 in
  bezierCurveTo (Vector.x b1) (Vector.y b1) (Vector.x b2) (Vector.y b2)
                (Vector.x b3) (Vector.y b3) segs.

(** The loop [for (i = 2; i < points.length; i++)] of [segments], over the
    points from index 2 on; the state is [(p1, p2, p3)] and the segments. *)
Fixpoint window_loop (rest : list Vector) (p1 p2 p3 : Vector) (segs : Path)
  : Vector * Vector * Vector * Path :=
  match rest with
  | [] => (p1, p2, p3, segs)
  | q :: rest' =>
      (* p0 = p1; p1 = p2; p2 = p3; p3 = points[i] *)
      window_loop rest' p2 p3 q (_basisCurveTo p1 p2 p3 q segs)
  end.

(** The segments computed from the control points. *)
Definition compute_segments (pts : list Vector) : Path :=
  match pts with
  | [] => []
  | [q0] => moveTo (Vector.x q0) (Vector.y q0) []
  | [q0; q1] =>
      lineTo (Vector.x q1) (Vector.y q1) (moveTo (Vector.x q0) (Vector.y q0) [])
  | q0 :: q1 :: rest =>
      let segs := moveTo (Vector.x q0) (Vector.y q0) [] in
      let segs := _basisCurveTo q0 q0 q0 q1 segs in
      let '(p1, p2, p3, segs) := window_loop rest q0 q0 q1 segs in
      (* j = 0: p0 = p1; p1 = p2; p2 = p3 *)
      let segs := _basisCurveTo p1 p2 p3 p3 segs in
      (* j = 1 *)
      _basisCurveTo p2 p3 p3 p3 segs
  end.

(** [BasisSpline.prototype.segments]: the cached array when there is one
    (an empty array is truthy), else the recomputed one, which is cached. *)
Definition segments (this : t) : Path * t :=
  match _segments this with
  | Some segs => (segs, this)
  | None =>
      let segs := compute_segments (_points this) in
      (segs, mk (_points this) (Some segs))
  end.

(** [Path.prototype.flatten] inherited by a spline: [flat()] and the loop
    read the segments through the spline's own [segments()], which fills the
    cache; the rebuilt array becomes the cache. *)
Definition flatten (fuel : nat) (flatness : option R) (this : t) : outcome t :=
  let '(segs, this) := segments this in
  if flat segs then Done this
  else
    out ← Flatten.flatten_loop fuel (Flatten.effective_flatness flatness) None segs [];
    Done (mk (_points this) (Some out)).

End BasisSpline.

(** ** vis/CircleLayout.js *)

Module CircleLayout.
Import Tree.
Local Open Scope R_scope.

Record t := mk {
  endAngle : R;
  startAngle : R;
  startRadius : R;
  tree : Tree;
  (** the optional comparator [sort], as its effect on a copy of the
      children array *)
  sort : option (list ref → list ref);
  _positions : gmap nat Vector;
  _angles : gmap nat R
}.

(** [new CircleLayout(tree)] *)
Definition new (tr : Tree) : t := mk (2 * PI) 0 0 tr None ∅ ∅.

(** The variables [maxDepth], [depthByNode], [countByNode] that [count]
    writes. *)
Record counts := mkCounts {
  maxDepth : nat;
  depthByNode : gmap nat nat;
  countByNode : gmap nat nat
}.

(** The inner function [count(node, depth)]. *)
Fixpoint count (fuel : nat) (tr : Tree) (node : ref) (depth : nat) (st : counts)
  : outcome (nat * counts) :=
  match fuel with
  | 0%nat => OutOfFuel
  | S f =>
      n ← deref node tr;
      let st := if bool_decide (maxDepth st < depth)%nat
                then mkCounts depth (depthByNode st) (countByNode st) else st in
      let st := mkCounts (maxDepth st) (<[index n := depth]> (depthByNode st))
                         (countByNode st) in
      let depth := if bool_decide (0 < depth)%nat || bool_decide (1 < length (children n))%nat
                   then S depth else depth in
      let sum := if bool_decide (length (children n) = 0%nat) then 1%nat else 0%nat in
      '(sum, st) ←
        (fix loop (cs : list ref) (sum : nat) (st : counts) : outcome (nat * counts) :=
           match cs with
           | [] => Done (sum, st)
           | c :: cs' =>
               '(k, st') ← count f tr c depth st;
               loop cs' (sum + k)%nat st'
           end) (children n) sum st;
      let sum := if bool_decide (sum = length (children n)) then S sum else sum in
      Done (sum, mkCounts (maxDepth st) (depthByNode st) (<[index n := sum]> (countByNode st)))
  end.

(** The inner function [order(children)]. *)
Definition order (this : t) (children : list ref) : list ref :=
  match sort this with
  | None => children
  | Some f => f children
  end.

(** What [placeAll] and [place] were called with, in call order.  This log
    is not in the source; it records the arguments of the two inner
    functions so that statements can speak about them. *)
Inductive call :=
| CallPlaceAll (index : nat) (start end_ : R)
| CallPlace (index : nat) (angle : R).

(** The arrays [_positions] and [_angles] of the layout, which [place]
    writes while the other fields are only read. *)
Record placed := mkPlaced {
  positions : gmap nat Vector;
  angles : gmap nat R
}.

(** The inner function [place(node, angle)]. *)
Definition place (this : t) (radiusScale : R) (st : counts) (n : Node) (angle : R)
    (out : placed) : outcome placed :=
  let angle := angle - PI / 2 in
  depth ← number_of (depthByNode st !! index n);
  let radius := if bool_decide (depth = 0%nat) then 0
                else startRadius this + radiusScale * INR depth in
  let x := cos angle * radius in
  let y := sin angle * radius in
  Done (mkPlaced (<[index n := Vector.mk x y]> (positions out))
                 (<[index n := angle]> (angles out))).

(** The inner function [placeAll(node, start, end)]. *)
Fixpoint placeAll (fuel : nat) (this : t) (radiusScale : R) (st : counts) (node : ref)
    (start end_ : R) (out : placed) (log : list call) : outcome (placed * list call) :=
  match fuel with
  | 0%nat => OutOfFuel
  | S f =>
      n ← deref node (tree this);
      let log := log ++ [CallPlaceAll (index n) start end_;
                         CallPlace (index n) ((start + end_) / 2)] in
      out ← place this radiusScale st n ((start + end_) / 2) out;
      cnt ← number_of (countByNode st !! index n);
      let step := (end_ - start) / INR cnt in
      (fix loop (cs : list ref) (i : nat) (out : placed) (log : list call)
         : outcome (placed * list call) :=
         match cs with
         | [] => Done (out, log)
         | c :: cs' =>
             cn ← deref c (tree this);
             k ← number_of (countByNode st !! index cn);
             let j := (i + k)%nat in
             '(out', log') ← placeAll f this radiusScale st c
                                (start + INR i * step) (start + INR j * step) out log;
             loop cs' j out' log'
         end) (order this (children n)) 0%nat out log
  end.

(** [CircleLayout.prototype.init], with the call log. *)
Definition init_log (fuel : nat) (this : t) : outcome (t * list call) :=
  let out := mkPlaced ∅ ∅ in
  '(_, st) ← count fuel (tree this) (root (tree this)) 0 (mkCounts 0 ∅ ∅);
  (* with [maxDepth = 0] every depth is 0 and [place] never reads this *)
  let radiusScale := (1 - startRadius this) / INR (maxDepth st) in
  '(out, log) ← placeAll fuel this radiusScale st (root (tree this))
                  (startAngle this) (endAngle this) out [];
  Done (mk (endAngle this) (startAngle this) (startRadius this) (tree this)
           (sort this) (positions out) (angles out), log).

Definition init (fuel : nat) (this : t) : outcome t :=
  fst <$> init_log fuel this.

(** [CircleLayout.prototype.position] and [angle] *)
Definition position (this : t) (index : nat) : option Vector := _positions this !! index.
Definition angle (this : t) (index : nat) : option R := _angles this !! index.

End CircleLayout.

(** ** vis/BundledEdgeRouter.js *)

Module BundledEdgeRouter.
Import Tree.
Local Open Scope R_scope.

(** The router reads its layout through [layout.position(index)], which is
    [undefined] where the layout placed nothing, and passes every position
    through the hook [transformPoint]. *)
Record t := mk {
  beta : R;
  tree : Tree;
  position : nat → option Vector;
  transformPoint : option Vector → option Vector
}.

(** [new BundledEdgeRouter(tree, layout)], with the default hook
    [transformPoint(point) { return point; }]. *)
Definition new (tr : Tree) (position : nat → option Vector) : t :=
  mk 0.85 tr position (λ point, point).

(** A spline returned by [_spline], with its [_start] and [_end] tags. *)
Record tagged := mkTagged {
  spline : BasisSpline.t;
  _start : nat;
  _end : nat
}.

(** [while (start != lca) { start = start.parent; points.add(...(start.index)); }] *)
Fixpoint ascend (fuel : nat) (this : t) (lca start : option ref)
    (points : list (option Vector)) : outcome (list (option Vector)) :=
  if decide (start = lca) then Done points
  else
    match fuel with
    | 0%nat => OutOfFuel
    | S f =>
        match start with
        | None => Throws
        | Some s =>
            sn ← deref s (tree this);
            match parent sn with
            | None => Throws
            | Some p =>
                pn ← deref p (tree this);
                ascend f this lca (Some p)
                  (Array.add (transformPoint this (position this (index pn))) points)
            end
        end
    end.

(** [while (end != lca) { points.add(k, ...(end.index)); end = end.parent; }] *)
Fixpoint descend (fuel : nat) (this : t) (lca end_ : option ref) (k : nat)
    (points : list (option Vector)) : outcome (list (option Vector)) :=
  if decide (end_ = lca) then Done points
  else
    match fuel with
    | 0%nat => OutOfFuel
    | S f =>
        match end_ with
        | None => Throws
        | Some e =>
            en ← deref e (tree this);
            descend f this lca (parent en) k
              (Array.add_at k (transformPoint this (position this (index en))) points)
        end
    end.

(** The array [points] of [_spline(i, j)] as it is handed to [addAll],
    before [straighten]. *)
Definition _spline_points (fuel : nat) (this : t) (i j : nat)
  : outcome (list (option Vector)) :=
  let start := nodes (tree this) !! i in
  let end_ := nodes (tree this) !! j in
  lca ← leastCommonAncestor fuel start end_ (tree this);
  let points := Array.add (transformPoint this (position this i)) [] in
  points ← ascend fuel this lca start points;
  let k := length points in
  descend fuel this lca end_ k points.

(** An array of positions as control points.  [straighten] reads [.x] of
    every control point of a non-empty spline, so an [undefined] among
    them raises a TypeError there. *)
Fixpoint control_points (points : list (option Vector)) : outcome (list Vector) :=
  match points with
  | [] => Done []
  | Some p :: points' => pts ← control_points points'; Done (p :: pts)
  | None :: _ => Throws
  end.

(** [BundledEdgeRouter.prototype._spline], one call.  [straighten] updates
    the interior control points in place; with the default hook they are the
    position objects of the layout itself, so the layout sees the update as
    well.  That effect on the layout is outside this function's result and
    is not modelled. *)
Definition _spline (fuel : nat) (this : t) (i j : nat) : outcome tagged :=
  points ← _spline_points fuel this i j;
  pts ← control_points points;
  s ← BasisSpline.straighten (beta this) (BasisSpline.addAll pts BasisSpline.new);
  Done (mkTagged s i j).

End BundledEdgeRouter.

(** ** Trees used as concrete inputs *)

Module Scenario.
Import Tree.

(** The tree reached from a fresh one by a sequence of operations. *)
Definition build (ops : list op) : Tree :=
  match run_ops 0 ops clear with
  | Some (Done t) => t
  | _ => clear
  end.

(** root = 0 with one child c = 1, which has two children g1 = 2, g2 = 3. *)
Definition family : Tree :=
  build [OpAddChild 0; OpAddChild 1; OpAddChild 1].

(** The tree of the layout and routing scenarios:
    root = 0, A = 1 and B = 2 children of root, leaf1 = 3 and leaf2 = 4
    children of A, leaf3 = 5 child of B. *)
Definition sample : Tree :=
  build [OpAddChild 0; OpAddChild 0; OpAddChild 1; OpAddChild 1; OpAddChild 2].

(** A curve whose control points lie on its chord, after a move. *)
Definition straight_curve : Path.Path :=
  [SEG_MOVE (Vector.mk 0 0);
   SEG_BEZIER (Vector.mk 3 0) (Vector.mk 1 0) (Vector.mk 2 0)].

(** Three control points. *)
Definition three_points : list Vector :=
  [Vector.mk 0 0; Vector.mk 1 1; Vector.mk 2 0].

(** A layout that puts node [i] at [(i, 0)]. *)
Definition row_layout : nat → option Vector :=
  λ i, Some (Vector.mk (INR i) 0).

End Scenario.

(** ** Ancestor chains *)

Module Chain.
Import Tree.

(** [chain t c l]: [l] lists [c], its parent, its grandparent, ... up to a
    node without parent. *)
Inductive chain (t : Tree) : ref → list ref → Prop :=
| chain_top r n :
    heap t !! r = Some n → parent n = None → chain t r [r]
| chain_up c n p l :
    heap t !! c = Some n → parent n = Some p → chain t p l → chain t c (c :: l).

End Chain.

(** ** Collinear points *)

Module Collinear.
Local Open Scope R_scope.

(** [on_line A B C p]: the point [p] lies on the line [A x + B y = C]. *)
Definition on_line (A B C : R) (p : Vector) : Prop :=
  A * Vector.x p + B * Vector.y p = C.

(** The four points lie on one common line. *)
Definition collinear4 (p1 p2 q1 q2 : Vector) : Prop :=
  ∃ A B C, (A ≠ 0 ∨ B ≠ 0) ∧
    on_line A B C p1 ∧ on_line A B C p2 ∧ on_line A B C q1 ∧ on_line A B C q2.

End Collinear.

(** ** Points on the line between two control points *)

Module Chord.
Local Open Scope R_scope.

(** The point at the fraction [i / n] of the way from [P0] to [PN]:
    [P0 + (PN - P0) * i / n]. *)
Definition on_chord (P0 PN : Vector) (i n : nat) : Vector :=
  Vector.mk (Vector.x P0 + (Vector.x PN - Vector.x P0) * INR i / INR n)
            (Vector.y P0 + (Vector.y PN - Vector.y P0) * INR i / INR n).

(** [beta * P + (1 - beta) * L] *)
Definition blend (beta : R) (P L : Vector) : Vector :=
  Vector.mk (beta * Vector.x P + (1 - beta) * Vector.x L)
            (beta * Vector.y P + (1 - beta) * Vector.y L).

End Chord.

(** ** Subdivision of a cubic curve, as the specification words it *)

Module Subdivision.
Import Path.
Local Open Scope R_scope.

Definition mid (p q : Vector) : Vector :=
  Vector.mk ((Vector.x p + Vector.x q) / 2) ((Vector.y p + Vector.y q) / 2).

(** The point of the cubic Bezier curve with control points [a b c d] at the
    parameter [u]. *)
Definition bezier (a b c d : Vector) (u : R) : Vector :=
  Vector.mk
    ((1 - u) ^ 3 * Vector.x a + 3 * (1 - u) ^ 2 * u * Vector.x b
     + 3 * (1 - u) * u ^ 2 * Vector.x c + u ^ 3 * Vector.x d)
    ((1 - u) ^ 3 * Vector.y a + 3 * (1 - u) ^ 2 * u * Vector.y b
     + 3 * (1 - u) * u ^ 2 * Vector.y c + u ^ 3 * Vector.y d).

(** Splitting at the midpoint by repeated midpoints (de Casteljau): the left
    half is [a, left_b, left_c, split_point], the right half is
    [split_point, right_b, right_c, d]. *)
Definition left_b (a b c d : Vector) : Vector := mid a b.
Definition left_c (a b c d : Vector) : Vector := mid (mid a b) (mid b c).
Definition right_b (a b c d : Vector) : Vector := mid (mid b c) (mid c d).
Definition right_c (a b c d : Vector) : Vector := mid c d.
Definition split_point (a b c d : Vector) : Vector :=
  mid (left_c a b c d) (right_b a b c d).

(** [within flatness a d p]: the control point [p] is within [flatness] of
    the chord from [a] to [d], the distance being the one [Line.distance]
    measures (to the line through [a] and [d]; to [a] when [a] and [d]
    coincide). *)
Definition within (flatness : R) (a d p : Vector) : Prop :=
  Line.distance (Line.mk (Vector.x a) (Vector.y a) (Vector.x d) (Vector.y d))
                (Vector.x p) (Vector.y p) <= flatness.

(** [subdivides flatness a b c d lines]: the recursion turns the curve
    [a b c d] into the line segments [lines]. *)
Inductive subdivides (flatness : R)
  : Vector → Vector → Vector → Vector → list Segment → Prop :=
| subdivides_flat a b c d :
    within flatness a d b → within flatness a d c →
    subdivides flatness a b c d [SEG_LINE d]
| subdivides_split a b c d l r :
    ¬ (within flatness a d b ∧ within flatness a d c) →
    subdivides flatness a (left_b a b c d) (left_c a b c d) (split_point a b c d) l →
    subdivides flatness (split_point a b c d) (right_b a b c d) (right_c a b c d) d r →
    subdivides flatness a b c d (l ++ r).

(** [flattens flatness prev segments out]: every Bezier segment of
    [segments] is replaced by the lines of its subdivision, the curve
    starting where the segment before it ends ([prev] is the segment before
    the first one, if any); other segments are kept. *)
Inductive flattens (flatness : R)
  : option Segment → list Segment → list Segment → Prop :=
| flattens_nil prev :
    flattens flatness prev [] []
| flattens_keep prev s rest out :
    is_bezier s = false →
    flattens flatness (Some s) rest out →
    flattens flatness prev (s :: rest) (s :: out)
| flattens_curve ps p cp1 cp2 rest lines out :
    subdivides flatness (point0 ps) cp1 cp2 p lines →
    flattens flatness (Some (SEG_BEZIER p cp1 cp2)) rest out →
    flattens flatness (Some ps) (SEG_BEZIER p cp1 cp2 :: rest) (lines ++ out).

End Subdivision.

(** ** Segments that meet *)

Module Meet.
Local Open Scope R_scope.

(** The point at parameter [s] of the segment from [p1] to [p2]. *)
Definition along (p1 p2 : Vector) (s : R) : Vector :=
  Vector.mk (Vector.x p1 + s * (Vector.x p2 - Vector.x p1))
            (Vector.y p1 + s * (Vector.y p2 - Vector.y p1)).

(** The segments [p1 p2] and [q1 q2] have a common point, end points
    included. *)
Definition meet (p1 p2 q1 q2 : Vector) : Prop :=
  ∃ s t, 0 <= s <= 1 ∧ 0 <= t <= 1 ∧ along p1 p2 s = along q1 q2 t.

End Meet.

(** ** geom/AffineTransform.js *)

Module AffineTransform.
Local Open Scope R_scope.

(** The six entries [_matrix[0]], ..., [_matrix[5]] of the array, which
    always has length 6: the map is
    [(x, y) ↦ (m0 x + m1 y + m2, m3 x + m4 y + m5)]. *)
Record t := mk { m0 : R; m1 : R; m2 : R; m3 : R; m4 : R; m5 : R }.

(** [new AffineTransform()]: the identity. *)
Definition new : t := mk 1 0 0 0 1 0.

(** [AffineTransform.prototype.rotate]; the right-hand sides read the copy
    of the matrix taken first. *)
Definition rotate (angle : R) (this : t) : t :=
  let c := cos angle in
  let s := sin angle in
  mk (m0 this * c - m1 this * s) (m0 this * s + m1 this * c) (m2 this)
     (m3 this * c - m4 this * s) (m3 this * s + m4 this * c) (m5 this).

(** [AffineTransform.prototype.scale(x, y)]; with one argument [y = x]. *)
Definition scale (x : R) (y : option R) (this : t) : t :=
  let y := default x y in
  mk (m0 this * x) (m1 this * y) (m2 this)
     (m3 this * x) (m4 this * y) (m5 this).

(** [AffineTransform.prototype.shear] *)
Definition shear (x y : R) (this : t) : t :=
  mk (m0 this + m1 this * y) (m0 this * x + m1 this) (m2 this)
     (m3 this + m4 this * y) (m3 this * x + m4 this) (m5 this).

(** [AffineTransform.prototype.translate] *)
Definition translate (x y : R) (this : t) : t :=
  mk (m0 this) (m1 this) (m0 this * x + m1 this * y + m2 this)
     (m3 this) (m4 this) (m3 this * x + m4 this * y + m5 this).

(** [AffineTransform.prototype.transform] *)
Definition transform (this : t) (p : Vector) : Vector :=
  Vector.mk (m0 this * Vector.x p + m1 this * Vector.y p + m2 this)
            (m3 this * Vector.x p + m4 this * Vector.y p + m5 this).

(** The determinant of the linear part. *)
Definition det (this : t) : R := m0 this * m4 this - m1 this * m3 this.

End AffineTransform.

(** ** [Path.prototype.transform] *)

Module PathTransform.
Import Path.

(** Every point of a segment through [f]. *)
Definition map_segment (f : Vector → Vector) (s : Segment) : Segment :=
  match s with
  | SEG_MOVE p => SEG_MOVE (f p)
  | SEG_LINE p => SEG_LINE (f p)
  | SEG_BEZIER p cp1 cp2 => SEG_BEZIER (f p) (f cp1) (f cp2)
  end.

(** [Path.prototype.transform]: every point of every segment is replaced by
    its image. *)
Definition transform (affine : AffineTransform.t) (this : Path) : Path :=
  map (map_segment (AffineTransform.transform affine)) this.

End PathTransform.

(** ** lang/Array.js, the other methods *)

Module ArrayOps.
Section ops.
Context {A : Type} `{EqDecision A}.

(** [Array.prototype.contains] *)
Definition contains (x : A) (l : list A) : bool :=
  bool_decide (Array.indexOf x l ≠ None).

(** [Array.prototype.containsAll]: stops with [false] at the first element
    that is missing. *)
Fixpoint containsAll (elements l : list A) : bool :=
  match elements with
  | [] => true
  | x :: elements' => if contains x l then containsAll elements' l else false
  end.

(** [Array.prototype.isEmpty] *)
Definition isEmpty (l : list A) : bool := bool_decide (length l = 0).

(** [Array.prototype.addAll(elements)] with one argument: a [push] each. *)
Fixpoint addAll (elements l : list A) : list A :=
  match elements with
  | [] => l
  | x :: elements' => addAll elements' (Array.add x l)
  end.

(** [Array.prototype.removeAll]: one [remove] per listed element, in
    order. *)
Fixpoint removeAll (elements l : list A) : list A :=
  match elements with
  | [] => l
  | x :: elements' => removeAll elements' (Array.remove x l).2
  end.

(** The loop [for (i = this.length - 1; i >= 0; i--)] of [retainAll];
    [cnt] is [i + 1]. *)
Fixpoint retainAll_loop (cnt : nat) (elements l : list A) : list A :=
  match cnt with
  | 0 => l
  | S i =>
      retainAll_loop i elements
        match l !! i with
        | Some x => if contains x elements then l else delete i l
        | None => l
        end
  end.

(** [Array.prototype.retainAll] *)
Definition retainAll (elements l : list A) : list A :=
  retainAll_loop (length l) elements l.

(** *** Arrays with holes

    [addAll(index, elements)] with two arguments grows the array by
    assigning to [length] and then writes slots by index, which can leave
    holes.  A slot is [Some v] or [None] for a hole (read as
    [undefined]). *)

(** [this[i]] *)
Definition load (i : nat) (l : list (option A)) : option A := mjoin (l !! i).

(** [this[i] = v]: in range it replaces the slot, beyond the end it
    extends the array with holes up to [i]. *)
Definition store (i : nat) (v : option A) (l : list (option A)) : list (option A) :=
  if bool_decide (i < length l) then <[i := v]> l
  else l ++ replicate (i - length l) None ++ [v].

(** [this.length += m] *)
Definition grow (m : nat) (l : list (option A)) : list (option A) :=
  l ++ replicate m None.

(** [for (i = n - 1; i >= index; i--) this[i + m] = this[i]]; [cnt] is
    [i + 1 - index]. *)
Fixpoint shift_loop (cnt index m : nat) (l : list (option A)) : list (option A) :=
  match cnt with
  | 0 => l
  | S c => shift_loop c index m (store (index + c + m) (load (index + c) l) l)
  end.

(** [for (i = 0; i < m; i++) this[i + index] = elements[i]] *)
Fixpoint fill_loop (i index : nat) (elements : list A) (l : list (option A))
  : list (option A) :=
  match elements with
  | [] => l
  | x :: elements' => fill_loop (S i) index elements' (store (i + index) (Some x) l)
  end.

(** The array extended with holes to [k] slots, as a write at slot [k]
    beyond the end leaves it. *)
Definition pad (k : nat) (l : list (option A)) : list (option A) :=
  l ++ replicate (k - length l) None.

(** [Array.prototype.addAll(index, elements)] with two arguments. *)
Definition addAll_at (index : nat) (elements : list A) (l : list (option A))
  : list (option A) :=
  let n := length l in
  let m := length elements in
  let l := grow m l in
  let l := shift_loop (n - index) index m l in
  fill_loop 0 index elements l.

End ops.
End ArrayOps.

(** ** Edges as both ends record them *)

Module Edges.
Import Tree.

(** Number of occurrences of [x] in an array. *)
Definition count (x : ref) (l : list ref) : nat :=
  length (filter (λ z, z = x) l).

(** [a.outgoing] and [a.incoming] as stored; no object, no edges. *)
Definition outgoing_of (t : Tree) (a : ref) : list ref :=
  match heap t !! a with Some n => outgoing n | None => [] end.
Definition incoming_of (t : Tree) (a : ref) : list ref :=
  match heap t !! a with Some n => incoming n | None => [] end.

(** Every edge is recorded at both of its ends, the same number of
    times. *)
Definition balanced (t : Tree) : Prop :=
  ∀ a b, count b (outgoing_of t a) = count a (incoming_of t b).

(** No node has an edge. *)
Definition no_edges (t : Tree) : Prop :=
  map_Forall (λ _ n, outgoing n = [] ∧ incoming n = []) (heap t).

(** The parent-child part of a node. *)
Definition shape (n : Node) : list ref * nat * option ref :=
  (children n, index n, parent n).

(** Two trees with the same table, root and parent-child structure. *)
Definition same_structure (t t' : Tree) : Prop :=
  nodes t' = nodes t ∧ root t' = root t ∧
  ∀ r, shape <$> heap t' !! r = shape <$> heap t !! r.

(** One pass of the first and of the second loop of [clearEdges], over a
    given list of end nodes. *)
Definition unlink_outgoing (this : ref) (l : list ref) (t : Tree) : Tree :=
  foldl (λ t src, update src (set_outgoing (λ l, (Array.remove this l).2)) t) t l.
Definition unlink_incoming (this : ref) (l : list ref) (t : Tree) : Tree :=
  foldl (λ t dst, update dst (set_incoming (λ l, (Array.remove this l).2)) t) t l.

(** The sample tree with the edges leaf1 -> leaf3, leaf2 -> leaf3 and
    leaf3 -> leaf1. *)
Definition linked : Tree :=
  let run : outcome Tree :=
    t1 ← addEdge 3 5 Scenario.sample;
    t2 ← addEdge 4 5 t1;
    addEdge 5 3 t2 in
  match run with
  | Done t => t
  | _ => Scenario.sample
  end.

End Edges.

(** ** Invariants of the layout run *)

Module LayoutBounds.
Import CircleLayout.
Local Open Scope R_scope.

(** Every recorded depth is at most [maxDepth]. *)
Definition depths_bounded (st : counts) : Prop :=
  ∀ i d, depthByNode st !! i = Some d → (d ≤ maxDepth st)%nat.

(** Every position written so far lies in the unit disc. *)
Definition in_unit_disc (ps : gmap nat Vector) : Prop :=
  ∀ i v, ps !! i = Some v →
    Vector.x v * Vector.x v + Vector.y v * Vector.y v <= 1.

End LayoutBounds.

(** ** The control path of the router *)

Module ControlPath.
Import Tree BundledEdgeRouter.

(** The control point the router takes for a node:
    [transformPoint(layout.position(node.index))]. *)
Definition point_of (this : BundledEdgeRouter.t) (r : ref) : option Vector :=
  transformPoint this (n ← heap (tree this) !! r; position this (index n)).

End ControlPath.

(** ** vis/RadialLabeler.js *)

Module RadialLabeler.
Import Tree.
Local Open Scope R_scope.

(** The labeler reads its layout through [layout.position(index)] and
    passes every position through the hook [transformPoint]. *)
Record t := mk {
  tree : Tree;
  position : nat → option Vector;
  transformPoint : option Vector → option Vector
}.

(** [new RadialLabeler(tree, layout)], with the default hook
    [transformPoint(point) { return point; }]. *)
Definition new (tr : Tree) (position : nat → option Vector) : t :=
  mk tr position (λ point, point).

(** [pd < jd], where [jd] starts as [Infinity] ([None]). *)
Definition closer (pd : R) (jd : option R) : bool :=
  match jd with
  | None => true
  | Some d => bool_decide (pd < d)
  end.

(** The loop of [nodeAt]: [for (i = 1; i < nodes.length; i++) ...];
    [cnt] is [nodes.length - i].  [p.distance] on an [undefined] position
    raises a TypeError. *)
Fixpoint nodeAt_loop (this : t) (x y : R) (cnt i j : nat) (jd : option R)
  : outcome nat :=
  match cnt with
  | 0%nat => Done j
  | S c =>
      match transformPoint this (position this i) with
      | None => Throws
      | Some p =>
          let pd := Vector.distance p x y in
          if closer pd jd then nodeAt_loop this x y c (S i) i (Some pd)
          else nodeAt_loop this x y c (S i) j jd
      end
  end.

(** The index [j] that [nodeAt] ends with. *)
Definition nodeAt_index (this : t) (x y : R) : outcome nat :=
  nodeAt_loop this x y (length (nodes (tree this)) - 1) 1 0 None.

(** [RadialLabeler.prototype.nodeAt]: [this.tree.nodes[j]]. *)
Definition nodeAt (this : t) (x y : R) : outcome (option ref) :=
  j ← nodeAt_index this x y;
  Done (nodes (tree this) !! j).

(** JavaScript's [a % b] on numbers: the remainder of the division
    truncated towards zero, with the sign of [a]. *)
Definition trunc (r : R) : Z :=
  if bool_decide (0 <= r) then Int_part r else (- Int_part (- r))%Z.

Definition rem (a b : R) : R := a - b * IZR (trunc (a / b)).

(** [RadialLabeler.prototype._upsideDown] *)
Definition _upsideDown (angle : R) : bool :=
  let angle := rem angle (2 * PI) in
  let angle := if bool_decide (angle < 0) then angle + 2 * PI else angle in
  bool_decide (angle > PI / 2) && bool_decide (angle < 1.5 * PI).

End RadialLabeler.

(** ** Path.prototype.intersects *)

Module PathIntersects.
Import Path.

(** The inner loop over [b]; [prev] is [b[j - 1]], [undefined] at
    [j = 0], where [b[j - 1].points] raises a TypeError. *)
Fixpoint inner (p1 p2 : Vector) (prev : option Segment) (b : list Segment)
  : outcome bool :=
  match b with
  | [] => Done false
  | s :: rest =>
      match s with
      | SEG_LINE q2 =>
          match prev with
          | None => Throws
          | Some ps =>
              if Line.intersect p1 p2 (point0 ps) q2 then Done true
              else inner p1 p2 (Some s) rest
          end
      | _ => inner p1 p2 (Some s) rest
      end
  end.

(** The outer loop over [a]. *)
Fixpoint outer (prev : option Segment) (a b : list Segment) : outcome bool :=
  match a with
  | [] => Done false
  | s :: rest =>
      match s with
      | SEG_LINE p2 =>
          match prev with
          | None => Throws
          | Some ps =>
              found ← inner (point0 ps) p2 None b;
              if found : bool then Done true else outer (Some s) rest b
          end
      | _ => outer (Some s) rest b
      end
  end.

(** [Path.prototype.intersects]: both paths are flattened as copies, the
    receiver first. *)
Definition intersects (fuel : nat) (flatness : option R) (this path : Path)
  : outcome bool :=
  a ← Flatten.flatten fuel flatness this;
  b ← Flatten.flatten fuel flatness path;
  outer None a b.

(** The line pieces of a flat path: every [SEG_LINE] with the point of the
    segment before it. *)
Fixpoint pieces (prev : option Segment) (segs : list Segment) : list (Vector * Vector) :=
  match segs with
  | [] => []
  | s :: rest =>
      match s, prev with
      | SEG_LINE p, Some ps => (point0 ps, p) :: pieces (Some s) rest
      | _, _ => pieces (Some s) rest
      end
  end.

(** The path does not begin with a line or a curve. *)
Definition begins_with_move (segs : list Segment) : bool :=
  match segs with
  | SEG_LINE _ :: _ | SEG_BEZIER _ _ _ :: _ => false
  | _ => true
  end.

End PathIntersects.

(** ** DependencyTree.js *)

Module DependencyTree.
Import Tree.

(** [name.lastIndexOf(".")], written for any character: position of the
    last occurrence, [None] for [-1]. *)
Fixpoint lastIndexOf_from (c : ascii) (s : string) (i : nat) (found : option nat)
  : option nat :=
  match s with
  | EmptyString => found
  | String a s' =>
      lastIndexOf_from c s' (S i) (if decide (a = c) then Some i else found)
  end.

Definition lastIndexOf (c : ascii) (s : string) : option nat :=
  lastIndexOf_from c s 0 None.

(** [name.substring(0, i)] and [name.substring(i)]. *)
Definition substring_to (i : nat) (s : string) : string := String.substring 0 i s.
Definition substring_from (i : nat) (s : string) : string :=
  String.substring i (String.length s - i) s.

(** What [this._map[name]] can hold when it is truthy: a node stored by
    [get], or a member that every object inherits (such as [constructor] or
    [toString]), when the map has no entry of its own under that name. *)
Inductive entry :=
| Node (r : ref)
| Inherited (name : string).

(** A dependency tree: the tree, the object [_map] used as a map from full
    names to nodes, and the fields [name] and [fullName] that [get] sets on
    the nodes it creates. *)
Record t := mk {
  tree : Tree;
  _map : gmap string ref;
  name : gmap ref string;
  fullName : gmap ref string
}.

(** [new DependencyTree()] *)
Definition new : t := mk Tree.clear ∅ ∅ ∅.

Section get.
(** The names that every object inherits; which they are is up to the
    host. *)
Variable inherited : string → bool.

(** [DependencyTree.prototype.get]; a call on an inherited member as parent
    raises a TypeError ([parent.addChild] is not a function). *)
Fixpoint get (fuel : nat) (nm : string) (this : t) : outcome (entry * t) :=
  match fuel with
  | 0 => OutOfFuel
  | S f =>
      match _map this !! nm with
      | Some r => Done (Node r, this)
      | None =>
          if inherited nm then Done (Inherited nm, this)
          else
            let i := lastIndexOf "."%char nm in
            '(parent, this1) ←
              match i with
              | None => Done (Node (root (tree this)), this)
              | Some i => get f (substring_to i nm) this
              end;
            match parent with
            | Inherited _ => Throws
            | Node p =>
                '(node, tr) ← addChild p (tree this1);
                let short := substring_from (match i with None => 0 | Some i => S i end) nm in
                Done (Node node,
                      mk tr (<[nm := node]> (_map this1))
                         (<[node := short]> (name this1))
                         (<[node := nm]> (fullName this1)))
            end
      end
  end.

(** The names [get] asks for, from [nm] up through its packages. *)
Fixpoint packages (fuel : nat) (nm : string) : list string :=
  match fuel with
  | 0 => []
  | S f =>
      nm :: match lastIndexOf "."%char nm with
            | None => []
            | Some i => packages f (substring_to i nm)
            end
  end.

End get.

(** The node that stands for the package of [nm]: the root for a name
    without a dot, the node of the part before the last dot otherwise. *)
Definition package_node (this : t) (nm : string) : option ref :=
  match lastIndexOf "."%char nm with
  | None => Some (root (tree this))
  | Some i => _map this !! substring_to i nm
  end.

(** The invariant of a dependency tree built by [get]: the tree is
    well-formed, holds its root and every allocated node, and every mapped
    node is a table node whose parent is the node of its package. *)
Definition wf (this : t) : Prop :=
  wf_tree (tree this) ∧ heap_closed (tree this) ∧
  root (tree this) ∈ nodes (tree this) ∧
  ∀ nm r, _map this !! nm = Some r →
    r ∈ nodes (tree this) ∧
    ∃ p, parent_of (tree this) r = Some p ∧ package_node this nm = Some p.

End DependencyTree.

(** ** Position objects shared between the layout and the router

    [CircleLayout.place] stores one [Vector] object per slot of
    [_positions]; [layout.position(index)] returns that object, the default
    [transformPoint] hands it on, and [addAll] pushes it into the spline.
    So the control points of a spline made by the router with its default
    hook are the layout's own objects, and [straighten] assigns to their
    fields.  Here an object is named by the slot that holds it, and the
    objects live in a store. *)

Module SharedLayout.
Import Tree.
Local Open Scope R_scope.

(** The position objects of a layout, by slot. *)
Abbreviation objects := (gmap nat Vector).

(** [layout.position(index)] as a reference: the object of the slot, or
    [undefined]. *)
Definition position (st : objects) (index : nat) : option nat :=
  match st !! index with
  | Some _ => Some index
  | None => None
  end.

(** The two loops of [_spline] with the default hook, collecting
    references. *)
Fixpoint ascend (fuel : nat) (tr : Tree) (st : objects) (lca start : option ref)
    (points : list (option nat)) : outcome (list (option nat)) :=
  if decide (start = lca) then Done points
  else
    match fuel with
    | 0%nat => OutOfFuel
    | S f =>
        match start with
        | None => Throws
        | Some s =>
            sn ← deref s tr;
            match parent sn with
            | None => Throws
            | Some p =>
                pn ← deref p tr;
                ascend f tr st lca (Some p) (Array.add (position st (index pn)) points)
            end
        end
    end.

Fixpoint descend (fuel : nat) (tr : Tree) (st : objects) (lca end_ : option ref)
    (k : nat) (points : list (option nat)) : outcome (list (option nat)) :=
  if decide (end_ = lca) then Done points
  else
    match fuel with
    | 0%nat => OutOfFuel
    | S f =>
        match end_ with
        | None => Throws
        | Some e =>
            en ← deref e tr;
            descend f tr st lca (parent en) k
              (Array.add_at k (position st (index en)) points)
        end
    end.

(** The array [points] of [_spline(i, j)], as references. *)
Definition _spline_points (fuel : nat) (tr : Tree) (st : objects) (i j : nat)
  : outcome (list (option nat)) :=
  let start := nodes tr !! i in
  let end_ := nodes tr !! j in
  lca ← leastCommonAncestor fuel start end_ tr;
  let points := Array.add (position st i) [] in
  points ← ascend fuel tr st lca start points;
  let k := length points in
  descend fuel tr st lca end_ k points.

(** [straighten] reads a field of every control point of a non-empty
    spline, so an [undefined] among them raises a TypeError. *)
Fixpoint control_refs (points : list (option nat)) : outcome (list nat) :=
  match points with
  | [] => Done []
  | Some r :: points' => rs ← control_refs points'; Done (r :: rs)
  | None :: _ => Throws
  end.

(** The loop of [straighten] on an array [z] of references: the assignment
    to [p.x] and [p.y] changes the object, for everyone who holds it. *)
Fixpoint straighten_loop (cnt i : nat) (beta dx dy : R) (e : nat)
    (z : list nat) (st : objects) : outcome objects :=
  match cnt with
  | 0%nat => Done st
  | S cnt' =>
      match z !! i, z !! 0%nat with
      | Some r, Some r0 =>
          match st !! r, st !! r0 with
          | Some p, Some z0 =>
              let p' :=
                Vector.mk
                  (beta * Vector.x p + (1 - beta) * (Vector.x z0 + INR i * dx / INR e))
                  (beta * Vector.y p + (1 - beta) * (Vector.y z0 + INR i * dy / INR e)) in
              straighten_loop cnt' (S i) beta dx dy e z (<[r := p']> st)
          | _, _ => Throws
          end
      | _, _ => Throws
      end
  end.

(** [BasisSpline.prototype.straighten] on an array of references. *)
Definition straighten (beta : R) (z : list nat) (st : objects) : outcome objects :=
  match z with
  | [] => Throws
  | r0 :: _ =>
      let e := (length z - 1)%nat in
      match z !! e with
      | None => Throws
      | Some re =>
          match st !! re, st !! r0 with
          | Some ze, Some z0 =>
              let dx := Vector.x ze - Vector.x z0 in
              let dy := Vector.y ze - Vector.y z0 in
              straighten_loop (e - 1) 1 beta dx dy e z st
          | _, _ => Throws
          end
      end
  end.

(** [BundledEdgeRouter.prototype._spline] with the default hook: the
    control points of the spline, as references, and the objects after the
    call. *)
Definition _spline (fuel : nat) (tr : Tree) (beta : R) (st : objects) (i j : nat)
  : outcome (list nat * objects) :=
  points ← _spline_points fuel tr st i j;
  z ← control_refs points;
  st' ← straighten beta z st;
  Done (z, st').

(** The reference the router takes for a node:
    [layout.position(node.index)]. *)
Definition point_of (tr : Tree) (st : objects) (r : ref) : option nat :=
  n ← heap tr !! r; position st (index n).

(** A layout that holds the position [(k, 0)] in slot [k], for [k < n]. *)
Definition row (n : nat) : objects :=
  list_to_map ((λ k, (k, Vector.mk (INR k) 0)) <$> seq 0 n).

(** The entries of an array strictly between its first and its last. *)
Definition interior (z : list nat) (k : nat) : Prop :=
  ∃ m, (0 < m < length z - 1)%nat ∧ z !! m = Some k.

End SharedLayout.

(** * Properties of the tree *)

Section tree_facts.
Import Tree Chain.
Context (t : Tree).

Lemma pop_snoc {A} (l : list A) (x : A) : Array.pop (l ++ [x]) = (Some x, l).
Proof. unfold Array.pop. by rewrite last_snoc, removelast_last. Qed.

Lemma pop_nil {A} : Array.pop (@nil A) = (None, []).
Proof. reflexivity. Qed.

Lemma chain_head c l : chain t c l → ∃ l', l = c :: l'.
Proof. destruct 1; eauto. Qed.

Lemma chain_fun c l l' : chain t c l → chain t c l' → l = l'.
Proof.
  intros H. revert l'. induction H as [r n Hr Hp|c n p l Hc Hp Hl IH]; intros l' H'.
  - inversion H'; simplify_eq; congruence.
  - inversion H'; simplify_eq; try congruence.
    f_equal. apply IH. congruence.
Qed.

Lemma chain_ancestor c l d : chain t c l → d ∈ l → ancestor t d c.
Proof.
  induction 1 as [r n Hr Hp|c n p l Hc Hp Hl IH]; intros Hd.
  - apply list_elem_of_singleton in Hd as ->. apply rtc_refl.
  - apply elem_of_cons in Hd as [->|Hd]; [apply rtc_refl|].
    eapply rtc_l; [|by apply IH]. unfold parent_of. by rewrite Hc.
Qed.

Lemma ancestor_chain c l d : chain t c l → ancestor t d c → d ∈ l.
Proof.
  intros Hl Ha. revert l Hl. unfold ancestor in Ha.
  induction Ha as [c|c p d Hcp _ IH]; intros l Hl.
  - destruct (chain_head _ _ Hl) as [l' ->]. set_solver.
  - unfold parent_of in Hcp.
    inversion Hl as [r n Hr Hp|c' n p' l' Hc Hp Hl']; subst;
      rewrite ?Hr, ?Hc in Hcp; simpl in Hcp.
    + congruence.
    + assert (p' = p) as -> by congruence. right. by apply IH.
Qed.

Lemma chain_suffix c l xs d rest :
  chain t c l → l = xs ++ d :: rest → chain t d (d :: rest).
Proof.
  intros H. revert xs. induction H as [r n Hr Hp|c n p l Hc Hp Hl IH]; intros xs E.
  - destruct xs as [|x [|??]]; simplify_eq/=. by eapply chain_top.
  - destruct xs as [|x xs]; simplify_eq/=.
    + by eapply chain_up.
    + by eapply IH.
Qed.

Lemma chain_last c l : chain t c l → ∃ r n, last l = Some r ∧ heap t !! r = Some n ∧ parent n = None.
Proof.
  induction 1 as [r n Hr Hp|c n p l Hc Hp Hl (r & m & IH1 & IH2)].
  - eauto.
  - exists r, m. split; [|done].
    destruct (chain_head _ _ Hl) as [l' ->]. by rewrite last_cons_cons.
Qed.

(** [ancestors] computes the chain, given one step of fuel per link. *)
Lemma ancestors_loop_chain fuel acc c n l :
  chain t c l → heap t !! c = Some n → length l ≤ S fuel →
  ancestors_loop fuel t acc c (parent n) = Done (acc ++ l).
Proof.
  intros H. revert fuel acc n.
  induction H as [r m Hr Hp|c m p l Hc Hp Hl IH]; intros fuel acc n Hn Hlen.
  - simplify_eq. rewrite Hp. by destruct fuel.
  - simplify_eq. rewrite Hp. simpl in Hlen.
    destruct fuel as [|fuel]; simpl.
    { destruct (chain_head _ _ Hl) as [l' ->]. simpl in Hlen. lia. }
    inversion Hl; simplify_eq.
    + unfold deref. rewrite H. simpl.
      rewrite (IH fuel (Array.add c acc) n H); [|simpl; lia].
      unfold Array.add. by rewrite <-app_assoc.
    + unfold deref. rewrite H. simpl.
      rewrite (IH fuel (Array.add c acc) n H); [|simpl in *; lia].
      unfold Array.add. by rewrite <-app_assoc.
Qed.

Lemma ancestors_chain fuel c l :
  chain t c l → length l ≤ S fuel → ancestors fuel c t = Done l.
Proof.
  intros H Hlen. unfold ancestors, deref.
  assert (∃ n, heap t !! c = Some n) as [n Hn] by (inversion H; eauto).
  rewrite Hn. simpl. by rewrite (ancestors_loop_chain fuel [] c n l).
Qed.

(** The loop of [leastCommonAncestor] on two arrays that, read from their
    ends, agree on [P] and then differ. *)
Lemma lca_loop_prefix (P sa sb : list ref) sh fuel :
  head sa ≠ head sb → length P ≤ fuel →
  (let '(aNode, aNodes) := Array.pop (reverse (P ++ sa)) in
   let '(bNode, bNodes) := Array.pop (reverse (P ++ sb)) in
   lca_loop fuel aNodes bNodes aNode bNode sh)
  = Done (match last P with Some l => Some l | None => sh end).
Proof.
  revert sh fuel. induction P as [|x P IH]; intros sh fuel Hne Hlen.
  - simpl. unfold Array.pop. rewrite !last_reverse.
    destruct fuel; simpl; by rewrite decide_False.
  - rewrite <-!app_comm_cons, !reverse_cons, !pop_snoc.
    destruct fuel as [|fuel]; [simpl in Hlen; lia|].
    cbn [lca_loop]. rewrite decide_True by done.
    specialize (IH (Some x) fuel Hne ltac:(simpl in Hlen; lia)).
    destruct (Array.pop (reverse (P ++ sa))) as [aN aNs].
    destruct (Array.pop (reverse (P ++ sb))) as [bN bNs].
    rewrite IH. f_equal.
    destruct P as [|y P]; [done|]. rewrite last_cons_cons.
    destruct (last (y :: P)) eqn:E; [done|].
    by apply last_None in E.
Qed.

(** Two different lists split into a common prefix and tails with
    different heads. *)
Lemma common_prefix (xs ys : list ref) :
  xs ≠ ys → ∃ P sa sb, xs = P ++ sa ∧ ys = P ++ sb ∧ head sa ≠ head sb.
Proof.
  revert ys. induction xs as [|x xs IH]; intros ys Hne.
  - destruct ys as [|y ys]; [done|]. by exists [], [], (y :: ys).
  - destruct ys as [|y ys]; [by exists [], (x :: xs), []|].
    destruct (decide (x = y)) as [->|Hxy].
    + destruct (IH ys) as (P & sa & sb & -> & -> & H); [congruence|].
      by exists (y :: P), sa, sb.
    + exists [], (x :: xs), (y :: ys). simpl. split_and!; congruence.
Qed.

(** No node strictly below [l] is on both chains when the chains part
    right below [l]. *)
Lemma chains_part_below (a b l : ref) (la lb ua ub rest : list ref) d :
  chain t a la → chain t b lb →
  la = ua ++ l :: rest → lb = ub ++ l :: rest →
  last ua ≠ last ub ∨ ua = [] →
  descendant t d l → d ≠ l → ¬ (ancestor t d a ∧ ancestor t d b).
Proof.
  intros Ha Hb -> -> Hpart Hd Hdl [Hda Hdb].
  pose proof (chain_suffix _ _ _ _ _ Ha eq_refl) as Hcl'.
  apply (ancestor_chain _ _ _ Ha) in Hda.
  apply (ancestor_chain _ _ _ Hb) in Hdb.
  apply list_elem_of_split in Hda as (xs & ra & Exa).
  apply list_elem_of_split in Hdb as (ys & rb & Eyb).
  pose proof (chain_suffix _ _ _ _ _ Ha Exa) as Hcd.
  pose proof (chain_suffix _ _ _ _ _ Hb Eyb) as Hcd'.
  assert (ra = rb) as <- by (pose proof (chain_fun _ _ _ Hcd Hcd'); congruence).
  apply (ancestor_chain _ _ _ Hcd) in Hd.
  apply elem_of_cons in Hd as [?|Hd]; [done|].
  apply list_elem_of_split in Hd as (zs & rl & ->).
  pose proof (chain_suffix _ _ (d :: zs) _ _ Hcd eq_refl) as Hcl.
  assert (rl = rest) as -> by (pose proof (chain_fun _ _ _ Hcl Hcl'); congruence).
  assert (ua = xs ++ d :: zs) as ->.
  { apply (app_inv_tail (l :: rest)). rewrite Exa. by rewrite <-!app_assoc. }
  assert (ub = ys ++ d :: zs) as ->.
  { apply (app_inv_tail (l :: rest)). rewrite Eyb. by rewrite <-!app_assoc. }
  destruct Hpart as [Hpart|Hnil]; [|by destruct xs].
  apply Hpart. rewrite !last_app.
  destruct (last (d :: zs)) eqn:E; [done|]. by apply last_None in E.
Qed.

End tree_facts.

Section wf_tree_facts.
Import Tree Chain.
Context (t : Tree) (Hwf : wf_tree t).

Lemma wf_tree_node r : r ∈ nodes t → wf_node t r.
Proof. destruct Hwf as [_ H]. rewrite Forall_forall in H. apply H. Qed.

(** Heap ordering bounds the chain of a table node by its index. *)
Lemma wf_chain k r n :
  r ∈ nodes t → heap t !! r = Some n → index n ≤ k →
  ∃ l, chain t r l ∧ length l ≤ S (index n) ∧ last l = Some (root t).
Proof.
  revert r n. induction k as [k IH] using lt_wf_ind. intros r n Hr Hn Hk.
  pose proof (wf_tree_node r Hr) as Hnode. unfold wf_node in Hnode.
  rewrite Hn in Hnode. destruct Hnode as [Hpos Hpar].
  destruct (parent n) as [p|] eqn:Ep.
  - destruct (heap t !! p) as [pn|] eqn:Hp; [|done].
    destruct Hpar as [Hppos Hlt].
    destruct (IH (index pn) ltac:(lia) p pn) as (l & Hl & Hlen & Hlast); [|done|lia|].
    { apply list_elem_of_lookup. eauto. }
    exists (r :: l). split_and!.
    + by eapply chain_up.
    + simpl. lia.
    + destruct (chain_head _ _ _ Hl) as [l' ->]. by rewrite last_cons_cons.
  - subst r. exists [root t]. split_and!; [by eapply chain_top|simpl; lia|done].
Qed.

Lemma wf_index_lt r n : r ∈ nodes t → heap t !! r = Some n → index n < length (nodes t).
Proof.
  intros Hr Hn. pose proof (wf_tree_node r Hr) as Hnode. unfold wf_node in Hnode.
  rewrite Hn in Hnode. destruct Hnode as [Hpos _]. by eapply lookup_lt_Some.
Qed.

Lemma wf_in_heap r : r ∈ nodes t → ∃ n, heap t !! r = Some n.
Proof.
  intros Hr. pose proof (wf_tree_node r Hr) as Hnode. unfold wf_node in Hnode.
  destruct (heap t !! r); [eauto|done].
Qed.

Lemma wf_chain_table r :
  r ∈ nodes t →
  ∃ l, chain t r l ∧ length l ≤ length (nodes t) ∧ last l = Some (root t).
Proof.
  intros Hr. destruct (wf_in_heap r Hr) as [n Hn].
  destruct (wf_chain (index n) r n Hr Hn (le_n _)) as (l & ? & ? & ?).
  pose proof (wf_index_lt r n Hr Hn). exists l. split_and!; [done|lia|done].
Qed.

End wf_tree_facts.

(** C3.  In a well-formed tree, for table nodes [a] and [b] and a step budget
    of at least the size of the table, [leastCommonAncestor(a, b)] returns a
    node [l] that is an ancestor of [a] and of [b] (a node being an ancestor
    of itself), no proper descendant of [l] is an ancestor of both, and [l]
    is [a] when [a == b]. *)
Theorem leastCommonAncestor_correct (t : Tree.Tree) (a b : Tree.ref) (fuel : nat) :
  Tree.wf_tree t → a ∈ Tree.nodes t → b ∈ Tree.nodes t →
  length (Tree.nodes t) ≤ fuel →
  ∃ l, Tree.leastCommonAncestor fuel (Some a) (Some b) t = Done (Some l) ∧
       Tree.ancestor t l a ∧ Tree.ancestor t l b ∧
       (∀ d, Tree.descendant t d l → d ≠ l →
             ¬ (Tree.ancestor t d a ∧ Tree.ancestor t d b)) ∧
       (a = b → l = a).
Proof.
  intros Hwf Ha Hb Hfuel.
  destruct (wf_chain_table t Hwf a Ha) as (la & Hla & Hlena & Hlasta).
  destruct (wf_chain_table t Hwf b Hb) as (lb & Hlb & Hlenb & Hlastb).
  unfold Tree.leastCommonAncestor.
  destruct (decide (Some a = Some b)) as [E|Hne].
  - assert (a = b) as <- by congruence. exists a. split_and!; try done; try apply rtc_refl.
    intros d Hd Hda. destruct (chain_head _ _ _ Hla) as [rest ->].
    apply (chains_part_below t a a a (a :: rest) (a :: rest) [] [] rest d);
      auto.
  - rewrite (ancestors_chain t fuel a la Hla) by lia. simpl.
    rewrite (ancestors_chain t fuel b lb Hlb) by lia. simpl.
    destruct (chain_head _ _ _ Hla) as [ra Era].
    destruct (chain_head _ _ _ Hlb) as [rb Erb].
    destruct (common_prefix (reverse la) (reverse lb)) as (P & sa & sb & EP & EQ & Hhd).
    { intros E. apply (f_equal reverse) in E. rewrite !reverse_involutive in E.
      subst. congruence. }
    assert (la = reverse (P ++ sa)) as Ela by (by rewrite <-EP, reverse_involutive).
    assert (lb = reverse (P ++ sb)) as Elb by (by rewrite <-EQ, reverse_involutive).
    assert (∃ P' l, P = P' ++ [l]) as (P' & l & ->).
    { destruct (last P) as [l|] eqn:E; [apply last_Some in E as [P' ->]; eauto|].
      apply last_None in E as ->. exfalso. apply Hhd. simpl in *.
      by rewrite <-EP, <-EQ, !head_reverse, Hlasta, Hlastb. }
    exists l.
    assert (length (P' ++ [l]) ≤ fuel) as HlenP.
    { assert (length la = length (P' ++ [l]) + length sa) as E.
      { by rewrite Ela, length_reverse, length_app. }
      lia. }
    pose proof (lca_loop_prefix (P' ++ [l]) sa sb None fuel Hhd HlenP) as Hloop.
    rewrite <-Ela, <-Elb, last_snoc in Hloop.
    split; [exact Hloop|].
    assert (la = reverse sa ++ l :: reverse P') as Ea.
    { by rewrite Ela, !reverse_app, reverse_singleton. }
    assert (lb = reverse sb ++ l :: reverse P') as Eb.
    { by rewrite Elb, !reverse_app, reverse_singleton. }
    split_and!.
    + eapply chain_ancestor; [done|]. rewrite Ea. set_solver.
    + eapply chain_ancestor; [done|]. rewrite Eb. set_solver.
    + intros d Hd Hdl.
      eapply (chains_part_below t a b l la lb); eauto.
      left. by rewrite !last_reverse.
    + intros ->. done.
Qed.

(** The sample tree satisfies the table invariants. *)
Lemma sample_nodes : Tree.nodes Scenario.sample = [0; 1; 2; 3; 4; 5].
Proof. vm_compute. reflexivity. Qed.

Lemma sample_wf : Tree.wf_tree Scenario.sample.
Proof.
  unfold Tree.wf_tree. rewrite sample_nodes. split.
  - by apply (bool_decide_unpack _); vm_compute.
  - repeat constructor; vm_compute; repeat split; lia.
Qed.

Lemma leastCommonAncestor_correct_witness :
  ∃ l, Tree.leastCommonAncestor 6 (Some 3) (Some 5) Scenario.sample = Done (Some l) ∧
       Tree.ancestor Scenario.sample l 3 ∧ Tree.ancestor Scenario.sample l 5 ∧
       (∀ d, Tree.descendant Scenario.sample d l → d ≠ l →
             ¬ (Tree.ancestor Scenario.sample d 3 ∧ Tree.ancestor Scenario.sample d 5)) ∧
       (3 = 5 → l = 3).
Proof.
  apply (leastCommonAncestor_correct Scenario.sample 3 5 6).
  - exact sample_wf.
  - rewrite sample_nodes. set_solver.
  - rewrite sample_nodes. set_solver.
  - rewrite sample_nodes. simpl. lia.
Defined.

(** * The invariants under [addChild] alone *)

Section addChild_facts.
Import Tree.

Lemma wf_node_spec (t : Tree) (x : ref) :
  wf_node t x ↔
  ∃ n, heap t !! x = Some n ∧ nodes t !! index n = Some x ∧
       (parent n = None → x = root t) ∧
       (∀ p, parent n = Some p →
          ∃ pn, heap t !! p = Some pn ∧ nodes t !! index pn = Some p ∧
                index pn < index n).
Proof.
  unfold wf_node. split.
  - destruct (heap t !! x) as [n|]; [|done]. intros [Hpos Hpar].
    exists n. split_and!; [done..| |].
    + intros E. by rewrite E in Hpar.
    + intros p E. rewrite E in Hpar.
      destruct (heap t !! p) as [pn|]; [|done]. eauto.
  - intros (n & -> & Hpos & Hroot & Hpar). split; [done|].
    destruct (parent n) as [p|]; [|by apply Hroot].
    destruct (Hpar p eq_refl) as (pn & -> & ? & ?). done.
Qed.

Lemma clear_wf : wf_tree clear ∧ heap_closed clear.
Proof.
  split.
  - split; [by apply (bool_decide_unpack _); vm_compute|].
    repeat constructor; vm_compute; repeat split.
  - intros r [n Hn].
    assert (nodes clear = [0]) as -> by (by vm_compute).
    destruct (decide (r = 0)) as [->|Hne]; [set_solver|].
    exfalso. revert Hn.
    assert (heap clear = <[0 := mkNode [] [] [] 0 None]> ∅) as -> by (by vm_compute).
    rewrite lookup_insert_ne by done. by rewrite lookup_empty.
Qed.

Lemma addChild_wf (t t' : Tree) (this child : ref) :
  wf_tree t → heap_closed t → addChild this t = Done (child, t') →
  wf_tree t' ∧ heap_closed t'.
Proof.
  intros [Hnd Hwf] Hclosed. unfold addChild, deref.
  destruct (heap t !! this) as [n|] eqn:Hthis; [|done]. simpl.
  set (r := fresh (dom (heap t))). intros [= <- <-].
  assert (heap t !! r = None) as Hr.
  { apply not_elem_of_dom. apply is_fresh. }
  assert (this ≠ r) as Hne by congruence.
  assert (r ∉ nodes t) as Hrn.
  { intros Hin. rewrite Forall_forall in Hwf. specialize (Hwf r Hin).
    apply wf_node_spec in Hwf as (m & Hm & _). congruence. }
  set (newnode := mkNode [] [] [] (length (nodes t)) (Some this)).
  set (h' := alter (set_children (Array.add r)) this (<[r:=newnode]> (heap t))).
  assert (h' !! r = Some newnode) as Hh'r.
  { unfold h'. rewrite lookup_alter_ne by done. apply lookup_insert_eq. }
  assert (∀ x m, heap t !! x = Some m →
            ∃ m', h' !! x = Some m' ∧ index m' = index m ∧ parent m' = parent m)
    as Hold.
  { intros x m Hm. assert (x ≠ r) by congruence. unfold h'.
    destruct (decide (x = this)) as [->|Hx].
    - rewrite lookup_alter_eq, lookup_insert_ne, Hm by done. simpl. eauto.
    - rewrite lookup_alter_ne, lookup_insert_ne by done. eauto. }
  assert (∀ x m, heap t !! x = Some m → nodes t !! index m = Some x →
            (nodes t ++ [r]) !! index m = Some x) as Hpos.
  { intros x m _ H. by apply lookup_app_l_Some. }
  split; [split|]; simpl.
  - unfold Array.add. apply NoDup_app. split_and!; [done| |apply NoDup_singleton].
    intros x Hx ->%list_elem_of_singleton. done.
  - unfold Array.add. apply Forall_app. split.
    + rewrite Forall_forall in Hwf |- *. intros x Hx.
      destruct (proj1 (wf_node_spec t x) (Hwf x Hx)) as (m & Hm & Hi & Hroot & Hpar).
      apply wf_node_spec. simpl.
      destruct (Hold x m Hm) as (m' & Hm' & Ei & Ep).
      exists m'. rewrite Ei, Ep. split_and!; [done|by eapply Hpos|done|].
      intros p Hp. destruct (Hpar p Hp) as (pn & Hpn & Hpi & Hlt).
      destruct (Hold p pn Hpn) as (pn' & Hpn' & Epi & _).
      exists pn'. rewrite Epi. split_and!; [done|by eapply Hpos|done].
    + constructor; [|constructor]. apply wf_node_spec. simpl.
      exists newnode. split_and!; [done| |done|].
      * simpl. rewrite lookup_app_r by done. by rewrite Nat.sub_diag.
      * intros p [= <-]. simpl.
        assert (this ∈ nodes t) as Hin by (apply Hclosed; eauto).
        rewrite Forall_forall in Hwf.
        destruct (proj1 (wf_node_spec t this) (Hwf this Hin)) as (m & Hm & Hi & _).
        assert (m = n) as -> by congruence.
        destruct (Hold this n Hthis) as (n' & Hn' & Ei & _).
        exists n'. rewrite Ei. split_and!; [done|by eapply Hpos|].
        by eapply lookup_lt_Some.
  - intros x [m Hm]. simpl in Hm. fold h' in Hm. unfold Array.add.
    destruct (decide (x = r)) as [->|Hx]; [set_solver|].
    apply elem_of_app. left. apply Hclosed.
    unfold h' in Hm. destruct (decide (x = this)) as [->|Hxt]; [eauto|].
    rewrite lookup_alter_ne, lookup_insert_ne in Hm by done. eauto.
Qed.

(** The table invariants give the three properties of the heap-ordering
    statement. *)
Lemma wf_tree_invariants (t : Tree) :
  wf_tree t → heap_ordered t ∧ parents_in_table t ∧ indices_contiguous t.
Proof.
  intros [Hnd Hwf]. rewrite Forall_forall in Hwf.
  assert (∀ c p, c ∈ nodes t → parent_of t c = Some p →
            ∃ n pn, heap t !! c = Some n ∧ heap t !! p = Some pn ∧
                    nodes t !! index pn = Some p ∧ index pn < index n) as Hpar.
  { intros c p Hc Hp.
    destruct (proj1 (wf_node_spec t c) (Hwf c Hc)) as (n & Hn & _ & _ & Hparent).
    unfold parent_of in Hp. rewrite Hn in Hp. simpl in Hp.
    destruct (Hparent p Hp) as (pn & ? & ? & ?). eauto 10. }
  split_and!.
  - intros c p Hc Hp. destruct (Hpar c p Hc Hp) as (n & pn & Hn & Hpn & _ & Hlt).
    exists (index pn), (index n). unfold index_of. by rewrite Hn, Hpn.
  - intros c p Hc Hp. destruct (Hpar c p Hc Hp) as (n & pn & _ & _ & Hpos & _).
    apply list_elem_of_lookup. eauto.
  - intros i r Hi.
    assert (r ∈ nodes t) as Hr by (apply list_elem_of_lookup; eauto).
    destruct (proj1 (wf_node_spec t r) (Hwf r Hr)) as (n & Hn & Hpos & _).
    unfold index_of. rewrite Hn. simpl. f_equal.
    by eapply NoDup_lookup.
Qed.

(** From a fresh tree, any number of [addChild] keeps the table invariants. *)
Lemma addChild_only_wf (fuel : nat) (ops : list op) :
  Forall (λ o, ∃ this, o = OpAddChild this) ops →
  ∀ t t', wf_tree t → heap_closed t →
    run_ops fuel ops t = Some (Done t') → wf_tree t' ∧ heap_closed t'.
Proof.
  induction 1 as [|o ops [this ->] _ IH]; intros t t' Hwf Hcl; simpl.
  - by intros [= <-].
  - destruct (addChild this t) as [[c t1]| | |] eqn:E; try done.
    destruct (addChild_wf t t1 this c Hwf Hcl E) as [Hwf1 Hcl1].
    by apply IH.
Qed.

Lemma addChild_only_invariants (fuel : nat) (ops : list op) (t' : Tree) :
  Forall (λ o, ∃ this, o = OpAddChild this) ops →
  run_ops fuel ops clear = Some (Done t') →
  heap_ordered t' ∧ parents_in_table t' ∧ indices_contiguous t'.
Proof.
  intros Hops Hrun. apply wf_tree_invariants.
  destruct clear_wf as [Hwf Hcl].
  by destruct (addChild_only_wf fuel ops Hops clear t' Hwf Hcl Hrun).
Qed.

End addChild_facts.

(** Shape of the two concrete trees. *)
Lemma family_shape :
  Tree.nodes Scenario.family = [0; 1; 2; 3] ∧
  Tree.root Scenario.family = 0 ∧
  Tree.children <$> Tree.heap Scenario.family !! 0 = Some [1] ∧
  Tree.children <$> Tree.heap Scenario.family !! 1 = Some [2; 3] ∧
  Tree.parent_of Scenario.family 1 = Some 0 ∧
  Tree.parent_of Scenario.family 2 = Some 1 ∧
  Tree.parent_of Scenario.family 3 = Some 1.
Proof. vm_compute. repeat split. Qed.

Lemma sample_shape :
  Tree.root Scenario.sample = 0 ∧
  Tree.children <$> Tree.heap Scenario.sample !! 0 = Some [1; 2] ∧
  Tree.children <$> Tree.heap Scenario.sample !! 1 = Some [3; 4] ∧
  Tree.children <$> Tree.heap Scenario.sample !! 2 = Some [5] ∧
  Tree.children <$> Tree.heap Scenario.sample !! 3 = Some [] ∧
  Tree.children <$> Tree.heap Scenario.sample !! 4 = Some [] ∧
  Tree.children <$> Tree.heap Scenario.sample !! 5 = Some [] ∧
  (∀ i, i < 6 → Tree.index_of Scenario.sample i = Some i).
Proof.
  split_and!; try (vm_compute; reflexivity).
  intros i Hi. do 6 (destruct i as [|i]; [vm_compute; reflexivity|]). lia.
Qed.

(** What is observed of a tree in the statements below. *)
Lemma observe_tree (t t' : Tree.Tree) :
  t = t' →
  Tree.nodes t = Tree.nodes t' ∧
  (∀ r, Tree.parent_of t r = Tree.parent_of t' r) ∧
  (∀ r, Tree.index_of t r = Tree.index_of t' r) ∧
  (∀ r, Tree.children <$> Tree.heap t !! r = Tree.children <$> Tree.heap t' !! r).
Proof. by intros ->. Qed.

(** Evaluates the run in [E : run = Done t']: either it did not return, or
    the tree it returned is observed. *)
Ltac evaluate_run E :=
  vm_compute in E;
  first
    [ discriminate E
    | let Hp := fresh in
      let Hi := fresh in
      let Hc := fresh in
      injection E as E;
      apply observe_tree in E as (<- & Hp & Hi & Hc);
      rewrite <-!Hp, <-!Hi, <-!Hc; vm_compute; repeat split ].

(** [removeChild(root, c)] on the family tree, for every step budget on
    which it returns. *)
Lemma family_removeChild (fuel : nat) (t' : Tree.Tree) :
  Tree.removeChild fuel 0 1 Scenario.family = Done t' →
  Tree.nodes t' = [0; 3] ∧
  Tree.parent_of t' 3 = Some 1 ∧
  Tree.children <$> Tree.heap t' !! 1 = Some [3] ∧
  Tree.index_of t' 0 = Some 0 ∧ Tree.index_of t' 1 = Some 1 ∧
  Tree.index_of t' 3 = Some 1.
Proof.
  intros E.
  do 6 (destruct fuel as [|fuel]; [evaluate_run E|]).
  evaluate_run E.
Qed.

Lemma family_removeChild_returns :
  ∃ t', Tree.removeChild 10 0 1 Scenario.family = Done t'.
Proof.
  destruct (Tree.removeChild 10 0 1 Scenario.family) as [t'| | |] eqn:E;
    try (vm_compute in E; discriminate E).
  by exists t'.
Qed.

(** C1 (the code departs from the claim).  In the tree root = 0, c = 1 child
    of the root, g1 = 2 and g2 = 3 children of c, [removeChild(root, c)]
    returns, and whenever it returns g2, a descendant of c, is still in
    [tree.nodes]: the loop of [clearChildren] removes g1, which shifts g2 to
    position 0 of [c.children], and then stops because [i = 1] is no longer
    below the length.  What is left of the table is renumbered 0, 1. *)
Theorem removeChild_keeps_second_grandchild :
  Tree.is_child Scenario.family 0 1 = true ∧
  Tree.descendant Scenario.family 3 1 ∧
  (∃ t', Tree.removeChild 10 0 1 Scenario.family = Done t') ∧
  ∀ fuel t', Tree.removeChild fuel 0 1 Scenario.family = Done t' →
    Tree.nodes t' = [0; 3] ∧
    3 ∈ Tree.nodes t' ∧
    Tree.parent_of t' 3 = Some 1 ∧
    Tree.children <$> Tree.heap t' !! 1 = Some [3] ∧
    Tree.index_of t' 0 = Some 0 ∧ Tree.index_of t' 3 = Some 1.
Proof.
  split; [by vm_compute|]. split.
  { unfold Tree.descendant, Tree.ancestor. eapply rtc_l; [|apply rtc_refl].
    by vm_compute. }
  split; [exact family_removeChild_returns|].
  intros fuel t' E.
  destruct (family_removeChild fuel t' E) as (Hn & Hp & Hc & Hi0 & Hi1 & Hi3).
  split_and!; try done.
  rewrite Hn. apply list_elem_of_In. simpl. tauto.
Qed.

(** C2 (the code departs from the claim).  Three [addChild] and one
    [removeChild] of an actual child, from a fresh tree, reach a table
    [root, g2] in which g2's parent c is not in the table and has the same
    index 1 as g2; only the contiguity of the indices survives. *)
Theorem heap_ordering_lost_after_removeChild :
  (∃ t', Tree.run_ops 10 [Tree.OpAddChild 0; Tree.OpAddChild 1; Tree.OpAddChild 1;
                          Tree.OpRemoveChild 0 1] Tree.clear = Some (Done t')) ∧
  ∀ fuel t',
    Tree.run_ops fuel [Tree.OpAddChild 0; Tree.OpAddChild 1; Tree.OpAddChild 1;
                       Tree.OpRemoveChild 0 1] Tree.clear = Some (Done t') →
    ¬ Tree.heap_ordered t' ∧
    ¬ Tree.parents_in_table t' ∧
    Tree.indices_contiguous t' ∧
    ¬ Tree.wf_tree t'.
Proof.
  assert (∀ fuel,
            Tree.run_ops fuel [Tree.OpAddChild 0; Tree.OpAddChild 1; Tree.OpAddChild 1;
                               Tree.OpRemoveChild 0 1] Tree.clear
            = Some (Tree.removeChild fuel 0 1 Scenario.family)) as Hrun.
  { intros fuel.
    change (Tree.run_ops fuel [Tree.OpRemoveChild 0 1] Scenario.family
            = Some (Tree.removeChild fuel 0 1 Scenario.family)).
    cbn [Tree.run_ops].
    replace (Tree.is_child Scenario.family 0 1) with true by (by vm_compute).
    by destruct (Tree.removeChild fuel 0 1 Scenario.family). }
  split.
  { destruct family_removeChild_returns as [t' E]. exists t'. by rewrite Hrun, E. }
  intros fuel t' E. rewrite Hrun in E. injection E as E.
  destruct (family_removeChild fuel t' E) as (Hn & Hp & Hc & Hi0 & Hi1 & Hi3).
  clear E Hrun.
  assert (3 ∈ Tree.nodes t') as H3.
  { rewrite Hn. apply list_elem_of_In. simpl. tauto. }
  assert (¬ Tree.parents_in_table t') as Hnp.
  { intros H. specialize (H 3 1 H3 Hp). rewrite Hn in H.
    apply elem_of_cons in H as [?|H]; [done|].
    apply list_elem_of_singleton in H. done. }
  split_and!.
  - intros H. destruct (H 3 1 H3 Hp) as (ip & ic & ? & ? & ?).
    assert (ip = 1) by congruence. assert (ic = 1) by congruence. lia.
  - done.
  - intros i r. rewrite Hn. intros Hr.
    destruct i as [|[|i]]; simpl in Hr; [congruence..|done].
  - intros [_ Hwf]. rewrite Forall_forall in Hwf. specialize (Hwf 3 H3).
    unfold Tree.wf_node in Hwf. unfold Tree.parent_of in Hp.
    unfold Tree.index_of in Hi1, Hi3.
    destruct (Tree.heap t' !! (3 : Tree.ref)) as [n3|]; [|done]. simpl in Hp, Hi3.
    rewrite Hp in Hwf. destruct Hwf as [_ Hwf].
    destruct (Tree.heap t' !! (1 : Tree.ref)) as [n1|]; [|done]. simpl in Hi1.
    destruct Hwf as [_ Hlt]. simplify_eq. lia.
Qed.

(** C4.  In the sample tree (root 0, A 1, B 2, leaf1 3, leaf2 4, leaf3 5) and
    with the default [transformPoint], [_spline(3, 5)] finds the root as the
    least common ancestor and hands to the spline, before [straighten], the
    control points [position(leaf1), position(A), position(root),
    position(B), position(leaf3)] in this order, whatever the layout. *)
Theorem spline_points_leaf1_leaf3 (position : nat → option Vector) (fuel : nat) :
  2 ≤ fuel →
  let router := BundledEdgeRouter.new Scenario.sample position in
  Tree.leastCommonAncestor fuel (Tree.nodes Scenario.sample !! 3)
      (Tree.nodes Scenario.sample !! 5) Scenario.sample
    = Done (Some (Tree.root Scenario.sample)) ∧
  BundledEdgeRouter._spline_points fuel router 3 5
    = Done [position 3; position 1; position 0; position 2; position 5].
Proof.
  intros Hfuel. do 2 (destruct fuel as [|fuel]; [lia|]).
  unfold BundledEdgeRouter.new. generalize 0.85%R. intros beta.
  destruct fuel as [|fuel]; split; vm_compute; reflexivity.
Qed.

Lemma spline_points_leaf1_leaf3_witness :
  Tree.leastCommonAncestor 6 (Tree.nodes Scenario.sample !! 3)
      (Tree.nodes Scenario.sample !! 5) Scenario.sample
    = Done (Some (Tree.root Scenario.sample)) ∧
  BundledEdgeRouter._spline_points 6
      (BundledEdgeRouter.new Scenario.sample Scenario.row_layout) 3 5
    = Done [Scenario.row_layout 3; Scenario.row_layout 1; Scenario.row_layout 0;
            Scenario.row_layout 2; Scenario.row_layout 5].
Proof.
  apply (spline_points_leaf1_leaf3 Scenario.row_layout 6). lia.
Defined.

(** * Properties of the geometry *)

Section line_facts.
Local Open Scope R_scope.

(** Two vectors orthogonal to a common non-zero vector have a zero cross
    product. *)
Lemma cross_of_orthogonal (A B u1 u2 v1 v2 : R) :
  A ≠ 0 ∨ B ≠ 0 → A * u1 + B * u2 = 0 → A * v1 + B * v2 = 0 →
  u1 * v2 - u2 * v1 = 0.
Proof.
  intros Hne Hu Hv.
  assert (A * (u1 * v2 - u2 * v1) = 0) as HA.
  { replace (A * (u1 * v2 - u2 * v1))
      with ((A * u1 + B * u2) * v2 - u2 * (A * v1 + B * v2)) by ring.
    rewrite Hu, Hv. ring. }
  assert (B * (u1 * v2 - u2 * v1) = 0) as HB.
  { replace (B * (u1 * v2 - u2 * v1))
      with (u1 * (A * v1 + B * v2) - (A * u1 + B * u2) * v1) by ring.
    rewrite Hu, Hv. ring. }
  destruct Hne as [Hne|Hne].
  - apply Rmult_integral in HA as [?|?]; [done|done].
  - apply Rmult_integral in HB as [?|?]; [done|done].
Qed.

End line_facts.



Section spline_facts.
Import BasisSpline Chord.
Local Open Scope R_scope.

Lemma vector_eq (p q : Vector) :
  Vector.x p = Vector.x q → Vector.y p = Vector.y q → p = q.
Proof. destruct p, q. simpl. by intros -> ->. Qed.

(** What the loop of [straighten] does to the array: entries [i], ...,
    [i + cnt - 1] are blended, every other entry is left as it was. *)
Lemma straighten_loop_spec (cnt : nat) :
  ∀ (i : nat) (beta dx dy : R) (e : nat) (z : list Vector),
    (0 < i)%nat → (i + cnt ≤ length z)%nat →
    ∃ z', straighten_loop cnt i beta dx dy e z = Done z' ∧
          length z' = length z ∧
          (∀ j, (j < i ∨ i + cnt ≤ j)%nat → z' !! j = z !! j) ∧
          (∀ j p z0, (i ≤ j < i + cnt)%nat → z !! j = Some p → z !! 0%nat = Some z0 →
             z' !! j = Some (Vector.mk
               (beta * Vector.x p + (1 - beta) * (Vector.x z0 + INR j * dx / INR e))
               (beta * Vector.y p + (1 - beta) * (Vector.y z0 + INR j * dy / INR e)))).
Proof.
  induction cnt as [|cnt IH]; intros i beta dx dy e z Hi Hlen.
  - exists z. split_and!; [done..|]. intros j p z0 Hj. lia.
  - simpl.
    destruct (lookup_lt_is_Some_2 z i ltac:(lia)) as [p Hp].
    destruct (lookup_lt_is_Some_2 z 0%nat ltac:(lia)) as [z0 Hz0].
    rewrite Hp, Hz0.
    set (p' := Vector.mk _ _).
    destruct (IH (S i) beta dx dy e (<[i:=p']> z) ltac:(lia))
      as (z' & Hrun & Hlen' & Hout & Hin).
    { rewrite length_insert. lia. }
    exists z'. rewrite length_insert in Hlen'. split_and!; [done..| |].
    + intros j Hj. rewrite Hout by lia. apply list_lookup_insert_ne. lia.
    + intros j q q0 Hj Hq Hq0.
      destruct (decide (j = i)) as [->|Hne].
      * rewrite Hout by lia. rewrite list_lookup_insert_eq by lia.
        by simplify_eq.
      * apply Hin; [lia| |].
        -- by rewrite list_lookup_insert_ne by lia.
        -- rewrite list_lookup_insert_ne by lia. congruence.
Qed.

End spline_facts.



(** C9.  [segments()] of a spline with no control point is empty, with one
    control point it is one move, with two a move and a line.  For a
    self-loop [i == j] whose transformed position is a point [v], [_spline]
    builds the one-point control sequence [[v]]; [straighten] and
    [segments()] on it return normally, and the segments are the single
    move to [v]. *)
Theorem spline_degenerate_cases (fuel : nat) (router : BundledEdgeRouter.t)
    (i : nat) (v : Vector) :
  BundledEdgeRouter.transformPoint router (BundledEdgeRouter.position router i) = Some v →
  (BasisSpline.segments (BasisSpline.mk [] None)).1 = [] ∧
  (∀ p, (BasisSpline.segments (BasisSpline.mk [p] None)).1 = [SEG_MOVE p]) ∧
  (∀ p q, (BasisSpline.segments (BasisSpline.mk [p; q] None)).1 = [SEG_MOVE p; SEG_LINE q]) ∧
  BundledEdgeRouter._spline_points fuel router i i = Done [Some v] ∧
  ∃ s, BundledEdgeRouter._spline fuel router i i
         = Done (BundledEdgeRouter.mkTagged s i i) ∧
       BasisSpline.points s = [v] ∧
       (BasisSpline.segments s).1 = [SEG_MOVE v].
Proof.
  intros Hv.
  assert (BundledEdgeRouter._spline_points fuel router i i = Done [Some v]) as Hpts.
  { unfold BundledEdgeRouter._spline_points, Tree.leastCommonAncestor.
    rewrite decide_True by done. simpl. rewrite Hv.
    destruct fuel; simpl; rewrite decide_True by done; simpl;
      by rewrite decide_True by done. }
  split_and!.
  - reflexivity.
  - intros [px py]. reflexivity.
  - intros [px py] [qx qy]. reflexivity.
  - exact Hpts.
  - unfold BundledEdgeRouter._spline. rewrite Hpts. simpl.
    eexists. split; [reflexivity|]. split; [reflexivity|].
    destruct v as [vx vy]. reflexivity.
Qed.

Lemma spline_degenerate_cases_witness :
  (BasisSpline.segments (BasisSpline.mk [] None)).1 = [] ∧
  (∀ p, (BasisSpline.segments (BasisSpline.mk [p] None)).1 = [SEG_MOVE p]) ∧
  (∀ p q, (BasisSpline.segments (BasisSpline.mk [p; q] None)).1 = [SEG_MOVE p; SEG_LINE q]) ∧
  BundledEdgeRouter._spline_points 6
      (BundledEdgeRouter.new Scenario.sample Scenario.row_layout) 3 3
    = Done [Some (Vector.mk (INR 3) 0)] ∧
  ∃ s, BundledEdgeRouter._spline 6
         (BundledEdgeRouter.new Scenario.sample Scenario.row_layout) 3 3
         = Done (BundledEdgeRouter.mkTagged s 3 3) ∧
       BasisSpline.points s = [Vector.mk (INR 3) 0] ∧
       (BasisSpline.segments s).1 = [SEG_MOVE (Vector.mk (INR 3) 0)].
Proof.
  apply (spline_degenerate_cases 6
           (BundledEdgeRouter.new Scenario.sample Scenario.row_layout) 3
           (Vector.mk (INR 3) 0)).
  reflexivity.
Defined.

Section flatten_facts.
Import Path Flatten Subdivision.
Local Open Scope R_scope.

(** The rows of [_bezierLeft] and [_bezierRight] compute the repeated
    midpoints. *)
Lemma bezierLeft_1 a b c d : _weightCurve (row _bezierLeft 1) a b c d = left_b a b c d.
Proof. apply vector_eq; unfold left_b, mid, _weightCurve, weight; simpl; lra. Qed.

Lemma bezierLeft_2 a b c d : _weightCurve (row _bezierLeft 2) a b c d = left_c a b c d.
Proof. apply vector_eq; unfold left_c, mid, _weightCurve, weight; simpl; lra. Qed.

Lemma bezierLeft_3 a b c d : _weightCurve (row _bezierLeft 3) a b c d = split_point a b c d.
Proof.
  apply vector_eq;
    unfold split_point, left_c, right_b, mid, _weightCurve, weight; simpl; lra.
Qed.

Lemma bezierRight_1 a b c d : _weightCurve (row _bezierRight 1) a b c d = right_b a b c d.
Proof. apply vector_eq; unfold right_b, mid, _weightCurve, weight; simpl; lra. Qed.

Lemma bezierRight_2 a b c d : _weightCurve (row _bezierRight 2) a b c d = right_c a b c d.
Proof. apply vector_eq; unfold right_c, mid, _weightCurve, weight; simpl; lra. Qed.

(** The two halves are the curve itself over [0, 1/2] and over [1/2, 1]. *)
Lemma left_half_curve a b c d u :
  bezier a (left_b a b c d) (left_c a b c d) (split_point a b c d) u
  = bezier a b c d (u / 2).
Proof.
  apply vector_eq;
    unfold bezier, split_point, left_b, left_c, right_b, mid; simpl; field.
Qed.

Lemma right_half_curve a b c d u :
  bezier (split_point a b c d) (right_b a b c d) (right_c a b c d) d u
  = bezier a b c d ((1 + u) / 2).
Proof.
  apply vector_eq;
    unfold bezier, split_point, right_b, right_c, left_c, mid; simpl; field.
Qed.

Lemma flat_enough_within flatness a b c d :
  flat_enough flatness a b c d = true ↔ within flatness a d b ∧ within flatness a d c.
Proof.
  unfold flat_enough, within. rewrite andb_true_iff, !bool_decide_eq_true. done.
Qed.

Lemma addCurve_0 flatness a b c d that :
  addCurve 0 flatness a b c d that
  = if flat_enough flatness a b c d
    then Done (lineTo (Vector.x d) (Vector.y d) that) else OutOfFuel.
Proof. reflexivity. Qed.

Lemma addCurve_S fuel flatness a b c d that :
  addCurve (S fuel) flatness a b c d that
  = if flat_enough flatness a b c d
    then Done (lineTo (Vector.x d) (Vector.y d) that)
    else that1 ← addCurve fuel flatness a (left_b a b c d) (left_c a b c d)
                   (split_point a b c d) that;
         addCurve fuel flatness (split_point a b c d) (right_b a b c d)
           (right_c a b c d) d that1.
Proof.
  cbn [addCurve]. by rewrite bezierLeft_1, bezierLeft_2, bezierLeft_3,
    bezierRight_1, bezierRight_2.
Qed.

Lemma lineTo_point d that :
  lineTo (Vector.x d) (Vector.y d) that = that ++ [SEG_LINE d].
Proof. by destruct d. Qed.

Lemma addCurve_sound flatness fuel :
  ∀ a b c d that out,
    addCurve fuel flatness a b c d that = Done out →
    ∃ lines, out = that ++ lines ∧ subdivides flatness a b c d lines.
Proof.
  induction fuel as [|fuel IH]; intros a b c d that out.
  - rewrite addCurve_0.
    destruct (flat_enough flatness a b c d) eqn:E; [|done].
    intros [= <-]. apply flat_enough_within in E as [? ?].
    exists [SEG_LINE d]. split; [apply lineTo_point|by constructor].
  - rewrite addCurve_S.
    destruct (flat_enough flatness a b c d) eqn:E.
    + intros [= <-]. apply flat_enough_within in E as [? ?].
      exists [SEG_LINE d]. split; [apply lineTo_point|by constructor].
    + destruct (addCurve fuel flatness a _ _ _ that) as [that1| | |] eqn:E1;
        simpl; try done.
      intros E2.
      apply IH in E1 as (l & -> & Hl). apply IH in E2 as (r & -> & Hr).
      exists (l ++ r). split; [by rewrite app_assoc|].
      apply subdivides_split; [|done..].
      rewrite <-flat_enough_within, E. done.
Qed.

Lemma addCurve_complete flatness a b c d lines :
  subdivides flatness a b c d lines →
  ∃ fuel, ∀ fuel' that, (fuel ≤ fuel')%nat →
    addCurve fuel' flatness a b c d that = Done (that ++ lines).
Proof.
  induction 1 as [a b c d Hb Hc|a b c d l r Hn _ [fl IHl] _ [fr IHr]].
  - exists 0%nat. intros fuel' that _.
    assert (flat_enough flatness a b c d = true) as E by (by apply flat_enough_within).
    destruct fuel'; [rewrite addCurve_0|rewrite addCurve_S];
      rewrite E; by rewrite lineTo_point.
  - exists (S (fl `max` fr)). intros fuel' that Hfuel.
    destruct fuel' as [|fuel']; [lia|].
    assert (flat_enough flatness a b c d = false) as E.
    { apply not_true_is_false. by rewrite flat_enough_within. }
    rewrite addCurve_S, E, IHl by lia. simpl.
    rewrite IHr by lia. by rewrite app_assoc.
Qed.

Lemma subdivides_lines flatness a b c d lines :
  subdivides flatness a b c d lines → flat lines = true.
Proof.
  induction 1; [done|]. unfold flat in *. rewrite forallb_app. by apply andb_true_iff.
Qed.

Lemma flatten_loop_sound flatness fuel segments :
  ∀ prev that out,
    flatten_loop fuel flatness prev segments that = Done out →
    ∃ res, out = that ++ res ∧ flattens flatness prev segments res.
Proof.
  induction segments as [|s rest IH]; intros prev that out; simpl.
  - intros [= <-]. exists []. split; [by rewrite app_nil_r|constructor].
  - destruct s as [p|p|p cp1 cp2]; simpl.
    + intros (res & -> & Hres)%IH. exists (SEG_MOVE p :: res).
      split; [unfold Array.add; by rewrite <-app_assoc|by constructor].
    + intros (res & -> & Hres)%IH. exists (SEG_LINE p :: res).
      split; [unfold Array.add; by rewrite <-app_assoc|by constructor].
    + destruct prev as [ps|]; [|done].
      destruct (addCurve fuel flatness (point0 ps) cp1 cp2 p that) as [that'| | |] eqn:E;
        simpl; try done.
      apply addCurve_sound in E as (lines & -> & Hlines).
      intros (res & -> & Hres)%IH. exists (lines ++ res).
      split; [by rewrite app_assoc|by constructor].
Qed.

Lemma flatten_loop_complete flatness prev segments res :
  flattens flatness prev segments res →
  ∃ fuel, ∀ fuel' that, (fuel ≤ fuel')%nat →
    flatten_loop fuel' flatness prev segments that = Done (that ++ res).
Proof.
  induction 1 as [prev|prev s rest out Hs _ [f IH]|ps p cp1 cp2 rest lines out Hl _ [f IH]].
  - exists 0%nat. intros fuel' that _. simpl. by rewrite app_nil_r.
  - exists f. intros fuel' that Hfuel.
    destruct s; [| |done]; simpl; rewrite IH by lia;
      unfold Array.add; by rewrite <-app_assoc.
  - destruct (addCurve_complete _ _ _ _ _ _ Hl) as [fc Hc].
    exists (f `max` fc). intros fuel' that Hfuel. simpl.
    rewrite Hc by lia. simpl. rewrite IH by lia. by rewrite app_assoc.
Qed.

Lemma flattens_flat flatness prev segments res :
  flattens flatness prev segments res → flat res = true.
Proof.
  induction 1 as [|prev s rest out Hs _ IH|ps p cp1 cp2 rest lines out Hl _ IH].
  - done.
  - unfold flat in *. simpl. by rewrite Hs, IH.
  - unfold flat in *. rewrite forallb_app. apply andb_true_iff. split; [|done].
    by apply (subdivides_lines _ _ _ _ _ _ Hl).
Qed.

End flatten_facts.



(** C7.  When [flatten] returns on a path, the returned path has no Bezier
    segment, and flattening it again, with any flatness and any step budget,
    returns it unchanged. *)
Theorem flatten_idempotent (fuel : nat) (flatness : option R) (p p' : Path.Path) :
  Flatten.flatten fuel flatness p = Done p' →
  Path.flat p' = true ∧
  ∀ fuel' flatness', Flatten.flatten fuel' flatness' p' = Done p'.
Proof.
  intros Hrun.
  assert (Path.flat p' = true) as Hflat.
  { unfold Flatten.flatten in Hrun. destruct (Path.flat p) eqn:E.
    - by simplify_eq.
    - apply flatten_loop_sound in Hrun as (res & -> & Hres).
      by apply (flattens_flat _ _ _ _ Hres). }
  split; [done|]. intros fuel' flatness'. unfold Flatten.flatten. by rewrite Hflat.
Qed.

(** The same holds for a spline flattened in place. *)
Lemma spline_flatten_idempotent (fuel : nat) (flatness : option R) (s s' : BasisSpline.t) :
  BasisSpline.flatten fuel flatness s = Done s' →
  (∃ segs, BasisSpline._segments s' = Some segs ∧ Path.flat segs = true) ∧
  ∀ fuel' flatness', BasisSpline.flatten fuel' flatness' s' = Done s'.
Proof.
  unfold BasisSpline.flatten at 1. unfold BasisSpline.segments.
  intros Hrun.
  assert (∃ segs, BasisSpline._segments s' = Some segs ∧ Path.flat segs = true)
    as (segs & Hs & Hflat).
  { destruct (BasisSpline._segments s) as [cached|] eqn:Ec.
    - destruct (Path.flat cached) eqn:Ef.
      + injection Hrun as <-. eauto.
      + destruct (Flatten.flatten_loop _ _ _ _ _) as [out| | |] eqn:E; try done.
        simpl in Hrun. injection Hrun as <-.
        apply flatten_loop_sound in E as (res & -> & Hres).
        exists res. split; [done|]. by apply (flattens_flat _ _ _ _ Hres).
    - destruct (Path.flat (BasisSpline.compute_segments _)) eqn:Ef.
      + injection Hrun as <-. eauto.
      + destruct (Flatten.flatten_loop _ _ _ _ _) as [out| | |] eqn:E; try done.
        simpl in Hrun. injection Hrun as <-.
        apply flatten_loop_sound in E as (res & -> & Hres).
        exists res. split; [done|]. by apply (flattens_flat _ _ _ _ Hres). }
  split; [eauto|]. intros fuel' flatness'.
  unfold BasisSpline.flatten, BasisSpline.segments. by rewrite Hs, Hflat.
Qed.

(** [Line.distance] measures the distance to the line through the two end
    points, not to the segment between them: the point (5, 0) is at
    distance 0 from the line (0,0)-(1,0). *)
Lemma distance_to_the_whole_line : Line.distance (Line.mk 0 0 1 0) 5 0 = 0%R.
Proof.
  unfold Line.distance. simpl.
  rewrite bool_decide_eq_false_2 by lra. simpl.
  replace ((1 - 0) * (0 - 0) - (0 - 0) * (0 - 5))%R with 0%R by ring.
  rewrite Rabs_R0. unfold Rdiv. by rewrite Rmult_0_l.
Qed.

(** The controls of [straight_curve] are on its chord: one line replaces it. *)
Lemma straight_curve_flat_enough :
  Flatten.flat_enough 1 (Vector.mk 0 0) (Vector.mk 1 0) (Vector.mk 2 0) (Vector.mk 3 0)
  = true.
Proof.
  apply flat_enough_within.
  assert (∀ px : R,
            Subdivision.within 1 (Vector.mk 0 0) (Vector.mk 3 0) (Vector.mk px 0)) as H.
  { intros px. unfold Subdivision.within, Line.distance. simpl.
    rewrite bool_decide_eq_false_2 by lra. simpl.
    replace ((3 - 0) * (0 - 0) - (0 - 0) * (0 - px))%R with 0%R by ring.
    rewrite Rabs_R0. unfold Rdiv. rewrite Rmult_0_l. lra. }
  split; apply H.
Qed.

Lemma straight_curve_flatten :
  Flatten.flatten 0 None Scenario.straight_curve
  = Done [SEG_MOVE (Vector.mk 0 0); SEG_LINE (Vector.mk 3 0)].
Proof.
  unfold Flatten.flatten, Scenario.straight_curve. simpl.
  by rewrite straight_curve_flat_enough.
Qed.

Lemma flatten_idempotent_witness :
  Path.flat [SEG_MOVE (Vector.mk 0 0); SEG_LINE (Vector.mk 3 0)] = true ∧
  ∀ fuel' flatness',
    Flatten.flatten fuel' flatness' [SEG_MOVE (Vector.mk 0 0); SEG_LINE (Vector.mk 3 0)]
    = Done [SEG_MOVE (Vector.mk 0 0); SEG_LINE (Vector.mk 3 0)].
Proof.
  apply (flatten_idempotent 0 None Scenario.straight_curve).
  exact straight_curve_flatten.
Defined.

(** * Properties of the layout *)

Section layout_facts.
Import Tree CircleLayout.

Lemma sample_deref :
  deref 0 Scenario.sample = Done (mkNode [] [] [1; 2] 0 None) ∧
  deref 1 Scenario.sample = Done (mkNode [] [] [3; 4] 1 (Some 0)) ∧
  deref 2 Scenario.sample = Done (mkNode [] [] [5] 2 (Some 0)) ∧
  deref 3 Scenario.sample = Done (mkNode [] [] [] 3 (Some 1)) ∧
  deref 4 Scenario.sample = Done (mkNode [] [] [] 4 (Some 1)) ∧
  deref 5 Scenario.sample = Done (mkNode [] [] [] 5 (Some 2)).
Proof. vm_compute. repeat split. Qed.

(** [count] on the sample tree: the weights and the depths. *)
Lemma sample_count (f : nat) :
  ∃ st, count (S (S (S f))) Scenario.sample 0 0 (mkCounts 0 ∅ ∅) = Done (5, st) ∧
        maxDepth st = 2 ∧
        countByNode st !! 0 = Some 5 ∧ countByNode st !! 1 = Some 3 ∧
        countByNode st !! 2 = Some 2 ∧ countByNode st !! 3 = Some 1 ∧
        countByNode st !! 4 = Some 1 ∧ countByNode st !! 5 = Some 1 ∧
        depthByNode st !! 0 = Some 0 ∧ depthByNode st !! 1 = Some 1 ∧
        depthByNode st !! 2 = Some 1 ∧ depthByNode st !! 3 = Some 2 ∧
        depthByNode st !! 4 = Some 2 ∧ depthByNode st !! 5 = Some 2.
Proof.
  eexists. split; [vm_compute; reflexivity|]. vm_compute. repeat split.
Qed.

End layout_facts.

(** C5.  On the sample tree (root 0, A 1, B 2, leaf1 3, leaf2 4, leaf3 5)
    with [startAngle = 0], [endAngle = 2π] and no comparator, [init()]
    computes the weights 1 for each leaf, 3 for A, 2 for B and 5 for the
    root; [placeAll] is called on leaf1 with the span [0, 2π/5], on leaf2
    with [2π/5, 4π/5] and on leaf3 with [6π/5, 8π/5], and [place] with the
    midpoints π/5, 3π/5 and 7π/5; the span of leaf3 is half the union of
    the spans of leaf1 and leaf2. *)
Theorem circle_layout_sample (fuel : nat) :
  3 ≤ fuel →
  CircleLayout.startAngle (CircleLayout.new Scenario.sample) = 0%R ∧
  CircleLayout.endAngle (CircleLayout.new Scenario.sample) = (2 * PI)%R ∧
  CircleLayout.sort (CircleLayout.new Scenario.sample) = None ∧
  ∃ st layout,
    CircleLayout.count fuel Scenario.sample (Tree.root Scenario.sample) 0
        (CircleLayout.mkCounts 0 ∅ ∅) = Done (5, st) ∧
    CircleLayout.countByNode st !! 0 = Some 5 ∧
    CircleLayout.countByNode st !! 1 = Some 3 ∧
    CircleLayout.countByNode st !! 2 = Some 2 ∧
    CircleLayout.countByNode st !! 3 = Some 1 ∧
    CircleLayout.countByNode st !! 4 = Some 1 ∧
    CircleLayout.countByNode st !! 5 = Some 1 ∧
    CircleLayout.init_log fuel (CircleLayout.new Scenario.sample)
      = Done (layout,
              [CircleLayout.CallPlaceAll 0 0 (2 * PI);
               CircleLayout.CallPlace 0 PI;
               CircleLayout.CallPlaceAll 1 0 (6 * PI / 5);
               CircleLayout.CallPlace 1 (3 * PI / 5);
               CircleLayout.CallPlaceAll 3 0 (2 * PI / 5);
               CircleLayout.CallPlace 3 (PI / 5);
               CircleLayout.CallPlaceAll 4 (2 * PI / 5) (4 * PI / 5);
               CircleLayout.CallPlace 4 (3 * PI / 5);
               CircleLayout.CallPlaceAll 2 (6 * PI / 5) (2 * PI);
               CircleLayout.CallPlace 2 (8 * PI / 5);
               CircleLayout.CallPlaceAll 5 (6 * PI / 5) (8 * PI / 5);
               CircleLayout.CallPlace 5 (7 * PI / 5)]%R) ∧
    (8 * PI / 5 - 6 * PI / 5 = (4 * PI / 5 - 0) / 2)%R ∧
    CircleLayout.angle layout 3 = Some (PI / 5 - PI / 2)%R ∧
    CircleLayout.angle layout 4 = Some (3 * PI / 5 - PI / 2)%R ∧
    CircleLayout.angle layout 5 = Some (7 * PI / 5 - PI / 2)%R.
Proof.
  intros Hfuel. destruct fuel as [|[|[|f]]]; try lia.
  split; [reflexivity|]. split; [reflexivity|]. split; [reflexivity|].
  destruct (sample_count f)
    as (st & Hc & Hmax & C0 & C1 & C2 & C3 & C4 & C5 & D0 & D1 & D2 & D3 & D4 & D5).
  destruct sample_deref as (N0 & N1 & N2 & N3 & N4 & N5).
  assert (Tree.root Scenario.sample = 0) as Hroot by (by vm_compute).
  exists st. eexists. rewrite Hroot.
  split; [exact Hc|]. do 6 (split; [done|]).
  unfold CircleLayout.init_log.
  cbn [CircleLayout.new CircleLayout.tree CircleLayout.startAngle CircleLayout.endAngle
       CircleLayout.startRadius CircleLayout.sort].
  rewrite Hroot, Hc. cbn [mbind outcome_bind]. rewrite Hmax.
  cbn [CircleLayout.placeAll].
  cbn [CircleLayout.new CircleLayout.tree CircleLayout.startAngle CircleLayout.endAngle
       CircleLayout.startRadius CircleLayout.sort].
  unfold CircleLayout.place.
  repeat (first [rewrite N0|rewrite N1|rewrite N2|rewrite N3|rewrite N4|rewrite N5];
    cbn [mbind outcome_bind Tree.index Tree.children CircleLayout.order
         CircleLayout.sort CircleLayout.new];
    rewrite ?D0, ?D1, ?D2, ?D3, ?D4, ?D5, ?C0, ?C1, ?C2, ?C3, ?C4, ?C5;
    cbn [mbind outcome_bind number_of]).
  cbn [app CircleLayout.positions CircleLayout.angles].
  assert (INR 5 = 5%R ∧ INR 3 = 3%R ∧ INR 2 = 2%R ∧ INR 1 = 1%R ∧ INR 0 = 0%R)
    as (I5 & I3 & I2 & I1 & I0) by (simpl; split_and!; lra).
  cbn [Nat.add]. rewrite I5, I3, I2, I1, I0.
  clear Hc N0 N1 N2 N3 N4 N5.
  split_and!.
  - f_equal. f_equal. repeat (f_equal; try lra).
  - lra.
  - unfold CircleLayout.angle. cbn [CircleLayout._angles].
    rewrite !lookup_insert_ne by lia. rewrite lookup_insert_eq. f_equal. lra.
  - unfold CircleLayout.angle. cbn [CircleLayout._angles].
    rewrite !lookup_insert_ne by lia. rewrite lookup_insert_eq. f_equal. lra.
  - unfold CircleLayout.angle. cbn [CircleLayout._angles].
    rewrite lookup_insert_eq. f_equal. lra.
Qed.

Lemma circle_layout_sample_witness :
  CircleLayout.startAngle (CircleLayout.new Scenario.sample) = 0%R ∧
  CircleLayout.endAngle (CircleLayout.new Scenario.sample) = (2 * PI)%R ∧
  CircleLayout.sort (CircleLayout.new Scenario.sample) = None ∧
  ∃ st layout,
    CircleLayout.count 6 Scenario.sample (Tree.root Scenario.sample) 0
        (CircleLayout.mkCounts 0 ∅ ∅) = Done (5, st) ∧
    CircleLayout.countByNode st !! 0 = Some 5 ∧
    CircleLayout.countByNode st !! 1 = Some 3 ∧
    CircleLayout.countByNode st !! 2 = Some 2 ∧
    CircleLayout.countByNode st !! 3 = Some 1 ∧
    CircleLayout.countByNode st !! 4 = Some 1 ∧
    CircleLayout.countByNode st !! 5 = Some 1 ∧
    CircleLayout.init_log 6 (CircleLayout.new Scenario.sample)
      = Done (layout,
              [CircleLayout.CallPlaceAll 0 0 (2 * PI);
               CircleLayout.CallPlace 0 PI;
               CircleLayout.CallPlaceAll 1 0 (6 * PI / 5);
               CircleLayout.CallPlace 1 (3 * PI / 5);
               CircleLayout.CallPlaceAll 3 0 (2 * PI / 5);
               CircleLayout.CallPlace 3 (PI / 5);
               CircleLayout.CallPlaceAll 4 (2 * PI / 5) (4 * PI / 5);
               CircleLayout.CallPlace 4 (3 * PI / 5);
               CircleLayout.CallPlaceAll 2 (6 * PI / 5) (2 * PI);
               CircleLayout.CallPlace 2 (8 * PI / 5);
               CircleLayout.CallPlaceAll 5 (6 * PI / 5) (8 * PI / 5);
               CircleLayout.CallPlace 5 (7 * PI / 5)]%R) ∧
    (8 * PI / 5 - 6 * PI / 5 = (4 * PI / 5 - 0) / 2)%R ∧
    CircleLayout.angle layout 3 = Some (PI / 5 - PI / 2)%R ∧
    CircleLayout.angle layout 4 = Some (3 * PI / 5 - PI / 2)%R ∧
    CircleLayout.angle layout 5 = Some (7 * PI / 5 - PI / 2)%R.
Proof.
  apply (circle_layout_sample 6). lia.
Defined.

(** * More properties of the line intersection test *)

Section intersect_facts.
Local Open Scope R_scope.
Import Meet Collinear.

Lemma intersect_true_iff (p1 p2 q1 q2 : Vector) :
  let d := (Vector.x p1 - Vector.x q1) * - (Vector.y q2 - Vector.y q1)
           + (Vector.y p1 - Vector.y q1) * (Vector.x q2 - Vector.x q1) in
  let f := (Vector.x q2 - Vector.x q1) * (Vector.y p1 - Vector.y p2)
           + (Vector.y q2 - Vector.y q1) * (Vector.x p2 - Vector.x p1) in
  let e := (Vector.x p1 - Vector.x q1) * (Vector.y p1 - Vector.y p2)
           + (Vector.y p1 - Vector.y q1) * (Vector.x p2 - Vector.x p1) in
  Line.intersect p1 p2 q1 q2 = true ↔
  (0 < f ∧ 0 <= d <= f ∧ 0 <= e <= f) ∨ (f <= 0 ∧ f <= d <= 0 ∧ f <= e <= 0).
Proof.
  intros d f e. unfold Line.intersect, Vector.dot, Vector.perp. simpl.
  fold d f e.
  repeat case_bool_decide; simpl; split; intros Hres; try done; try lra.
Qed.

(** The three numbers of the test when the segments meet at the parameters
    [s] and [t]: [d = s f] and [e = t f]. *)
Lemma meet_params (p1 p2 q1 q2 : Vector) (s t : R) :
  along p1 p2 s = along q1 q2 t →
  let d := (Vector.x p1 - Vector.x q1) * - (Vector.y q2 - Vector.y q1)
           + (Vector.y p1 - Vector.y q1) * (Vector.x q2 - Vector.x q1) in
  let f := (Vector.x q2 - Vector.x q1) * (Vector.y p1 - Vector.y p2)
           + (Vector.y q2 - Vector.y q1) * (Vector.x p2 - Vector.x p1) in
  let e := (Vector.x p1 - Vector.x q1) * (Vector.y p1 - Vector.y p2)
           + (Vector.y p1 - Vector.y q1) * (Vector.x p2 - Vector.x p1) in
  d = s * f ∧ e = t * f.
Proof.
  unfold along. intros [= Hx Hy]. simpl.
  set (ux := Vector.x p2 - Vector.x p1) in *. set (uy := Vector.y p2 - Vector.y p1) in *.
  set (ax := Vector.x q2 - Vector.x q1) in *. set (ay := Vector.y q2 - Vector.y q1) in *.
  assert (Vector.x p1 - Vector.x q1 = t * ax - s * ux) as -> by lra.
  assert (Vector.y p1 - Vector.y q1 = t * ay - s * uy) as -> by lra.
  replace (Vector.y p1 - Vector.y p2) with (- uy) by (unfold uy; lra).
  split; ring.
Qed.

Lemma collinear_zero (p1 p2 q1 q2 : Vector) :
  collinear4 p1 p2 q1 q2 →
  (Vector.x p1 - Vector.x q1) * - (Vector.y q2 - Vector.y q1)
    + (Vector.y p1 - Vector.y q1) * (Vector.x q2 - Vector.x q1) = 0 ∧
  (Vector.x q2 - Vector.x q1) * (Vector.y p1 - Vector.y p2)
    + (Vector.y q2 - Vector.y q1) * (Vector.x p2 - Vector.x p1) = 0 ∧
  (Vector.x p1 - Vector.x q1) * (Vector.y p1 - Vector.y p2)
    + (Vector.y p1 - Vector.y q1) * (Vector.x p2 - Vector.x p1) = 0.
Proof.
  intros (A & B & C & Hne & H1 & H2 & H3 & H4). unfold on_line in *.
  pose proof (cross_of_orthogonal A B
                (Vector.x q2 - Vector.x q1) (Vector.y q2 - Vector.y q1)
                (Vector.x p1 - Vector.x q1) (Vector.y p1 - Vector.y q1)
                Hne ltac:(lra) ltac:(lra)).
  pose proof (cross_of_orthogonal A B
                (Vector.x p2 - Vector.x p1) (Vector.y p2 - Vector.y p1)
                (Vector.x q2 - Vector.x q1) (Vector.y q2 - Vector.y q1)
                Hne ltac:(lra) ltac:(lra)).
  pose proof (cross_of_orthogonal A B
                (Vector.x p2 - Vector.x p1) (Vector.y p2 - Vector.y p1)
                (Vector.x p1 - Vector.x q1) (Vector.y p1 - Vector.y q1)
                Hne ltac:(lra) ltac:(lra)).
  split_and!; lra.
Qed.

(** A line through [o] with the non-zero normal [(A, B)]. *)
Lemma zero_collinear (p1 p2 q1 q2 : Vector) :
  (Vector.x p1 - Vector.x q1) * - (Vector.y q2 - Vector.y q1)
    + (Vector.y p1 - Vector.y q1) * (Vector.x q2 - Vector.x q1) = 0 →
  (Vector.x q2 - Vector.x q1) * (Vector.y p1 - Vector.y p2)
    + (Vector.y q2 - Vector.y q1) * (Vector.x p2 - Vector.x p1) = 0 →
  (Vector.x p1 - Vector.x q1) * (Vector.y p1 - Vector.y p2)
    + (Vector.y p1 - Vector.y q1) * (Vector.x p2 - Vector.x p1) = 0 →
  collinear4 p1 p2 q1 q2.
Proof.
  intros Hd Hf He. unfold collinear4, on_line.
  set (ax := Vector.x q2 - Vector.x q1) in *. set (ay := Vector.y q2 - Vector.y q1) in *.
  destruct (decide (ax = 0 ∧ ay = 0)) as [[Hax Hay]|Ha].
  - set (ux := Vector.x p2 - Vector.x p1). set (uy := Vector.y p2 - Vector.y p1).
    destruct (decide (ux = 0 ∧ uy = 0)) as [[Hux Huy]|Hu].
    + set (cx := Vector.x p1 - Vector.x q1). set (cy := Vector.y p1 - Vector.y q1).
      destruct (decide (cx = 0 ∧ cy = 0)) as [[Hcx Hcy]|Hc].
      * exists 1, 0, (Vector.x p1). unfold ax, ay, ux, uy, cx, cy in *.
        split_and!; [left; lra|lra..].
      * exists (- cy), cx, (- cy * Vector.x q1 + cx * Vector.y q1).
        unfold ax, ay, ux, uy, cx, cy in *.
        split_and!; [|nra..].
        destruct (decide (Vector.x p1 - Vector.x q1 = 0)); [left|right]; lra.
    + exists (- uy), ux, (- uy * Vector.x p1 + ux * Vector.y p1).
      unfold ax, ay, ux, uy in *.
      split_and!; [|nra..].
      destruct (decide (Vector.x p2 - Vector.x p1 = 0)); [left|right]; lra.
  - exists (- ay), ax, (- ay * Vector.x q1 + ax * Vector.y q1).
    unfold ax, ay in *.
    split_and!; [|nra..].
    destruct (decide (Vector.x q2 - Vector.x q1 = 0)); [left|right]; lra.
Qed.

End intersect_facts.


(** The test does not depend on which segment is given first. *)
Lemma intersect_symmetric (p1 p2 q1 q2 : Vector) :
  Line.intersect p1 p2 q1 q2 = Line.intersect q1 q2 p1 p2.
Proof.
  apply eq_true_iff_eq. rewrite !intersect_true_iff. split; intros H; nra.
Qed.

(** * More properties of ancestors *)

Section lca_more.
Import Tree Chain.

Lemma lca_loop_swap (fuel : nat) :
  ∀ la lb x y sh, lca_loop fuel la lb x y sh = lca_loop fuel lb la y x sh.
Proof.
  induction fuel as [|fuel IH]; intros la lb x y sh; simpl.
  - destruct (decide (x = y)) as [->|Hne].
    + by rewrite decide_True.
    + by rewrite decide_False by congruence.
  - destruct (decide (x = y)) as [->|Hne].
    + rewrite decide_True by done.
      destruct (Array.pop la) as [a' la'], (Array.pop lb) as [b' lb']. apply IH.
    + by rewrite decide_False by congruence.
Qed.

End lca_more.

(** X2.  [ancestors] of a table node of a well-formed tree returns, for a
    step budget of at least the table size, the list that starts with the
    node, ends with the root, and holds exactly the ancestors of the node. *)
Theorem ancestors_spec (t : Tree.Tree) (a : Tree.ref) (fuel : nat) :
  Tree.wf_tree t → a ∈ Tree.nodes t → length (Tree.nodes t) ≤ fuel →
  ∃ l, Tree.ancestors fuel a t = Done l ∧
       head l = Some a ∧ last l = Some (Tree.root t) ∧
       length l ≤ length (Tree.nodes t) ∧
       ∀ d, d ∈ l ↔ Tree.ancestor t d a.
Proof.
  intros Hwf Ha Hfuel.
  destruct (wf_chain_table t Hwf a Ha) as (l & Hl & Hlen & Hlast).
  exists l. split_and!.
  - apply ancestors_chain; [done|lia].
  - by destruct (chain_head _ _ _ Hl) as [l' ->].
  - done.
  - done.
  - intros d. split; [by apply chain_ancestor|by apply ancestor_chain].
Qed.

Lemma ancestors_spec_witness :
  ∃ l, Tree.ancestors 6 3 Scenario.sample = Done l ∧
       head l = Some 3 ∧ last l = Some (Tree.root Scenario.sample) ∧
       length l ≤ length (Tree.nodes Scenario.sample) ∧
       ∀ d, d ∈ l ↔ Tree.ancestor Scenario.sample d 3.
Proof.
  apply (ancestors_spec Scenario.sample 3 6).
  - exact sample_wf.
  - rewrite sample_nodes. set_solver.
  - rewrite sample_nodes. simpl. lia.
Defined.

Lemma lca_swap (t : Tree.Tree) (a b : option Tree.ref)
    (fuel : nat) (r : option Tree.ref) :
  Tree.leastCommonAncestor fuel a b t = Done r →
  Tree.leastCommonAncestor fuel b a t = Done r.
Proof.
  unfold Tree.leastCommonAncestor.
  destruct (decide (a = b)) as [->|Hne].
  - by rewrite decide_True.
  - rewrite (decide_False (P := b = a)) by congruence.
    destruct a as [a|]; [|done].
    destruct (Tree.ancestors fuel a t) as [la| | |]; simpl; try done.
    destruct b as [b|]; [|done].
    destruct (Tree.ancestors fuel b t) as [lb| | |]; simpl; try done.
    destruct (Array.pop la) as [x la'], (Array.pop lb) as [y lb'].
    by rewrite lca_loop_swap.
Qed.

(** Whenever [leastCommonAncestor(a, b)] returns, [leastCommonAncestor(b, a)]
    returns the same node. *)
Lemma leastCommonAncestor_comm (t : Tree.Tree) (a b : option Tree.ref)
    (fuel : nat) (r : option Tree.ref) :
  Tree.leastCommonAncestor fuel a b t = Done r →
  Tree.leastCommonAncestor fuel b a t = Done r.
Proof. apply lca_swap. Qed.

Lemma leastCommonAncestor_comm_witness :
  Tree.leastCommonAncestor 6 (Some 5) (Some 3) Scenario.sample = Done (Some 0).
Proof.
  apply (leastCommonAncestor_comm Scenario.sample (Some 3) (Some 5) 6 (Some 0)).
  vm_compute. reflexivity.
Defined.

(** X3.  In a well-formed tree the least common ancestor of a node and one
    of its ancestors is that ancestor, in either argument order. *)
Theorem leastCommonAncestor_of_ancestor (t : Tree.Tree) (a b : Tree.ref) (fuel : nat) :
  Tree.wf_tree t → a ∈ Tree.nodes t → b ∈ Tree.nodes t →
  Tree.ancestor t b a → length (Tree.nodes t) ≤ fuel →
  Tree.leastCommonAncestor fuel (Some a) (Some b) t = Done (Some b) ∧
  Tree.leastCommonAncestor fuel (Some b) (Some a) t = Done (Some b).
Proof.
  intros Hwf Ha Hb Hanc Hfuel.
  assert (Tree.leastCommonAncestor fuel (Some a) (Some b) t = Done (Some b)) as H.
  { destruct (wf_chain_table t Hwf a Ha) as (la & Hla & Hlena & _).
    unfold Tree.leastCommonAncestor.
    destruct (decide (Some a = Some b)) as [E|Hne]; [congruence|].
    pose proof (ancestor_chain _ _ _ _ Hla Hanc) as Hin.
    apply list_elem_of_split in Hin as (xs & rest & E).
    pose proof (chain_suffix _ _ _ _ _ _ Hla E) as Hlb.
    rewrite (ancestors_chain t fuel a la Hla) by lia. simpl.
    rewrite (ancestors_chain t fuel b (b :: rest) Hlb).
    2:{ subst la. rewrite length_app in Hlena. simpl in *. lia. }
    simpl.
    assert (xs ≠ []) as Hxs.
    { intros ->. destruct (chain_head _ _ _ Hla) as [l' E']. simpl in E.
      congruence. }
    pose proof (lca_loop_prefix (reverse (b :: rest)) (reverse xs) [] None fuel) as Hloop.
    rewrite <-reverse_app, <-E, app_nil_r, last_reverse in Hloop.
    rewrite !reverse_involutive in Hloop. unfold Array.pop in *. simpl in Hloop.
    apply Hloop.
    - rewrite head_reverse. simpl. intros Hl. by apply last_None in Hl.
    - rewrite length_reverse. subst la. rewrite length_app in Hlena. simpl in *. lia. }
  split; [done|]. by apply lca_swap.
Qed.

Lemma leastCommonAncestor_of_ancestor_witness :
  Tree.leastCommonAncestor 6 (Some 3) (Some 1) Scenario.sample = Done (Some 1) ∧
  Tree.leastCommonAncestor 6 (Some 1) (Some 3) Scenario.sample = Done (Some 1).
Proof.
  apply (leastCommonAncestor_of_ancestor Scenario.sample 3 1 6).
  - exact sample_wf.
  - rewrite sample_nodes. set_solver.
  - rewrite sample_nodes. set_solver.
  - unfold Tree.ancestor. eapply rtc_l; [|apply rtc_refl]. by vm_compute.
  - rewrite sample_nodes. simpl. lia.
Defined.

(** * Properties of affine transforms *)






(** * More properties of splines *)

Section spline_more.
Import Path BasisSpline.
Local Open Scope R_scope.

Lemma basisCurveTo_snoc p0 p1 p2 p3 segs :
  ∃ b1 b2 b3, _basisCurveTo p0 p1 p2 p3 segs = segs ++ [SEG_BEZIER b3 b1 b2] ∧
    b3 = _weightCurve (row _basisToBezier 3) p0 p1 p2 p3.
Proof.
  unfold _basisCurveTo, bezierCurveTo, Array.add.
  eexists _, _, _. split; [reflexivity|].
  by destruct (_weightCurve (row _basisToBezier 3) p0 p1 p2 p3).
Qed.

(** The sliding window: one Bezier per remaining control point, and the
    window ends on the last of them. *)
Lemma window_loop_spec (rest : list Vector) :
  ∀ p1 p2 p3 segs,
    ∃ q1 q2 q3 more,
      window_loop rest p1 p2 p3 segs = (q1, q2, q3, segs ++ more) ∧
      length more = length rest ∧
      Forall (λ s, is_bezier s = true) more ∧
      last (p3 :: rest) = Some q3.
Proof.
  induction rest as [|q rest IH]; intros p1 p2 p3 segs; simpl.
  - exists p1, p2, p3, []. by rewrite app_nil_r.
  - destruct (basisCurveTo_snoc p1 p2 p3 q segs) as (b1 & b2 & b3 & -> & _).
    destruct (IH p2 p3 q (segs ++ [SEG_BEZIER b3 b1 b2]))
      as (q1 & q2 & q3 & more & -> & Hlen & Hbez & Hlast).
    exists q1, q2, q3, (SEG_BEZIER b3 b1 b2 :: more).
    rewrite <-app_assoc. split_and!; [done|simpl; lia|by constructor|].
    rewrite <-Hlast. by destruct rest.
Qed.

Lemma last_window_point (p2 p3 : Vector) :
  _weightCurve (row _basisToBezier 3) p2 p3 p3 p3 = p3.
Proof. apply vector_eq; unfold _weightCurve, weight; simpl; lra. Qed.

End spline_more.



Section straighten_more.
Import Path BasisSpline Chord.
Local Open Scope R_scope.

(** [straighten] on any spline with a control point: every entry of the
    new array. *)
Lemma straighten_lookup (beta : R) (pts : list Vector) (cache : option Path)
    (P0 PN : Vector) :
  head pts = Some P0 → last pts = Some PN →
  ∃ pts',
    straighten beta (mk pts cache) = Done (mk pts' None) ∧
    length pts' = length pts ∧
    ∀ i, pts' !! i =
         (λ p, if bool_decide (0 < i < length pts - 1)%nat
               then blend beta p (on_chord P0 PN i (length pts - 1)) else p)
         <$> pts !! i.
Proof.
  intros Hhd Hlast. unfold straighten. simpl.
  destruct pts as [|z0 rest] eqn:Epts; [done|]. rewrite <-Epts in *.
  assert (z0 = P0) as -> by (subst pts; simpl in Hhd; congruence).
  assert (1 ≤ length pts)%nat as Hlen by (subst pts; simpl; lia).
  rewrite last_lookup in Hlast.
  replace (pred (length pts)) with (length pts - 1)%nat in Hlast by lia.
  rewrite Hlast.
  set (e := (length pts - 1)%nat) in *.
  destruct (straighten_loop_spec (e - 1) 1 beta
              (Vector.x PN - Vector.x P0) (Vector.y PN - Vector.y P0) e pts)
    as (z' & Hrun & Hlen' & Hout & Hin); [lia|unfold e; lia|].
  rewrite Hrun. simpl. exists z'. split_and!; [done..|].
  assert (pts !! 0%nat = Some P0) as H0 by (by rewrite <-head_lookup).
  intros i. case_bool_decide as Hi.
  - destruct (lookup_lt_is_Some_2 pts i ltac:(unfold e in Hi; lia)) as [Pi HPi].
    rewrite HPi. simpl. rewrite (Hin i Pi P0) by (done || lia). f_equal.
    unfold blend, on_chord. apply vector_eq; simpl; field;
      apply not_0_INR; unfold e in *; lia.
  - rewrite Hout by lia. by destruct (pts !! i).
Qed.

Lemma blend_blend (b1 b2 : R) (p L : Vector) :
  blend b2 (blend b1 p L) L = blend (b1 * b2) p L.
Proof. unfold blend. apply vector_eq; simpl; ring. Qed.

End straighten_more.


Section affine_spline.
Import Path BasisSpline Chord PathTransform.
Local Open Scope R_scope.

Lemma weightCurve_affine (M : AffineTransform.t) (w : list R) (p1 p2 p3 p4 : Vector) :
  weight w 0 + weight w 1 + weight w 2 + weight w 3 = 1 →
  _weightCurve w (AffineTransform.transform M p1) (AffineTransform.transform M p2)
    (AffineTransform.transform M p3) (AffineTransform.transform M p4)
  = AffineTransform.transform M (_weightCurve w p1 p2 p3 p4).
Proof.
  intros Hsum. unfold _weightCurve, AffineTransform.transform.
  apply vector_eq; simpl.
  - replace (AffineTransform.m2 M)
      with ((weight w 0 + weight w 1 + weight w 2 + weight w 3) * AffineTransform.m2 M)
      at 5 by (rewrite Hsum; ring). ring.
  - replace (AffineTransform.m5 M)
      with ((weight w 0 + weight w 1 + weight w 2 + weight w 3) * AffineTransform.m5 M)
      at 5 by (rewrite Hsum; ring). ring.
Qed.

Lemma basisToBezier_rows :
  ∀ k, (1 ≤ k ≤ 3)%nat →
    weight (row _basisToBezier k) 0 + weight (row _basisToBezier k) 1
    + weight (row _basisToBezier k) 2 + weight (row _basisToBezier k) 3 = 1.
Proof.
  intros k Hk. destruct k as [|[|[|[|k]]]]; try lia; unfold weight; simpl; lra.
Qed.

Lemma vector_eta (p : Vector) : Vector.mk (Vector.x p) (Vector.y p) = p.
Proof. by destruct p. Qed.

Lemma basisCurveTo_eq (p0 p1 p2 p3 : Vector) (segs : Path) :
  _basisCurveTo p0 p1 p2 p3 segs
  = segs ++ [SEG_BEZIER (_weightCurve (row _basisToBezier 3) p0 p1 p2 p3)
                        (_weightCurve (row _basisToBezier 1) p0 p1 p2 p3)
                        (_weightCurve (row _basisToBezier 2) p0 p1 p2 p3)].
Proof.
  unfold _basisCurveTo, bezierCurveTo, Array.add. by rewrite !vector_eta.
Qed.

Lemma basisCurveTo_affine (M : AffineTransform.t) (p0 p1 p2 p3 : Vector) (segs : Path) :
  _basisCurveTo (AffineTransform.transform M p0) (AffineTransform.transform M p1)
    (AffineTransform.transform M p2) (AffineTransform.transform M p3)
    (transform M segs)
  = transform M (_basisCurveTo p0 p1 p2 p3 segs).
Proof.
  rewrite !basisCurveTo_eq. unfold transform. rewrite map_app. cbn [map map_segment].
  by rewrite !weightCurve_affine by (apply basisToBezier_rows; lia).
Qed.

Lemma window_loop_affine (M : AffineTransform.t) (rest : list Vector) :
  ∀ p1 p2 p3 segs,
    window_loop (AffineTransform.transform M <$> rest) (AffineTransform.transform M p1)
      (AffineTransform.transform M p2) (AffineTransform.transform M p3) (transform M segs)
    = let '(q1, q2, q3, out) := window_loop rest p1 p2 p3 segs in
      (AffineTransform.transform M q1, AffineTransform.transform M q2,
       AffineTransform.transform M q3, transform M out).
Proof.
  induction rest as [|q rest IH]; intros p1 p2 p3 segs; simpl; [done|].
  by rewrite basisCurveTo_affine, IH.
Qed.

Lemma on_chord_affine (M : AffineTransform.t) (P0 PN : Vector) (i n : nat) :
  on_chord (AffineTransform.transform M P0) (AffineTransform.transform M PN) i n
  = AffineTransform.transform M (on_chord P0 PN i n).
Proof.
  unfold on_chord, AffineTransform.transform. apply vector_eq; simpl; unfold Rdiv; ring.
Qed.

Lemma blend_affine (M : AffineTransform.t) (beta : R) (p L : Vector) :
  blend beta (AffineTransform.transform M p) (AffineTransform.transform M L)
  = AffineTransform.transform M (blend beta p L).
Proof. unfold blend, AffineTransform.transform. apply vector_eq; simpl; ring. Qed.

End affine_spline.


(** Straightening commutes with every affine transform of the control
    points. *)
Lemma straighten_affine (M : AffineTransform.t) (beta : R) (pts : list Vector)
    (cache : option Path.Path) :
  BasisSpline.straighten beta (BasisSpline.mk (AffineTransform.transform M <$> pts) cache)
  = (λ s, BasisSpline.mk (AffineTransform.transform M <$> BasisSpline._points s)
                         (BasisSpline._segments s))
    <$> BasisSpline.straighten beta (BasisSpline.mk pts cache).
Proof.
  destruct pts as [|z0 rest] eqn:Epts; [done|]. rewrite <-Epts.
  assert (∃ PN, last pts = Some PN) as [PN Hlast].
  { destruct (last pts) eqn:E; [eauto|]. apply last_None in E. congruence. }
  assert (head pts = Some z0) as Hhd by (by subst pts).
  destruct (straighten_lookup beta pts cache z0 PN Hhd Hlast) as (pts1 & -> & Hlen1 & H1).
  destruct (straighten_lookup beta (AffineTransform.transform M <$> pts) cache
              (AffineTransform.transform M z0) (AffineTransform.transform M PN))
    as (pts2 & -> & Hlen2 & H2).
  { by rewrite head_lookup, list_lookup_fmap, <-head_lookup, Hhd. }
  { by rewrite last_lookup, length_fmap, list_lookup_fmap, <-last_lookup, Hlast. }
  simpl. f_equal. f_equal. apply list_eq. intros i.
  rewrite H2, !list_lookup_fmap, H1, length_fmap.
  destruct (pts !! i) as [p|]; [|done]. simpl. f_equal.
  case_bool_decide; [|done]. by rewrite on_chord_affine, blend_affine.
Qed.

(** * More properties of flattening and of distances *)

Section flatten_more.
Import Path Flatten Subdivision.
Local Open Scope R_scope.

Lemma bezier_end a b c d : bezier a b c d 1 = d.
Proof. unfold bezier. apply vector_eq; simpl; ring. Qed.

(** The lines of a subdivision end on the curve, the last one at its end
    point. *)
Lemma subdivides_on_curve flatness a b c d lines :
  subdivides flatness a b c d lines →
  lines ≠ [] ∧ last lines = Some (SEG_LINE d) ∧
  Forall (λ s, ∃ u, 0 <= u <= 1 ∧ s = SEG_LINE (bezier a b c d u)) lines.
Proof.
  induction 1 as [a b c d Hb Hc|a b c d l r Hn _ (Hl0 & Hll & Hl) _ (Hr0 & Hrl & Hr)].
  - split_and!; [done..|]. constructor; [|constructor].
    exists 1. split; [lra|]. by rewrite bezier_end.
  - split_and!.
    + by destruct l.
    + rewrite last_app, Hrl. done.
    + apply Forall_app. split.
      * eapply Forall_impl; [exact Hl|]. intros s (u & Hu & ->).
        exists (u / 2). split; [lra|]. by rewrite left_half_curve.
      * eapply Forall_impl; [exact Hr|]. intros s (u & Hu & ->).
        exists ((1 + u) / 2). split; [lra|]. by rewrite right_half_curve.
Qed.

Lemma flattens_ends flatness prev segments res :
  flattens flatness prev segments res →
  (length segments ≤ length res)%nat ∧
  point0 <$> last res = point0 <$> last segments ∧
  (∀ s, head segments = Some s → is_bezier s = false → head res = Some s).
Proof.
  induction 1 as [prev|prev s rest out Hs _ (IHlen & IHlast & IHhead)
                 |ps p cp1 cp2 rest lines out Hl _ (IHlen & IHlast & IHhead)].
  - done.
  - split_and!.
    + simpl. lia.
    + rewrite !last_cons. destruct (last out), (last rest); simpl in *; congruence.
    + intros s' [= <-] _. done.
  - destruct (subdivides_on_curve _ _ _ _ _ _ Hl) as (Hne & Hlast & _).
    split_and!.
    + rewrite length_app. simpl. destruct lines; [done|simpl; lia].
    + rewrite last_app, last_cons.
      destruct (last out) eqn:E1, (last rest) eqn:E2; simpl in *; try congruence.
      by rewrite Hlast.
    + intros s [= <-]. done.
Qed.

End flatten_more.



(** X11.  When [flatten] returns, the new path has at least as many
    segments, ends at the same point as the old one, and starts with the
    same segment. *)
Theorem flatten_keeps_ends (fuel : nat) (flatness : option R) (p out : Path.Path) :
  Flatten.flatten fuel flatness p = Done out →
  length p ≤ length out ∧
  Path.point0 <$> last out = Path.point0 <$> last p ∧
  head out = head p.
Proof.
  unfold Flatten.flatten. destruct (Path.flat p) eqn:Hflat.
  - by intros [= <-].
  - intros (res & -> & Hres)%flatten_loop_sound. simpl.
    destruct (flattens_ends _ _ _ _ Hres) as (Hlen & Hlast & Hhead).
    split_and!; [done..|].
    destruct p as [|s p]; [by inversion Hres|]. simpl.
    apply Hhead; [done|]. inversion Hres; subst; done.
Qed.

Lemma flatten_keeps_ends_witness :
  length Scenario.straight_curve
    ≤ length [SEG_MOVE (Vector.mk 0 0); SEG_LINE (Vector.mk 3 0)] ∧
  Path.point0 <$> last [SEG_MOVE (Vector.mk 0 0); SEG_LINE (Vector.mk 3 0)]
    = Path.point0 <$> last Scenario.straight_curve ∧
  head [SEG_MOVE (Vector.mk 0 0); SEG_LINE (Vector.mk 3 0)]
    = head Scenario.straight_curve.
Proof.
  apply (flatten_keeps_ends 0 None Scenario.straight_curve).
  exact straight_curve_flatten.
Defined.

Section distance_facts.
Local Open Scope R_scope.

Lemma sum_squares_nonneg (a b : R) : 0 <= a * a + b * b.
Proof. nra. Qed.

End distance_facts.

(** [Vector.distance] is a metric: it is never negative, it is zero
    exactly between equal points, it is symmetric, and it satisfies the
    triangle inequality. *)
Lemma vector_distance_metric (p q r : Vector) :
  (0 <= Vector.distance p (Vector.x q) (Vector.y q))%R ∧
  (Vector.distance p (Vector.x q) (Vector.y q) = 0%R ↔ p = q) ∧
  Vector.distance p (Vector.x q) (Vector.y q)
    = Vector.distance q (Vector.x p) (Vector.y p) ∧
  (Vector.distance p (Vector.x r) (Vector.y r)
   <= Vector.distance p (Vector.x q) (Vector.y q)
      + Vector.distance q (Vector.x r) (Vector.y r))%R.
Proof.
  unfold Vector.distance. split_and!.
  - apply sqrt_pos.
  - split.
    + intros H. apply sqrt_eq_0 in H; [|apply sum_squares_nonneg].
      apply Rplus_sqr_eq_0 in H as [Hx Hy]. apply vector_eq; lra.
    + intros ->. replace ((Vector.x q - Vector.x q) * (Vector.x q - Vector.x q)
                          + (Vector.y q - Vector.y q) * (Vector.y q - Vector.y q))%R
        with 0%R by ring. apply sqrt_0.
  - f_equal. ring.
  - apply (Rgeom.triangle (Vector.x p) (Vector.y p) (Vector.x r) (Vector.y r)
             (Vector.x q) (Vector.y q)).
Qed.



(** * Properties of the array methods *)

Section array_facts.
Context {A : Type} `{EqDecision A}.
Implicit Types (x : A) (l : list A).

Lemma indexOf_None x l : Array.indexOf x l = None ↔ x ∉ l.
Proof.
  induction l as [|y l IH]; simpl.
  - split; [intros _; apply not_elem_of_nil|done].
  - destruct (decide (y = x)) as [->|Hne].
    + split; [done|]. intros H. exfalso. apply H. left.
    + rewrite not_elem_of_cons. destruct (Array.indexOf x l); simpl.
      * split; [done|]. intros [_ H]. by apply IH in H.
      * split; [|done]. intros _. split; [congruence|]. by apply IH.
Qed.

Lemma indexOf_Some x l i :
  Array.indexOf x l = Some i →
  l !! i = Some x ∧ x ∉ take i l.
Proof.
  revert i. induction l as [|y l IH]; intros i; simpl; [done|].
  destruct (decide (y = x)) as [->|Hne].
  - intros [= <-]. split; [done|]. apply not_elem_of_nil.
  - destruct (Array.indexOf x l) as [j|] eqn:E; simpl; [|done].
    intros [= <-]. destruct (IH j eq_refl) as [Hj Hnot].
    split; [done|]. simpl. rewrite not_elem_of_cons. split; [congruence|done].
Qed.

Lemma contains_elem_of x l : ArrayOps.contains x l = true ↔ x ∈ l.
Proof.
  unfold ArrayOps.contains. rewrite bool_decide_eq_true.
  split.
  - intros H. destruct (decide (x ∈ l)) as [|Hn]; [done|].
    by apply indexOf_None in Hn.
  - intros Hin Hnone. by apply indexOf_None in Hnone.
Qed.

End array_facts.

Lemma remove_cases {A : Type} `{EqDecision A} (x : A) (l : list A) :
  ((x ∉ l) ∧ Array.remove x l = (false, l)) ∨
  (∃ l1 l2, l = l1 ++ x :: l2 ∧ (x ∉ l1) ∧ Array.remove x l = (true, l1 ++ l2)).
Proof.
  unfold Array.remove. destruct (Array.indexOf x l) as [i|] eqn:E.
  - right. destruct (indexOf_Some x l i E) as [Hi Hnot].
    exists (take i l), (drop (S i) l). split_and!.
    + by rewrite <-(take_drop_middle l i x Hi) at 1.
    + done.
    + f_equal. apply delete_take_drop.
  - left. split; [by apply indexOf_None|done].
Qed.

Section retain_facts.
Context {A : Type} `{EqDecision A}.

Lemma retainAll_loop_spec (elements : list A) (cnt : nat) :
  ∀ l, cnt ≤ length l →
    ArrayOps.retainAll_loop cnt elements l
    = filter (λ x, x ∈ elements) (take cnt l) ++ drop cnt l.
Proof.
  induction cnt as [|i IH]; intros l Hlen; simpl.
  - done.
  - destruct (lookup_lt_is_Some_2 l i ltac:(lia)) as [x Hx]. rewrite Hx.
    rewrite (take_S_r l i x Hx), filter_app.
    destruct (ArrayOps.contains x elements) eqn:Ec.
    + apply contains_elem_of in Ec. rewrite IH by lia.
      rewrite filter_cons_True, filter_nil by done.
      rewrite <-app_assoc. simpl. by rewrite (drop_S l x i Hx).
    + assert (x ∉ elements) as Hn.
      { intros Hin. apply contains_elem_of in Hin. congruence. }
      rewrite IH by (rewrite length_delete by eauto; lia).
      rewrite filter_cons_False, filter_nil, app_nil_r by done.
      rewrite delete_take_drop.
      rewrite take_app_length' by (rewrite length_take; lia).
      rewrite drop_app_length' by (rewrite length_take; lia). done.
Qed.

Lemma count_remove (x y : A) (l : list A) :
  length (filter (λ z, z = y) (Array.remove x l).2)
  = length (filter (λ z, z = y) l) - (if decide (x = y) then 1 else 0).
Proof.
  destruct (remove_cases x l) as [[Hn ->]|(l1 & l2 & -> & Hn & ->)]; simpl.
  - destruct (decide (x = y)) as [->|]; [|lia].
    induction l as [|z l IH]; [done|].
    apply not_elem_of_cons in Hn as [Hne Hn].
    rewrite filter_cons_False by congruence. by apply IH.
  - rewrite !filter_app, !length_app.
    destruct (decide (x = y)) as [->|Hne].
    + rewrite filter_cons_True by done. simpl. lia.
    + rewrite filter_cons_False by done. lia.
Qed.

Lemma remove_sublist (x : A) (l : list A) : (Array.remove x l).2 `sublist_of` l.
Proof.
  destruct (remove_cases x l) as [[Hn ->]|(l1 & l2 & -> & Hn & ->)]; simpl.
  - done.
  - apply sublist_app; [done|]. by apply sublist_cons.
Qed.

End retain_facts.

(** X13.  [remove(x)] takes out the first occurrence of [x] and nothing
    else, and answers whether there was one. *)
Theorem array_remove_spec {A : Type} `{EqDecision A} (x : A) (l : list A) :
  ((x ∉ l) ∧ Array.remove x l = (false, l)) ∨
  (∃ l1 l2, l = l1 ++ x :: l2 ∧ (x ∉ l1) ∧ Array.remove x l = (true, l1 ++ l2)).
Proof. apply remove_cases. Qed.

(** X14.  [retainAll(elements)] keeps exactly the members that occur in
    [elements], in their order: the downward loop misses none. *)
Theorem retainAll_filter {A : Type} `{EqDecision A} (elements l : list A) :
  ArrayOps.retainAll elements l = filter (λ x, x ∈ elements) l.
Proof.
  unfold ArrayOps.retainAll. rewrite retainAll_loop_spec by done.
  by rewrite firstn_all, drop_all, app_nil_r.
Qed.

(** X15.  [removeAll(elements)] takes out one occurrence per listed
    element, counted with multiplicity, and keeps the order of the rest. *)
Theorem removeAll_count {A : Type} `{EqDecision A} (elements l : list A) :
  ArrayOps.removeAll elements l `sublist_of` l ∧
  ∀ y, length (filter (λ z, z = y) (ArrayOps.removeAll elements l))
       = length (filter (λ z, z = y) l) - length (filter (λ z, z = y) elements).
Proof.
  revert l. induction elements as [|x elements IH]; intros l; simpl.
  - split; [done|]. intros y. lia.
  - destruct (IH (Array.remove x l).2) as [Hsub Hcount]. split.
    + etrans; [exact Hsub|]. apply remove_sublist.
    + intros y. rewrite Hcount, count_remove.
      destruct (decide (x = y)) as [->|Hne].
      * rewrite filter_cons_True by done. simpl. lia.
      * rewrite filter_cons_False by done. lia.
Qed.

Section holes.
Context {A : Type} `{EqDecision A}.
Implicit Types (L : list (option A)).

Lemma store_spec j v L :
  ArrayOps.store j v L = take j (ArrayOps.pad j L) ++ v :: drop (S j) L.
Proof.
  unfold ArrayOps.store, ArrayOps.pad. case_bool_decide as Hj.
  - replace (j - length L) with 0 by lia. simpl. rewrite app_nil_r.
    rewrite insert_take_drop by done. done.
  - rewrite take_app_ge by lia.
    rewrite take_ge by (rewrite length_replicate; lia).
    rewrite (drop_ge L) by lia. by rewrite <-app_assoc.
Qed.

Lemma fill_loop_spec index (elements : list A) :
  elements ≠ [] →
  ∀ i L,
    ArrayOps.fill_loop i index elements L
    = take (i + index) (ArrayOps.pad (i + index) L) ++ (Some <$> elements)
      ++ drop (i + index + length elements) L.
Proof.
  induction elements as [|x elements IH]; [done|]. intros _ i L.
  simpl. destruct elements as [|y elements].
  - simpl. rewrite store_spec. do 3 f_equal. lia.
  - rewrite IH by done. rewrite store_spec.
    set (P := take (i + index) (ArrayOps.pad (i + index) L)).
    assert (length P = i + index) as HP.
    { unfold P, ArrayOps.pad. rewrite length_take, length_app, length_replicate. lia. }
    unfold ArrayOps.pad at 1. rewrite length_app, HP. simpl length.
    replace (S i + index - (i + index + S (length (drop (S (i + index)) L))))
      with 0 by lia.
    simpl replicate. rewrite app_nil_r.
    replace (S i + index) with (length P + 1) by lia.
    rewrite (take_app_add' P) by done. simpl take. rewrite take_0.
    rewrite <-app_assoc. simpl. do 3 f_equal.
    replace (length P + 1 + S (length elements))
      with (length P + S (S (length elements))) by lia.
    rewrite drop_app_add' by done. simpl. rewrite drop_drop. f_equal. apply (f_equal (λ n, drop n L)). lia.
Qed.

Lemma shift_loop_spec index m (l : list A) (k : nat) :
  index + k ≤ length l →
  ArrayOps.shift_loop k index m
    (take (index + k + m) (ArrayOps.grow m (Some <$> l)) ++ (Some <$> drop (index + k) l))
  = take (index + m) (ArrayOps.grow m (Some <$> l)) ++ (Some <$> drop index l).
Proof.
  set (L0 := ArrayOps.grow m (Some <$> l)).
  assert (length L0 = length l + m) as HL0.
  { unfold L0, ArrayOps.grow. by rewrite length_app, length_fmap, length_replicate. }
  induction k as [|k IH]; intros Hk; simpl.
  - by rewrite Nat.add_0_r.
  - rewrite <-IH by lia. f_equal.
    destruct (lookup_lt_is_Some_2 l (index + k) ltac:(lia)) as [x Hx].
    assert (L0 !! (index + k) = Some (Some x)) as HL0x.
    { unfold L0, ArrayOps.grow. rewrite lookup_app_l by (rewrite length_fmap; lia).
      by rewrite list_lookup_fmap, Hx. }
    destruct (lookup_lt_is_Some_2 L0 (index + k + m) ltac:(lia)) as [h Hh].
    unfold ArrayOps.load.
    rewrite lookup_app_l by (rewrite length_take; lia).
    rewrite lookup_take by lia. rewrite HL0x. simpl.
    unfold ArrayOps.store. rewrite bool_decide_eq_true_2
      by (rewrite length_app, length_take; lia).
    replace (index + S k + m) with (S (index + k + m)) by lia.
    rewrite (take_S_r L0 _ h Hh).
    rewrite <-app_assoc.
    rewrite insert_app_r_alt by (rewrite length_take; lia).
    rewrite length_take.
    replace (index + k + m - (index + k + m) `min` length L0) with 0 by lia.
    simpl. f_equal.
    replace (index + S k) with (S (index + k)) by lia.
    rewrite decide_True by lia. simpl. by rewrite (drop_S l x (index + k) Hx).
Qed.

End holes.

(** X16.  [addAll(index, elements)] on an array without holes: with
    [index] inside the array the elements are inserted at [index], in
    order, before the member that was there; with [index] past the end and
    at least one element the array gets holes from its old end up to
    [index], then the elements. *)
Theorem addAll_at_spec {A : Type} `{EqDecision A} (index : nat) (elements l : list A) :
  (index ≤ length l →
   ArrayOps.addAll_at index elements (Some <$> l)
   = Some <$> (take index l ++ elements ++ drop index l)) ∧
  (length l < index → elements ≠ [] →
   ArrayOps.addAll_at index elements (Some <$> l)
   = (Some <$> l) ++ replicate (index - length l) None ++ (Some <$> elements)).
Proof.
  unfold ArrayOps.addAll_at. rewrite length_fmap. split.
  - intros Hi.
    pose proof (shift_loop_spec index (length elements) l (length l - index)
                  ltac:(lia)) as Hshift.
    replace (index + (length l - index)) with (length l) in Hshift by lia.
    rewrite drop_all in Hshift. simpl in Hshift. rewrite app_nil_r in Hshift.
    rewrite take_ge in Hshift
      by (unfold ArrayOps.grow;
          rewrite length_app, length_fmap, length_replicate; lia).
    rewrite Hshift. clear Hshift.
    assert (take (index + length elements) (ArrayOps.grow (length elements) (Some <$> l))
            = (Some <$> take index l)
              ++ take (length elements) (drop index (ArrayOps.grow (length elements) (Some <$> l))))
      as ->.
    { rewrite <-(take_drop index (ArrayOps.grow _ _)) at 1.
      assert (length (take index (ArrayOps.grow (length elements) (Some <$> l))) = index) as Hlen.
      { unfold ArrayOps.grow.
        rewrite length_take, length_app, length_fmap. lia. }
      rewrite <-Hlen at 1. rewrite take_app_add' by done.
      f_equal. unfold ArrayOps.grow.
      rewrite take_app_le by (rewrite length_fmap; lia).
      by rewrite fmap_take. }
    destruct elements as [|x elements].
    + simpl. rewrite take_0, app_nil_r, <-fmap_app. by rewrite take_drop.
    + rewrite fill_loop_spec by done. simpl "+".
      set (Q := take _ (drop index _)).
      assert (length Q = S (length elements)) as HQ.
      { unfold Q, ArrayOps.grow.
        rewrite length_take, length_drop, length_app, length_fmap, length_replicate.
        cbn [length]. lia. }
      assert (length (Some <$> take index l) = index) as HP.
      { rewrite length_fmap, length_take. lia. }
      unfold ArrayOps.pad. rewrite !length_app, HP, HQ.
      replace (index - _) with 0 by lia. simpl replicate. rewrite app_nil_r.
      rewrite <-(app_assoc _ Q), take_app_length' by done.
      rewrite (app_assoc _ Q), drop_app_length' by (rewrite length_app; lia).
      by rewrite !fmap_app.
  - intros Hi Hne.
    replace (length l - index) with 0 by lia. simpl.
    rewrite fill_loop_spec by done. simpl "+".
    unfold ArrayOps.pad, ArrayOps.grow.
    rewrite !length_app, length_fmap, length_replicate.
    rewrite drop_ge by (rewrite length_app, length_fmap, length_replicate; lia).
    rewrite app_nil_r.
    rewrite <-app_assoc. rewrite take_app_ge by (rewrite length_fmap; lia).
    rewrite length_fmap. rewrite <-replicate_add.
    rewrite take_replicate. rewrite <-app_assoc. do 2 f_equal.
    f_equal. lia.
Qed.

Lemma addAll_at_spec_witness :
  ArrayOps.addAll_at 1 [7; 8] (Some <$> [1; 2; 3]) = Some <$> [1; 7; 8; 2; 3] ∧
  ArrayOps.addAll_at 3 [7] (Some <$> [1]) = [Some 1; None; None; Some 7].
Proof.
  split.
  - apply (proj1 (addAll_at_spec 1 [7; 8] [1; 2; 3])). simpl. lia.
  - apply (proj2 (addAll_at_spec 3 [7] [1])); [simpl; lia|done].
Defined.

(** * Properties of the edges *)

Section edge_facts.
Import Tree Edges.
Implicit Types (t : Tree) (a b r x y : ref).

Lemma count_snoc x y (l : list ref) :
  count x (l ++ [y]) = count x l + (if decide (y = x) then 1 else 0).
Proof.
  unfold count. rewrite filter_app, length_app. f_equal.
  destruct (decide (y = x)) as [->|Hne].
  - by rewrite filter_cons_True.
  - by rewrite filter_cons_False.
Qed.

Lemma count_cons x y (l : list ref) :
  count x (y :: l) = (if decide (y = x) then 1 else 0) + count x l.
Proof.
  unfold count. destruct (decide (y = x)) as [->|Hne].
  - by rewrite filter_cons_True.
  - by rewrite filter_cons_False.
Qed.

Lemma count_pos x (l : list ref) : 0 < count x l ↔ x ∈ l.
Proof.
  unfold count. induction l as [|z l IH]; simpl.
  - split; [lia|]. by intros ?%elem_of_nil.
  - rewrite elem_of_cons. destruct (decide (z = x)) as [->|Hne].
    + rewrite filter_cons_True by done. simpl. split; [by left|lia].
    + rewrite filter_cons_False by done. rewrite IH.
      split; [by right|]. by intros [->|].
Qed.

Lemma count_removed x y (l : list ref) :
  count y (Array.remove x l).2 = count y l - (if decide (x = y) then 1 else 0).
Proof. apply count_remove. Qed.

Lemma remove_true_iff x (l : list ref) : (Array.remove x l).1 = true ↔ x ∈ l.
Proof.
  destruct (remove_cases x l) as [[Hn ->]|(l1 & l2 & -> & Hn & ->)]; simpl.
  - split; [done|]. intros; done.
  - split; [|done]. intros _. apply elem_of_app. right. left.
Qed.

Lemma outgoing_of_set_outgoing r f t x :
  is_Some (heap t !! r) ∨ f [] = [] →
  outgoing_of (update r (set_outgoing f) t) x
  = if decide (x = r) then f (outgoing_of t x) else outgoing_of t x.
Proof.
  intros Hr. unfold outgoing_of, update. simpl.
  destruct (decide (x = r)) as [->|Hne].
  - rewrite lookup_alter_eq. destruct (heap t !! r) as [n|]; simpl; [done|].
    destruct Hr as [[? ?]|Hr]; done.
  - by rewrite lookup_alter_ne.
Qed.

Lemma outgoing_of_set_incoming r f t x :
  outgoing_of (update r (set_incoming f) t) x = outgoing_of t x.
Proof.
  unfold outgoing_of, update. simpl.
  destruct (decide (x = r)) as [->|Hne].
  - rewrite lookup_alter_eq. by destruct (heap t !! r).
  - by rewrite lookup_alter_ne.
Qed.

Lemma incoming_of_set_incoming r f t x :
  is_Some (heap t !! r) ∨ f [] = [] →
  incoming_of (update r (set_incoming f) t) x
  = if decide (x = r) then f (incoming_of t x) else incoming_of t x.
Proof.
  intros Hr. unfold incoming_of, update. simpl.
  destruct (decide (x = r)) as [->|Hne].
  - rewrite lookup_alter_eq. destruct (heap t !! r) as [n|]; simpl; [done|].
    destruct Hr as [[? ?]|Hr]; done.
  - by rewrite lookup_alter_ne.
Qed.

Lemma incoming_of_set_outgoing r f t x :
  incoming_of (update r (set_outgoing f) t) x = incoming_of t x.
Proof.
  unfold incoming_of, update. simpl.
  destruct (decide (x = r)) as [->|Hne].
  - rewrite lookup_alter_eq. by destruct (heap t !! r).
  - by rewrite lookup_alter_ne.
Qed.

Lemma is_Some_update r f t x :
  is_Some (heap (update r f t) !! x) ↔ is_Some (heap t !! x).
Proof.
  unfold update. simpl. destruct (decide (x = r)) as [->|Hne].
  - rewrite lookup_alter_eq. by rewrite fmap_is_Some.
  - by rewrite lookup_alter_ne.
Qed.

Lemma same_structure_refl t : same_structure t t.
Proof. by repeat split. Qed.

Lemma same_structure_trans t1 t2 t3 :
  same_structure t1 t2 → same_structure t2 t3 → same_structure t1 t3.
Proof.
  intros (Hn & Hr & Hs) (Hn' & Hr' & Hs'). split_and!; [congruence..|].
  intros r. by rewrite Hs', Hs.
Qed.

Lemma same_structure_set_outgoing r f t :
  same_structure t (update r (set_outgoing f) t).
Proof.
  split_and!; [done..|]. intros x. unfold update. simpl.
  destruct (decide (x = r)) as [->|Hne].
  - rewrite lookup_alter_eq. by destruct (heap t !! r).
  - by rewrite lookup_alter_ne.
Qed.

Lemma same_structure_set_incoming r f t :
  same_structure t (update r (set_incoming f) t).
Proof.
  split_and!; [done..|]. intros x. unfold update. simpl.
  destruct (decide (x = r)) as [->|Hne].
  - rewrite lookup_alter_eq. by destruct (heap t !! r).
  - by rewrite lookup_alter_ne.
Qed.

(** A node that occurs in an edge array of a balanced tree is an object of
    the store. *)
Lemma balanced_closed t a b :
  balanced t → b ∈ outgoing_of t a ∨ a ∈ incoming_of t b →
  is_Some (heap t !! a) ∧ is_Some (heap t !! b).
Proof.
  intros Hbal Hin.
  assert (0 < count b (outgoing_of t a) ∧ 0 < count a (incoming_of t b)) as [Ho Hi].
  { destruct Hin as [Hin|Hin]; apply count_pos in Hin;
      pose proof (Hbal a b); lia. }
  split.
  - unfold outgoing_of in Ho. destruct (heap t !! a); [done|]. cbv in Ho. lia.
  - unfold incoming_of in Hi. destruct (heap t !! b); [done|]. cbv in Hi. lia.
Qed.

Lemma no_edges_balanced t : no_edges t → balanced t.
Proof.
  intros Hno a b. unfold outgoing_of, incoming_of.
  destruct (heap t !! a) as [n|] eqn:Ha; destruct (heap t !! b) as [m|] eqn:Hb;
    try (destruct (Hno a n Ha) as [-> _]); try (destruct (Hno b m Hb) as [_ ->]);
    done.
Qed.

Lemma addEdge_run t a b :
  is_Some (heap t !! a) → is_Some (heap t !! b) →
  addEdge a b t
  = Done (update a (set_outgoing (Array.add b)) (update b (set_incoming (Array.add a)) t)).
Proof.
  intros Ha [m Hb]. unfold addEdge, deref. rewrite Hb. simpl.
  apply (is_Some_update b (set_incoming (Array.add a)) t a) in Ha as [n Hn].
  unfold update in Hn. simpl in Hn. by rewrite Hn.
Qed.

Lemma addEdge_Done t t' a b :
  addEdge a b t = Done t' → is_Some (heap t !! a) ∧ is_Some (heap t !! b).
Proof.
  unfold addEdge, deref. destruct (heap t !! b) as [m|] eqn:Hb; [|done]. simpl.
  destruct (alter _ b (heap t) !! a) as [n|] eqn:Hn; [|done]. intros _.
  split; [|done].
  apply (is_Some_update b (set_incoming (Array.add a)) t a). unfold update. simpl.
  by rewrite Hn.
Qed.

Lemma addEdge_counts t a b x y :
  is_Some (heap t !! a) → is_Some (heap t !! b) →
  let t' := update a (set_outgoing (Array.add b)) (update b (set_incoming (Array.add a)) t) in
  count y (outgoing_of t' x)
  = count y (outgoing_of t x) + (if decide (x = a ∧ y = b) then 1 else 0) ∧
  count x (incoming_of t' y)
  = count x (incoming_of t y) + (if decide (x = a ∧ y = b) then 1 else 0).
Proof.
  intros Ha Hb t'. unfold t'.
  rewrite outgoing_of_set_outgoing by (left; by apply is_Some_update).
  rewrite outgoing_of_set_incoming, incoming_of_set_outgoing.
  rewrite incoming_of_set_incoming by by left.
  unfold Array.add. split.
  - destruct (decide (x = a)) as [->|Hx].
    + rewrite count_snoc. destruct (decide (b = y)) as [->|Hy].
      * by rewrite decide_True.
      * rewrite decide_False; [done|]. intros [_ ?]. congruence.
    + rewrite decide_False; [lia|]. by intros [? _].
  - destruct (decide (y = b)) as [->|Hy].
    + rewrite count_snoc. destruct (decide (a = x)) as [->|Hx].
      * by rewrite decide_True.
      * rewrite decide_False; [done|]. intros [? _]. congruence.
    + rewrite decide_False; [lia|]. by intros [_ ?].
Qed.

Lemma addEdge_keeps_balance t t' a b :
  balanced t → addEdge a b t = Done t' → balanced t'.
Proof.
  intros Hbal Hrun. destruct (addEdge_Done _ _ _ _ Hrun) as [Ha Hb].
  rewrite addEdge_run in Hrun by done. injection Hrun as <-.
  intros x y. destruct (addEdge_counts t a b x y Ha Hb) as [-> ->].
  by rewrite Hbal.
Qed.

Lemma linked_balanced : balanced linked.
Proof.
  assert (balanced Scenario.sample) as H0.
  { apply no_edges_balanced. by apply (bool_decide_unpack _); vm_compute. }
  unfold linked.
  destruct (addEdge 3 5 Scenario.sample) as [t1| | |] eqn:E1; simpl; [|done..].
  pose proof (addEdge_keeps_balance _ _ _ _ H0 E1) as H1.
  destruct (addEdge 4 5 t1) as [t2| | |] eqn:E2; simpl; [|done..].
  pose proof (addEdge_keeps_balance _ _ _ _ H1 E2) as H2.
  destruct (addEdge 5 3 t2) as [t3| | |] eqn:E3; simpl; [|done..].
  by apply (addEdge_keeps_balance _ _ _ _ H2 E3).
Qed.

Lemma remove_snoc_fresh x (l : list ref) :
  x ∉ l → Array.remove x (l ++ [x]) = (true, l).
Proof.
  intros Hn.
  destruct (remove_cases x (l ++ [x])) as [[Hn' _]|(l1 & l2 & E & Hn1 & ->)].
  - exfalso. apply Hn'. apply elem_of_app. right. left.
  - f_equal. destruct l2 as [|z l2 _] using rev_ind.
    + apply app_inj_tail in E as [-> _]. by rewrite app_nil_r.
    + rewrite app_comm_cons, app_assoc in E. apply app_inj_tail in E as [-> _].
      exfalso. apply Hn. apply elem_of_app. right. left.
Qed.

Lemma unlink_outgoing_facts this (l : list ref) :
  ∀ t,
    let t' := unlink_outgoing this l t in
    same_structure t t' ∧
    (∀ x, is_Some (heap t' !! x) ↔ is_Some (heap t !! x)) ∧
    (∀ x, incoming_of t' x = incoming_of t x) ∧
    (∀ x y, count y (outgoing_of t' x)
            = count y (outgoing_of t x) - (if decide (y = this) then count x l else 0)).
Proof.
  induction l as [|src l IH]; intros t; simpl.
  - split_and!; [apply same_structure_refl|done..|].
    intros x y. destruct (decide (y = this)); cbv [count filter length]; simpl; lia.
  - set (t1 := update src _ t).
    destruct (IH t1) as (Hs & Hd & Hi & Hc). split_and!.
    + eapply same_structure_trans; [|exact Hs]. apply same_structure_set_outgoing.
    + intros x. rewrite Hd. apply is_Some_update.
    + intros x. rewrite Hi. apply incoming_of_set_outgoing.
    + intros x y. rewrite Hc. unfold t1.
      rewrite outgoing_of_set_outgoing by by right.
      rewrite count_cons. destruct (decide (x = src)) as [->|Hx].
      * rewrite count_removed.
        repeat case_decide; subst; try congruence; lia.
      * repeat case_decide; subst; try congruence; lia.
Qed.

Lemma unlink_incoming_facts this (l : list ref) :
  ∀ t,
    let t' := unlink_incoming this l t in
    same_structure t t' ∧
    (∀ x, is_Some (heap t' !! x) ↔ is_Some (heap t !! x)) ∧
    (∀ x, outgoing_of t' x = outgoing_of t x) ∧
    (∀ x y, count y (incoming_of t' x)
            = count y (incoming_of t x) - (if decide (y = this) then count x l else 0)).
Proof.
  induction l as [|dst l IH]; intros t; simpl.
  - split_and!; [apply same_structure_refl|done..|].
    intros x y. destruct (decide (y = this)); cbv [count filter length]; simpl; lia.
  - set (t1 := update dst _ t).
    destruct (IH t1) as (Hs & Hd & Hi & Hc). split_and!.
    + eapply same_structure_trans; [|exact Hs]. apply same_structure_set_incoming.
    + intros x. rewrite Hd. apply is_Some_update.
    + intros x. rewrite Hi. apply outgoing_of_set_incoming.
    + intros x y. rewrite Hc. unfold t1.
      rewrite incoming_of_set_incoming by by right.
      rewrite count_cons. destruct (decide (x = dst)) as [->|Hx].
      * rewrite count_removed.
        repeat case_decide; subst; try congruence; lia.
      * repeat case_decide; subst; try congruence; lia.
Qed.

Lemma unlink_outgoing_length this (l : list ref) :
  ∀ t x, length (outgoing_of (unlink_outgoing this l t) x) ≤ length (outgoing_of t x).
Proof.
  induction l as [|src l IH]; intros t x; [done|].
  simpl. etrans; [apply IH|].
  rewrite outgoing_of_set_outgoing by by right.
  case_decide; [|done].
  destruct (remove_cases this (outgoing_of t x))
    as [[_ ->]|(l1 & l2 & -> & _ & ->)]; simpl; [done|].
  rewrite !length_app. simpl. lia.
Qed.

(** The first loop of [clearEdges] walks [this.incoming], which it does not
    change. *)
Lemma clearEdges_incoming_run this (fuel : nat) :
  ∀ i t,
    is_Some (heap t !! this) →
    (∀ src, src ∈ incoming_of t this → is_Some (heap t !! src)) →
    length (incoming_of t this) - i ≤ fuel →
    clearEdges_incoming fuel this i t
    = Done (unlink_outgoing this (drop i (incoming_of t this)) t).
Proof.
  induction fuel as [|f IH]; intros i t [n Hn] Hcl Hlen.
  - simpl. unfold deref. rewrite Hn. simpl.
    unfold incoming_of in Hlen |- *. rewrite Hn in Hlen |- *.
    rewrite lookup_ge_None_2 by lia. by rewrite drop_ge by lia.
  - simpl. replace (deref this t) with (Done n) by (unfold deref; by rewrite Hn).
    simpl.
    assert (incoming_of t this = incoming n) as Einc by (unfold incoming_of; by rewrite Hn).
    rewrite Einc in *.
    destruct (incoming n !! i) as [src|] eqn:Hi.
    + destruct (Hcl src) as [m Hm]; [by eapply list_elem_of_lookup_2|].
      unfold deref. rewrite Hm. simpl.
      set (t1 := update src _ t).
      assert (incoming_of t1 this = incoming n) as Einc1.
      { unfold t1. by rewrite incoming_of_set_outgoing. }
      rewrite IH.
      * rewrite Einc1. by rewrite (drop_S _ _ _ Hi).
      * apply is_Some_update. by eexists.
      * intros x Hx. apply is_Some_update. apply Hcl. by rewrite <-Einc1.
      * rewrite Einc1. lia.
    + apply lookup_ge_None_1 in Hi. by rewrite drop_ge.
Qed.

Lemma clearEdges_outgoing_run this (fuel : nat) :
  ∀ i t,
    is_Some (heap t !! this) →
    (∀ dst, dst ∈ outgoing_of t this → is_Some (heap t !! dst)) →
    length (outgoing_of t this) - i ≤ fuel →
    clearEdges_outgoing fuel this i t
    = Done (unlink_incoming this (drop i (outgoing_of t this)) t).
Proof.
  induction fuel as [|f IH]; intros i t [n Hn] Hcl Hlen.
  - simpl. unfold deref. rewrite Hn. simpl.
    unfold outgoing_of in Hlen |- *. rewrite Hn in Hlen |- *.
    rewrite lookup_ge_None_2 by lia. by rewrite drop_ge by lia.
  - simpl. replace (deref this t) with (Done n) by (unfold deref; by rewrite Hn).
    simpl.
    assert (outgoing_of t this = outgoing n) as Eout by (unfold outgoing_of; by rewrite Hn).
    rewrite Eout in *.
    destruct (outgoing n !! i) as [dst|] eqn:Hi.
    + destruct (Hcl dst) as [m Hm]; [by eapply list_elem_of_lookup_2|].
      unfold deref. rewrite Hm. simpl.
      set (t1 := update dst _ t).
      assert (outgoing_of t1 this = outgoing n) as Eout1.
      { unfold t1. by rewrite outgoing_of_set_incoming. }
      rewrite IH.
      * rewrite Eout1. by rewrite (drop_S _ _ _ Hi).
      * apply is_Some_update. by eexists.
      * intros x Hx. apply is_Some_update. apply Hcl. by rewrite <-Eout1.
      * rewrite Eout1. lia.
    + apply lookup_ge_None_1 in Hi. by rewrite drop_ge.
Qed.

End edge_facts.

Section edge_theorems.
Import Tree Edges.
Implicit Types (t : Tree) (a b r x y : ref).

(** X17.  [a.addEdge(b)] between two objects of the store returns, adds
    exactly one edge from [a] to [b], recorded at both ends, keeps every
    other edge count and the parent-child structure, and keeps the tree
    balanced. *)
Theorem addEdge_balanced t a b :
  balanced t → is_Some (heap t !! a) → is_Some (heap t !! b) →
  ∃ t', addEdge a b t = Done t' ∧ balanced t' ∧ same_structure t t' ∧
        ∀ x y, count y (outgoing_of t' x)
               = count y (outgoing_of t x) + (if decide (x = a ∧ y = b) then 1 else 0).
Proof.
  intros Hbal Ha Hb. eexists. split; [by apply addEdge_run|]. split_and!.
  - eapply addEdge_keeps_balance; [exact Hbal|]. by apply addEdge_run.
  - eapply same_structure_trans;
      [apply same_structure_set_incoming|apply same_structure_set_outgoing].
  - intros x y. by destruct (addEdge_counts t a b x y Ha Hb) as [-> _].
Qed.

Lemma addEdge_balanced_witness :
  ∃ t', addEdge 3 4 linked = Done t' ∧ balanced t' ∧ same_structure linked t' ∧
        ∀ x y, count y (outgoing_of t' x)
               = count y (outgoing_of linked x)
                 + (if decide (x = 3 ∧ y = 4) then 1 else 0).
Proof.
  apply (addEdge_balanced linked 3 4).
  - apply linked_balanced.
  - vm_compute. by eexists.
  - vm_compute. by eexists.
Defined.

(** X18.  On a balanced tree [a.removeEdge(b)] returns, answers [true]
    exactly when [a] has an edge to [b], takes out one such edge at both
    ends and no other, and keeps the tree balanced and the parent-child
    structure. *)
Theorem removeEdge_balanced t a b :
  balanced t → is_Some (heap t !! b) →
  ∃ res t', removeEdge a b t = Done (res, t') ∧
            (res = true ↔ b ∈ outgoing_of t a) ∧
            balanced t' ∧ same_structure t t' ∧
            ∀ x y, count y (outgoing_of t' x)
                   = count y (outgoing_of t x)
                     - (if decide (x = a ∧ y = b) then 1 else 0).
Proof.
  intros Hbal [m Hm]. unfold removeEdge, deref. rewrite Hm. simpl.
  assert (incoming_of t b = incoming m) as Einc by (unfold incoming_of; by rewrite Hm).
  assert (a ∈ incoming m ↔ b ∈ outgoing_of t a) as Hiff.
  { rewrite <-Einc, <-!count_pos. by rewrite Hbal. }
  destruct ((Array.remove a (incoming m)).1) eqn:Er.
  - apply remove_true_iff in Er.
    destruct (balanced_closed t a b Hbal) as [Ha _]; [right; by rewrite Einc|].
    set (t1 := update b _ t).
    apply (is_Some_update b (set_incoming (λ l, (Array.remove a l).2)) t a) in Ha as Ha1.
    fold t1 in Ha1. destruct Ha1 as [n Hn].
    assert (Hn' := Hn). unfold t1, update in Hn'. simpl in Hn'. rewrite Hn'. simpl.
    eexists true, _. split; [done|].
    assert (∀ x y,
      count y (outgoing_of (update a (set_outgoing (λ l, (Array.remove b l).2)) t1) x)
      = count y (outgoing_of t x) - (if decide (x = a ∧ y = b) then 1 else 0) ∧
      count x (incoming_of (update a (set_outgoing (λ l, (Array.remove b l).2)) t1) y)
      = count x (incoming_of t y) - (if decide (x = a ∧ y = b) then 1 else 0))
      as Hcounts.
    { intros x y. rewrite outgoing_of_set_outgoing by by right.
      rewrite incoming_of_set_outgoing. unfold t1.
      rewrite outgoing_of_set_incoming, incoming_of_set_incoming by by right.
      split.
      - destruct (decide (x = a)) as [->|Hx].
        + rewrite count_removed.
          repeat case_decide; destruct_and?; subst; try congruence; try lia;
            exfalso; tauto.
        + repeat case_decide; destruct_and?; subst; try congruence; lia.
      - destruct (decide (y = b)) as [->|Hy].
        + rewrite count_removed.
          repeat case_decide; destruct_and?; subst; try congruence; try lia;
            exfalso; tauto.
        + repeat case_decide; destruct_and?; subst; try congruence; lia. }
    split_and!.
    + split; [intros _; by apply Hiff|done].
    + intros x y. destruct (Hcounts x y) as [-> ->]. by rewrite Hbal.
    + eapply same_structure_trans;
        [apply same_structure_set_incoming|apply same_structure_set_outgoing].
    + intros x y. by destruct (Hcounts x y) as [-> _].
  - assert (a ∉ incoming m) as Hn.
    { intros Hin. apply remove_true_iff in Hin. congruence. }
    eexists false, _. split; [done|]. split_and!.
    + split; [done|]. intros Hin. by apply Hiff in Hin.
    + done.
    + apply same_structure_refl.
    + intros x y. case_decide as Hxy; [|lia]. destruct Hxy as [-> ->].
      assert (count b (outgoing_of t a) = 0); [|lia].
      destruct (count b (outgoing_of t a)) eqn:Ec; [done|].
      exfalso. apply Hn, Hiff, count_pos. lia.
Qed.

Lemma removeEdge_balanced_witness :
  ∃ res t', removeEdge 3 5 linked = Done (res, t') ∧
            (res = true ↔ 5 ∈ outgoing_of linked 3) ∧
            balanced t' ∧ same_structure linked t' ∧
            ∀ x y, count y (outgoing_of t' x)
                   = count y (outgoing_of linked x)
                     - (if decide (x = 3 ∧ y = 5) then 1 else 0).
Proof.
  apply (removeEdge_balanced linked 3 5).
  - apply linked_balanced.
  - vm_compute. by eexists.
Defined.

(** X19.  Adding an edge that is not there yet and removing it again
    gives back the very same tree, and [removeEdge] answers [true]. *)
Theorem addEdge_removeEdge_round_trip t a b :
  is_Some (heap t !! a) → is_Some (heap t !! b) →
  b ∉ outgoing_of t a → a ∉ incoming_of t b →
  addEdge a b t ≫= removeEdge a b = Done (true, t).
Proof.
  intros Ha Hb Hout Hin. rewrite addEdge_run by done. simpl.
  set (t1 := update b (set_incoming (Array.add a)) t).
  set (t2 := update a (set_outgoing (Array.add b)) t1).
  assert (is_Some (heap t2 !! b)) as [m Hm] by (by do 2 apply is_Some_update).
  unfold removeEdge, deref. rewrite Hm. simpl.
  assert (incoming m = incoming_of t b ++ [a]) as Em.
  { transitivity (incoming_of t2 b); [unfold incoming_of; by rewrite Hm|].
    unfold t2, t1. rewrite incoming_of_set_outgoing.
    rewrite incoming_of_set_incoming by by left. by rewrite decide_True. }
  rewrite Em, remove_snoc_fresh by done. simpl.
  set (t3 := update b _ t2).
  assert (is_Some (heap t3 !! a)) as [n Hn] by (by do 3 apply is_Some_update).
  assert (Hn' := Hn). unfold t3, update in Hn'. simpl in Hn'. rewrite Hn'.
  simpl. do 2 f_equal.
  unfold outgoing_of, incoming_of in Hout, Hin.
  destruct Ha as [na Hna], Hb as [nb Hnb]. rewrite Hna in Hout. rewrite Hnb in Hin.
  clear Hm Em Hn Hn'. unfold t3, t2, t1, update. clear t3 t2 t1.
  destruct t as [h ns rt]. simpl in *. f_equal.
  apply map_eq. intros k.
  destruct (decide (k = a)) as [Ea|Hka]; destruct (decide (k = b)) as [Eb|Hkb];
    subst;
    repeat first [rewrite lookup_alter_eq | rewrite lookup_alter_ne by done];
    try done.
  - assert (na = nb) as <- by congruence. rewrite Hnb. simpl. f_equal.
    destruct na as [o i c ix p]. unfold set_outgoing, set_incoming. simpl in *.
    unfold Array.add. by rewrite !remove_snoc_fresh.
  - rewrite Hna. simpl. f_equal.
    destruct na as [o i c ix p]. unfold set_outgoing, set_incoming. simpl in *.
    unfold Array.add. by rewrite !remove_snoc_fresh.
  - rewrite Hnb. simpl. f_equal.
    destruct nb as [o i c ix p]. unfold set_outgoing, set_incoming. simpl in *.
    unfold Array.add. by rewrite !remove_snoc_fresh.
Qed.

Lemma addEdge_removeEdge_round_trip_witness :
  addEdge 4 3 linked ≫= removeEdge 4 3 = Done (true, linked).
Proof.
  apply (addEdge_removeEdge_round_trip linked 4 3).
  - vm_compute. by eexists.
  - vm_compute. by eexists.
  - vm_compute. by intros ?%list_elem_of_singleton.
  - vm_compute. by intros ?%list_elem_of_singleton.
Defined.

Lemma clearEdges_facts t this (fuel : nat) :
  balanced t → is_Some (heap t !! this) →
  length (incoming_of t this) ≤ fuel → length (outgoing_of t this) ≤ fuel →
  ∃ t', clearEdges fuel this t = Done t' ∧
        balanced t' ∧ same_structure t t' ∧
        outgoing_of t' this = [] ∧ incoming_of t' this = [] ∧
        (∀ x, (this ∉ outgoing_of t' x) ∧ (this ∉ incoming_of t' x)) ∧
        (∀ x y, x ≠ this → y ≠ this →
                count y (outgoing_of t' x) = count y (outgoing_of t x)).
Proof.
  intros Hbal Hthis Hlin Hlout. unfold clearEdges.
  rewrite clearEdges_incoming_run; [|done| |lia].
  2: { intros src Hsrc. by destruct (balanced_closed t src this Hbal) as [? _]; [right|]. }
  rewrite drop_0. simpl.
  set (t1 := unlink_outgoing this (incoming_of t this) t).
  destruct (unlink_outgoing_facts this (incoming_of t this) t) as (Hs1 & Hd1 & Hi1 & Hc1).
  fold t1 in Hs1, Hd1, Hi1, Hc1.
  assert (∀ y, y ∈ outgoing_of t1 this → y ∈ outgoing_of t this) as Hsub.
  { intros y Hy. apply count_pos in Hy. rewrite Hc1 in Hy. apply count_pos. lia. }
  rewrite clearEdges_outgoing_run; [|by apply Hd1| |].
  2: { intros dst Hdst. apply Hd1.
       by destruct (balanced_closed t this dst Hbal) as [_ ?]; [left; by apply Hsub|]. }
  2: { pose proof (unlink_outgoing_length this (incoming_of t this) t this).
       fold t1 in H. lia. }
  rewrite drop_0. simpl.
  set (t2 := unlink_incoming this (outgoing_of t1 this) t1).
  destruct (unlink_incoming_facts this (outgoing_of t1 this) t1) as (Hs2 & Hd2 & Ho2 & Hc2).
  fold t2 in Hs2, Hd2, Ho2, Hc2.
  set (t3 := update this (set_outgoing (λ _, [])) (update this (set_incoming (λ _, [])) t2)).
  assert (∀ x, outgoing_of t3 x = if decide (x = this) then [] else outgoing_of t1 x) as Ho3.
  { intros x. unfold t3. rewrite outgoing_of_set_outgoing by by right.
    by rewrite outgoing_of_set_incoming, Ho2. }
  assert (∀ x, incoming_of t3 x = if decide (x = this) then [] else incoming_of t2 x) as Hi3.
  { intros x. unfold t3. rewrite incoming_of_set_outgoing.
    by rewrite incoming_of_set_incoming by by right. }
  assert (∀ x y, count y (outgoing_of t3 x)
                 = if decide (x = this ∨ y = this) then 0 else count y (outgoing_of t x))
    as Hco.
  { intros x y. rewrite Ho3. destruct (decide (x = this)) as [->|Hx].
    - by rewrite decide_True by by left.
    - rewrite Hc1. destruct (decide (y = this)) as [->|Hy].
      + rewrite decide_True by by right. rewrite (Hbal x this). lia.
      + rewrite decide_False by tauto. lia. }
  assert (∀ x y, count x (incoming_of t3 y)
                 = if decide (x = this ∨ y = this) then 0 else count x (incoming_of t y))
    as Hci.
  { intros x y. rewrite Hi3. destruct (decide (y = this)) as [->|Hy].
    - by rewrite decide_True by by right.
    - rewrite Hc2, Hi1. destruct (decide (x = this)) as [->|Hx].
      + rewrite decide_True by by left. rewrite Hc1.
        rewrite decide_False by done. rewrite (Hbal this y). lia.
      + rewrite decide_False by tauto. lia. }
  exists t3. split; [done|]. split_and!.
  - intros x y. rewrite Hco, Hci. case_decide; [done|]. apply Hbal.
  - eapply same_structure_trans; [exact Hs1|].
    eapply same_structure_trans; [exact Hs2|].
    eapply same_structure_trans;
      [apply same_structure_set_incoming|apply same_structure_set_outgoing].
  - by rewrite Ho3, decide_True.
  - by rewrite Hi3, decide_True.
  - intros x. split; intros Hin%count_pos.
    + rewrite Hco, decide_True in Hin by by right. lia.
    + rewrite Hci, decide_True in Hin by by left. lia.
  - intros x y Hx Hy. rewrite Hco. by rewrite decide_False by tauto.
Qed.

(** X20.  On a balanced tree [this.clearEdges()] returns once the step
    budget covers both edge arrays of [this]; afterwards [this] has no
    edges and no node mentions it, the edges between other nodes are
    counted as before, the tree is balanced, and the parent-child
    structure is untouched. *)
Theorem clearEdges_isolates t this (fuel : nat) :
  balanced t → is_Some (heap t !! this) →
  length (incoming_of t this) ≤ fuel → length (outgoing_of t this) ≤ fuel →
  ∃ t', clearEdges fuel this t = Done t' ∧
        balanced t' ∧ same_structure t t' ∧
        outgoing_of t' this = [] ∧ incoming_of t' this = [] ∧
        (∀ x, (this ∉ outgoing_of t' x) ∧ (this ∉ incoming_of t' x)) ∧
        (∀ x y, x ≠ this → y ≠ this →
                count y (outgoing_of t' x) = count y (outgoing_of t x)).
Proof. apply clearEdges_facts. Qed.

Lemma clearEdges_isolates_witness :
  ∃ t', clearEdges 2 5 linked = Done t' ∧
        balanced t' ∧ same_structure linked t' ∧
        outgoing_of t' 5 = [] ∧ incoming_of t' 5 = [] ∧
        (∀ x, (5 ∉ outgoing_of t' x) ∧ (5 ∉ incoming_of t' x)) ∧
        (∀ x y, x ≠ 5 → y ≠ 5 →
                count y (outgoing_of t' x) = count y (outgoing_of linked x)).
Proof.
  apply (clearEdges_isolates linked 5 2).
  - apply linked_balanced.
  - vm_compute. by eexists.
  - vm_compute. lia.
  - vm_compute. lia.
Defined.

End edge_theorems.

(** * Removing a leaf *)

Section removeChild_facts.
Import Tree Edges.
Implicit Types (t : Tree) (r x : ref).

Lemma removeChild_S (f : nat) this child t :
  removeChild (S f) this child t
  = (_ ← deref this t;
     let t1 := update this (set_children (λ l, (Array.remove child l).2)) t in
     t2 ← clearEdges f child t1;
     t3 ← clearChildren_from f child 0 t2;
     c ← deref child t3;
     let t4 := set_nodes (delete (index c)) t3 in
     renumber (length (nodes t4) - index c) (index c) t4).
Proof. reflexivity. Qed.

Lemma clearChildren_from_S (f : nat) this i t :
  clearChildren_from (S f) this i t
  = (n ← deref this t;
     match children n !! i with
     | None => Done t
     | Some c => t' ← removeChild f this c t; clearChildren_from f this (S i) t'
     end).
Proof. reflexivity. Qed.

Lemma lookup_update r f t x :
  heap (update r f t) !! x = if decide (r = x) then f <$> heap t !! r else heap t !! x.
Proof. unfold update. simpl. apply lookup_alter. Qed.

Lemma NoDup_delete_fresh (l : list ref) k x :
  NoDup l → l !! k = Some x → x ∉ delete k l.
Proof.
  intros Hnd Hk Hin. apply list_elem_of_lookup in Hin as [j Hj].
  rewrite list_lookup_delete in Hj. case_decide.
  - pose proof (NoDup_lookup _ _ _ _ Hnd Hk Hj). lia.
  - pose proof (NoDup_lookup _ _ _ _ Hnd Hk Hj). lia.
Qed.

(** The renumbering loop writes its position into every node from
    position [i] on, and touches nothing else. *)
Lemma renumber_spec (cnt : nat) :
  ∀ i t,
    i + cnt = length (nodes t) → NoDup (nodes t) →
    (∀ r, r ∈ nodes t → is_Some (heap t !! r)) →
    ∃ t', renumber cnt i t = Done t' ∧ nodes t' = nodes t ∧ root t' = root t ∧
          ∀ r, (∀ j, i ≤ j → nodes t !! j = Some r →
                     heap t' !! r = set_index j <$> heap t !! r) ∧
               (r ∉ drop i (nodes t) → heap t' !! r = heap t !! r).
Proof.
  induction cnt as [|cnt IH]; intros i t Hlen Hnd Hcl.
  - exists t. simpl. split_and!; [done..|]. intros r. split; [|done].
    intros j Hj Hjr. apply lookup_lt_Some in Hjr. lia.
  - simpl. destruct (lookup_lt_is_Some_2 (nodes t) i) as [r0 Hr0]; [lia|].
    rewrite Hr0. destruct (Hcl r0) as [n0 Hn0]; [by eapply list_elem_of_lookup_2|].
    unfold deref. rewrite Hn0. simpl.
    set (t1 := update r0 (set_index i) t).
    destruct (IH (S i) t1) as (t' & Hrun & Hnodes & Hroot & Hheap).
    { simpl. lia. }
    { done. }
    { intros r Hr. apply is_Some_update. by apply Hcl. }
    exists t'. split_and!; [done..|]. intros r. split.
    + intros j Hj Hjr. destruct (decide (j = i)) as [->|Hne].
      * assert (r = r0) as -> by congruence.
        rewrite (proj2 (Hheap r0)).
        -- unfold t1. rewrite lookup_update. by rewrite decide_True.
        -- intros Hin. apply list_elem_of_lookup in Hin as [j' Hj'].
           rewrite lookup_drop in Hj'. simpl in Hj'.
           pose proof (NoDup_lookup _ _ _ _ Hnd Hr0 Hj'). lia.
      * rewrite (proj1 (Hheap r) j) by (lia || done).
        unfold t1. rewrite lookup_update. rewrite decide_False; [done|].
        intros ->. pose proof (NoDup_lookup _ _ _ _ Hnd Hr0 Hjr). lia.
    + intros Hnot.
      assert (r0 ≠ r) as Hne.
      { intros ->. apply Hnot. apply list_elem_of_lookup. exists 0.
        by rewrite lookup_drop, Nat.add_0_r. }
      rewrite (proj2 (Hheap r)).
      * unfold t1. rewrite lookup_update. by rewrite decide_False.
      * intros Hin. apply Hnot. rewrite (drop_S _ _ _ Hr0). by right.
Qed.

Lemma bind_Done {A B} (a : A) (f : A → outcome B) : (Done a ≫= f) = f a.
Proof. reflexivity. Qed.

Lemma deref_Some r t n : heap t !! r = Some n → deref r t = Done n.
Proof. unfold deref. by intros ->. Qed.

Lemma edges_set_children r f t x :
  outgoing_of (update r (set_children f) t) x = outgoing_of t x ∧
  incoming_of (update r (set_children f) t) x = incoming_of t x.
Proof.
  unfold outgoing_of, incoming_of. rewrite lookup_update.
  case_decide as E; [|done]. subst. by destruct (heap t !! x).
Qed.

(** Renumbering changes no field but [index]. *)
Lemma renumber_fields t t' (i : nat) :
  (∀ r, (∀ j, i ≤ j → nodes t !! j = Some r →
              heap t' !! r = set_index j <$> heap t !! r) ∧
        (r ∉ drop i (nodes t) → heap t' !! r = heap t !! r)) →
  ∀ r, (λ n, (outgoing n, incoming n, children n, parent n)) <$> heap t' !! r
       = (λ n, (outgoing n, incoming n, children n, parent n)) <$> heap t !! r.
Proof.
  intros Hheap r. destruct (decide (r ∈ drop i (nodes t))) as [Hin|Hnot].
  - apply list_elem_of_lookup in Hin as [j Hj]. rewrite lookup_drop in Hj.
    rewrite (proj1 (Hheap r) (i + j)) by (lia || done).
    by destruct (heap t !! r).
  - by rewrite (proj2 (Hheap r)).
Qed.

(** The table after a table node that is nobody's parent was cut out at
    position [k] and the loop renumbered the rest. *)
Lemma cut_table_wf t t4 t' child (k : nat) :
  wf_tree t → nodes t !! k = Some child →
  (∀ r, r ∈ nodes t → parent_of t r ≠ Some child) →
  nodes t4 = delete k (nodes t) → root t4 = root t →
  (∀ x n, heap t !! x = Some n →
     ∃ n4, heap t4 !! x = Some n4 ∧ index n4 = index n ∧ parent n4 = parent n) →
  nodes t' = nodes t4 → root t' = root t4 →
  (∀ r, (∀ j, k ≤ j → nodes t4 !! j = Some r →
              heap t' !! r = set_index j <$> heap t4 !! r) ∧
        (r ∉ drop k (nodes t4) → heap t' !! r = heap t4 !! r)) →
  wf_tree t'.
Proof.
  intros [Hnd Hwf] Hk Hnopar Hnodes4 Hroot4 Hkeep Hnodes' Hroot' Hheap.
  rewrite Forall_forall in Hwf.
  assert (NoDup (nodes t4)) as Hnd4.
  { rewrite Hnodes4. eapply sublist_NoDup; [exact Hnd|apply sublist_delete]. }
  set (slide := λ j : nat, if decide (j < k) then j else j - 1).
  assert (∀ x n, x ≠ child → heap t !! x = Some n → nodes t !! index n = Some x →
            ∃ n', heap t' !! x = Some n' ∧ parent n' = parent n ∧
                  index n' = slide (index n) ∧ nodes t' !! index n' = Some x ∧
                  index n ≠ k) as Hmove.
  { intros x n Hx Hn Hpos.
    assert (index n ≠ k) as Hne by (intros E; rewrite E in Hpos; congruence).
    destruct (Hkeep x n Hn) as (n4 & Hn4 & Ei & Ep).
    unfold slide. destruct (decide (index n < k)) as [Hlt|Hge].
    - assert (nodes t4 !! index n = Some x) as Hpos4.
      { by rewrite Hnodes4, list_lookup_delete_lt. }
      exists n4. rewrite (proj2 (Hheap x)).
      + rewrite Hnodes', Ei. done.
      + intros Hin. apply list_elem_of_lookup in Hin as [j Hj].
        rewrite lookup_drop in Hj.
        pose proof (NoDup_lookup _ _ _ _ Hnd4 Hpos4 Hj). lia.
    - assert (nodes t4 !! (index n - 1) = Some x) as Hpos4.
      { rewrite Hnodes4, list_lookup_delete_ge by lia.
        by replace (S (index n - 1)) with (index n) by lia. }
      exists (set_index (index n - 1) n4).
      rewrite (proj1 (Hheap x) (index n - 1)) by (lia || done).
      rewrite Hn4, Hnodes'. simpl. done. }
  assert (∀ i j, i ≠ k → j ≠ k → i < j → slide i < slide j) as Hmono.
  { intros i j Hi Hj Hij. unfold slide. repeat case_decide; lia. }
  split; [by rewrite Hnodes'|].
  rewrite Forall_forall. intros r Hr. rewrite Hnodes', Hnodes4 in Hr.
  assert (r ≠ child) as Hrc.
  { intros ->. by apply (NoDup_delete_fresh (nodes t) k child Hnd Hk). }
  assert (r ∈ nodes t) as Hrt by (eapply elem_of_sublist; [exact Hr|apply sublist_delete]).
  destruct (proj1 (wf_node_spec t r) (Hwf r Hrt)) as (n & Hn & Hpos & Hrootn & Hpar).
  destruct (Hmove r n Hrc Hn Hpos) as (n' & Hn' & Ep & Ei & Hpos' & Hik).
  apply wf_node_spec. exists n'. split_and!; [done..| |].
  - rewrite Ep, Hroot', Hroot4. done.
  - intros p Hp. rewrite Ep in Hp. destruct (Hpar p Hp) as (pn & Hpn & Hppos & Hlt).
    assert (p ≠ child) as Hpc.
    { intros ->. apply (Hnopar r Hrt). unfold parent_of. by rewrite Hn. }
    destruct (Hmove p pn Hpc Hpn Hppos) as (pn' & Hpn' & _ & Epi & Hppos' & Hpk).
    exists pn'. split_and!; [done..|]. rewrite Epi, Ei. by apply Hmono.
Qed.

End removeChild_facts.

Section leaf_removal.
Import Tree Edges.

(** X21.  Removing a leaf works: on a well-formed, balanced tree
    [this.removeChild(child)], for a table node [child] without children
    that no table node names as its parent, returns; [child] is cut out of
    the table, the other nodes keep their order and are renumbered, the
    table invariants (heap ordering included) and the balance of the edges
    hold again, and [child] is gone from [this.children]. *)
Theorem removeChild_leaf (t : Tree) (this child : ref) (c : Node) (fuel : nat) :
  wf_tree t → balanced t → is_Some (heap t !! this) →
  child ∈ nodes t → heap t !! child = Some c → children c = [] →
  (∀ r, r ∈ nodes t → parent_of t r ≠ Some child) →
  S (S (length (incoming c) + length (outgoing c))) ≤ fuel →
  ∃ t', removeChild fuel this child t = Done t' ∧
        nodes t' = delete (index c) (nodes t) ∧ (child ∉ nodes t') ∧
        wf_tree t' ∧ balanced t' ∧
        children <$> heap t' !! this
        = (λ n, (Array.remove child (children n)).2) <$> heap t !! this.
Proof.
  intros Hwf Hbal [nthis Hthis] Hchild Hc Hleaf Hnopar Hfuel.
  destruct fuel as [|[|f]]; [lia..|].
  rewrite removeChild_S, (deref_Some _ _ _ Hthis), bind_Done. cbv zeta.
  set (t1 := update this (set_children (λ l, (Array.remove child l).2)) t).
  assert (∀ x, outgoing_of t1 x = outgoing_of t x ∧ incoming_of t1 x = incoming_of t x)
    as Hedges1 by (intros x; apply edges_set_children).
  assert (balanced t1) as Hbal1.
  { intros a b. rewrite (proj1 (Hedges1 a)), (proj2 (Hedges1 b)). apply Hbal. }
  assert (∀ x n, heap t !! x = Some n →
            ∃ n1, heap t1 !! x = Some n1 ∧ index n1 = index n ∧ parent n1 = parent n ∧
                  (x ≠ this → children n1 = children n)) as Hkeep1.
  { intros x n Hn. unfold t1. rewrite lookup_update. case_decide as E.
    - subst x. rewrite Hn. simpl. eexists. by split_and!.
    - exists n. by split_and!. }
  assert (∃ c1, heap t1 !! child = Some c1 ∧ index c1 = index c ∧ children c1 = [])
    as (c1 & Hc1 & Eic1 & Elc1).
  { unfold t1. rewrite lookup_update. case_decide as E.
    - subst this. rewrite Hc. simpl. eexists. split_and!; [done..|].
      simpl. by rewrite Hleaf.
    - exists c. by split_and!. }
  assert (incoming_of t child = incoming c ∧ outgoing_of t child = outgoing c)
    as [Einc Eout] by (unfold incoming_of, outgoing_of; by rewrite Hc).
  destruct (clearEdges_facts t1 child (S f)) as (t2 & Hrun2 & Hbal2 & Hs12 & _).
  { done. }
  { by eexists. }
  { rewrite (proj2 (Hedges1 child)), Einc. lia. }
  { rewrite (proj1 (Hedges1 child)), Eout. lia. }
  rewrite Hrun2, bind_Done. destruct Hs12 as (Hnodes2 & Hroot2 & Hshape2).
  assert (∀ x n1, heap t1 !! x = Some n1 →
            ∃ n2, heap t2 !! x = Some n2 ∧ index n2 = index n1 ∧
                  parent n2 = parent n1 ∧ children n2 = children n1) as Hkeep2.
  { intros x n1 Hn1. specialize (Hshape2 x). rewrite Hn1 in Hshape2.
    destruct (heap t2 !! x) as [n2|]; [|done]. injection Hshape2 as E1 E2 E3.
    exists n2. by split_and!. }
  destruct (Hkeep2 child c1 Hc1) as (c2 & Hc2 & Eic2 & _ & Elc2).
  rewrite clearChildren_from_S, (deref_Some _ _ _ Hc2), bind_Done.
  rewrite Elc2, Elc1. simpl lookup. cbv iota. rewrite bind_Done.
  rewrite (deref_Some _ _ _ Hc2), bind_Done. cbv zeta.
  rewrite Eic2, Eic1. set (k := index c).
  set (t4 := set_nodes (delete k) t2).
  destruct Hwf as [Hnd Hwf'].
  assert (nodes t !! k = Some child) as Hk.
  { rewrite Forall_forall in Hwf'.
    destruct (proj1 (wf_node_spec t child) (Hwf' child Hchild)) as (n & Hn & Hpos & _).
    unfold k. congruence. }
  assert (nodes t4 = delete k (nodes t)) as Hnodes4.
  { unfold t4, set_nodes. simpl. by rewrite Hnodes2. }
  assert (NoDup (nodes t4)) as Hnd4.
  { rewrite Hnodes4. eapply sublist_NoDup; [exact Hnd|apply sublist_delete]. }
  assert (∀ x n, heap t !! x = Some n →
            ∃ n4, heap t4 !! x = Some n4 ∧ index n4 = index n ∧ parent n4 = parent n)
    as Hkeep4.
  { intros x n Hn. destruct (Hkeep1 x n Hn) as (n1 & Hn1 & E1 & E2 & _).
    destruct (Hkeep2 x n1 Hn1) as (n2 & Hn2 & E3 & E4 & _).
    exists n2. split_and!; [done|congruence..]. }
  destruct (renumber_spec (length (nodes t4) - k) k t4)
    as (t' & Hrun' & Hnodes' & Hroot' & Hheap').
  { rewrite Hnodes4, length_delete by (by eexists).
    apply lookup_lt_Some in Hk. lia. }
  { done. }
  { intros r Hr. rewrite Hnodes4 in Hr.
    assert (r ∈ nodes t) as Hrt
      by (eapply elem_of_sublist; [exact Hr|apply sublist_delete]).
    rewrite Forall_forall in Hwf'.
    destruct (proj1 (wf_node_spec t r) (Hwf' r Hrt)) as (n & Hn & _).
    destruct (Hkeep4 r n Hn) as (n4 & Hn4 & _). by eexists. }
  exists t'. split; [exact Hrun'|].
  pose proof (renumber_fields t4 t' k Hheap') as Hfields.
  assert (∀ x, outgoing_of t' x = outgoing_of t2 x ∧ incoming_of t' x = incoming_of t2 x)
    as Hedges'.
  { intros x. specialize (Hfields x). unfold outgoing_of, incoming_of.
    change (heap t2) with (heap t4).
    destruct (heap t' !! x), (heap t4 !! x); simpl in Hfields; try done.
    by injection Hfields as -> -> _ _. }
  split_and!.
  - by rewrite Hnodes', Hnodes4.
  - rewrite Hnodes', Hnodes4. by apply NoDup_delete_fresh.
  - by apply (cut_table_wf t t4 t' child k).
  - intros a b. rewrite (proj1 (Hedges' a)), (proj2 (Hedges' b)). apply Hbal2.
  - specialize (Hfields this). change (heap t4) with (heap t2) in Hfields.
    specialize (Hshape2 this). rewrite Hthis. simpl.
    assert (heap t1 !! this = Some (set_children (λ l, (Array.remove child l).2) nthis))
      as H1.
    { unfold t1. rewrite lookup_update, decide_True by done. by rewrite Hthis. }
    rewrite H1 in Hshape2.
    destruct (heap t2 !! this) as [n2|]; [|done].
    destruct (heap t' !! this) as [n'|]; [|done].
    simpl in *. injection Hfields as _ _ -> _. injection Hshape2 as -> _ _. done.
Qed.

Lemma removeChild_leaf_witness :
  ∃ t', removeChild 5 1 3 linked = Done t' ∧
        nodes t' = delete 3 (nodes linked) ∧ (3 ∉ nodes t') ∧
        wf_tree t' ∧ balanced t' ∧
        children <$> heap t' !! 1
        = (λ n, (Array.remove 3 (children n)).2) <$> heap linked !! 1.
Proof.
  apply (removeChild_leaf linked 1 3 (mkNode [5] [5] [] 3 (Some 1)) 5).
  - split.
    + by apply (bool_decide_unpack _); vm_compute.
    + assert (nodes linked = [0; 1; 2; 3; 4; 5]) as -> by (by vm_compute).
      repeat (apply Forall_cons; split; [vm_compute; repeat split; lia|]).
      by apply Forall_nil.
  - apply linked_balanced.
  - vm_compute. by eexists.
  - by apply (bool_decide_unpack _); vm_compute.
  - by vm_compute.
  - done.
  - assert (nodes linked = [0; 1; 2; 3; 4; 5]) as -> by (by vm_compute).
    apply Forall_forall.
    repeat (apply Forall_cons; split; [by vm_compute|]). by apply Forall_nil.
  - simpl. lia.
Defined.

End leaf_removal.

(** * Properties of the circle layout *)

Section layout_bounds.
Import Tree CircleLayout LayoutBounds.
Local Open Scope R_scope.

Lemma count_loop_inv (f : nat) (tr : Tree) (depth : nat) (P : counts → Prop) :
  (∀ c st k st', count f tr c depth st = Done (k, st') → P st → P st') →
  ∀ cs sum st r st',
    (fix loop (cs : list ref) (sum : nat) (st : counts) : outcome (nat * counts) :=
       match cs with
       | [] => Done (sum, st)
       | c :: cs' =>
           '(k, st') ← count f tr c depth st;
           loop cs' (sum + k)%nat st'
       end) cs sum st = Done (r, st') →
    P st → P st'.
Proof.
  intros Hstep. induction cs as [|c cs IH]; intros sum st r st' Hrun HP.
  - by injection Hrun as _ <-.
  - destruct (count f tr c depth st) as [[k st1]| | |] eqn:Hc; try done.
    simpl in Hrun. eapply IH; [exact Hrun|]. by eapply Hstep.
Qed.

Lemma count_depths_bounded (fuel : nat) :
  ∀ tr node depth st k st',
    count fuel tr node depth st = Done (k, st') →
    depths_bounded st → depths_bounded st'.
Proof.
  induction fuel as [|f IH]; intros tr node depth st k st' Hrun HP; [done|].
  simpl in Hrun. destruct (deref node tr) as [n| | |]; try done. simpl in Hrun.
  match type of Hrun with
  | (?loop ?cs ?sum ?st0 ≫= _) = _ =>
      destruct (loop cs sum st0) as [[r st1]| | |] eqn:Hloop; try done
  end.
  simpl in Hrun. injection Hrun as _ <-.
  eapply (count_loop_inv f tr _ depths_bounded) in Hloop.
  - intros i d Hd. exact (Hloop i d Hd).
  - intros c st0 k0 st0'. apply IH.
  - clear Hloop IH. intros i d. simpl. intros Hd.
    destruct (decide (i = index n)) as [->|Hne].
    + rewrite lookup_insert_eq in Hd. injection Hd as <-.
      case_bool_decide; simpl; lia.
    + rewrite lookup_insert_ne in Hd by done.
      case_bool_decide; simpl in *; pose proof (HP i d Hd); lia.
Qed.

(** The radius that [place] uses for a recorded depth. *)
Lemma radius_bound (sr : R) (M d : nat) :
  0 <= sr <= 1 → (d ≤ M)%nat →
  let radius := if bool_decide (d = 0%nat) then 0 else sr + (1 - sr) / INR M * INR d in
  0 <= radius <= 1.
Proof.
  intros Hsr Hd radius. unfold radius. case_bool_decide as E; [lra|].
  assert (0 < INR d) as Hd0 by (apply lt_0_INR; lia).
  assert (INR d <= INR M) as HdM by (by apply le_INR).
  assert (0 < INR M) as HM by lra.
  assert (0 <= INR d / INR M <= 1) as [Hq0 Hq1].
  { split.
    - apply Rmult_le_pos; [lra|]. left. by apply Rinv_0_lt_compat.
    - apply (Rmult_le_reg_r (INR M)); [done|]. unfold Rdiv.
      rewrite Rmult_assoc, Rinv_l by lra. lra. }
  replace (sr + (1 - sr) / INR M * INR d) with (sr + (1 - sr) * (INR d / INR M))
    by (unfold Rdiv; ring).
  split; nra.
Qed.

Lemma place_in_unit_disc (this : t) (st : counts) (n : Node) (a : R) (out out' : placed) :
  0 <= startRadius this <= 1 → depths_bounded st →
  place this ((1 - startRadius this) / INR (maxDepth st)) st n a out = Done out' →
  in_unit_disc (positions out) → in_unit_disc (positions out').
Proof.
  intros Hsr Hst. unfold place.
  destruct (depthByNode st !! index n) as [d|] eqn:Hd; [|done]. simpl.
  intros [= <-] Hout i v. simpl.
  destruct (decide (i = index n)) as [->|Hne].
  - rewrite lookup_insert_eq. intros [= <-]. simpl.
    pose proof (radius_bound (startRadius this) (maxDepth st) d Hsr (Hst _ _ Hd)) as Hr.
    simpl in Hr. set (radius := if bool_decide (d = 0%nat) then _ else _) in *.
    set (b := a - PI / 2). pose proof (sin2_cos2 b) as Hsc. unfold Rsqr in Hsc.
    replace (cos b * radius * (cos b * radius) + sin b * radius * (sin b * radius))
      with ((sin b * sin b + cos b * cos b) * (radius * radius)) by ring.
    rewrite Hsc. nra.
  - rewrite lookup_insert_ne by done. apply Hout.
Qed.

Lemma placeAll_loop_inv (f : nat) (this : t) (rs : R) (st : counts) (start step : R)
    (P : placed → Prop) :
  (∀ c s e out log out' log',
     placeAll f this rs st c s e out log = Done (out', log') → P out → P out') →
  ∀ cs i out log out' log',
    (fix loop (cs : list ref) (i : nat) (out : placed) (log : list call)
       : outcome (placed * list call) :=
       match cs with
       | [] => Done (out, log)
       | c :: cs' =>
           cn ← deref c (tree this);
           k ← number_of (countByNode st !! index cn);
           let j := (i + k)%nat in
           '(out', log') ← placeAll f this rs st c
                              (start + INR i * step) (start + INR j * step) out log;
           loop cs' j out' log'
       end) cs i out log = Done (out', log') →
    P out → P out'.
Proof.
  intros Hstep. induction cs as [|c cs IH]; intros i out log out' log' Hrun HP.
  - by injection Hrun as <- _.
  - destruct (deref c (tree this)) as [cn| | |]; try done. simpl in Hrun.
    destruct (countByNode st !! index cn) as [k|]; try done. simpl in Hrun.
    match type of Hrun with
    | (?call ≫= _) = _ => destruct call as [[out1 log1]| | |] eqn:Hc; try done
    end.
    simpl in Hrun. eapply IH; [exact Hrun|]. by eapply Hstep.
Qed.

Lemma placeAll_in_unit_disc (fuel : nat) (this : t) (st : counts) :
  0 <= startRadius this <= 1 → depths_bounded st →
  ∀ node s e out log out' log',
    placeAll fuel this ((1 - startRadius this) / INR (maxDepth st)) st node s e out log
    = Done (out', log') →
    in_unit_disc (positions out) → in_unit_disc (positions out').
Proof.
  intros Hsr Hst. induction fuel as [|f IH]; intros node s e out log out' log' Hrun Hout;
    [done|].
  simpl in Hrun. destruct (deref node (tree this)) as [n| | |]; try done.
  simpl in Hrun.
  destruct (place this _ st n ((s + e) / 2) out) as [out1| | |] eqn:Hplace; try done.
  simpl in Hrun.
  destruct (countByNode st !! index n) as [cnt|]; try done. simpl in Hrun.
  eapply (placeAll_loop_inv f this _ st s _ (λ o, in_unit_disc (positions o)))
    in Hrun; [done| |].
  - intros c s0 e0 o l o' l'. apply IH.
  - by eapply place_in_unit_disc.
Qed.

Lemma count_loop_lower (f : nat) (tr : Tree) (depth : nat) :
  (∀ c st k st', count f tr c depth st = Done (k, st') → (1 ≤ k)%nat) →
  ∀ cs sum st r st',
    (fix loop (cs : list ref) (sum : nat) (st : counts) : outcome (nat * counts) :=
       match cs with
       | [] => Done (sum, st)
       | c :: cs' =>
           '(k, st') ← count f tr c depth st;
           loop cs' (sum + k)%nat st'
       end) cs sum st = Done (r, st') →
    (sum + length cs ≤ r)%nat.
Proof.
  intros Hstep. induction cs as [|c cs IH]; intros sum st r st' Hrun.
  - injection Hrun as <- _. simpl. lia.
  - destruct (count f tr c depth st) as [[k st1]| | |] eqn:Hc; try done.
    simpl in Hrun. apply IH in Hrun. apply Hstep in Hc. simpl. lia.
Qed.

Lemma count_weight (fuel : nat) :
  ∀ tr node depth st k st',
    count fuel tr node depth st = Done (k, st') →
    ∃ n, deref node tr = Done n ∧
         (length (children n) < k)%nat ∧
         (children n = [] → k = 1%nat) ∧
         countByNode st' !! index n = Some k.
Proof.
  induction fuel as [|f IH]; intros tr node depth st k st' Hrun; [done|].
  simpl in Hrun. destruct (deref node tr) as [n| | |]; try done. simpl in Hrun.
  match type of Hrun with
  | (?loop ?cs ?sum ?st0 ≫= _) = _ =>
      destruct (loop cs sum st0) as [[r st1]| | |] eqn:Hloop; try done
  end.
  simpl in Hrun. injection Hrun as <- <-. exists n. split; [done|].
  split_and!.
  - apply (count_loop_lower f tr) in Hloop.
    + clear IH. case_bool_decide; case_bool_decide; lia.
    + intros c st0 k0 st0' Hc. destruct (IH _ _ _ _ _ _ Hc) as (? & _ & ? & _). lia.
  - clear IH. intros E. rewrite E in Hloop. injection Hloop as <- _.
    rewrite E. simpl. done.
  - simpl. by rewrite lookup_insert_eq.
Qed.

Lemma sample_init_returns (f : nat) :
  ∃ layout, init (S (S (S f))) (new Scenario.sample) = Done layout.
Proof.
  destruct (sample_count f)
    as (st & Hc & Hmax & C0 & C1 & C2 & C3 & C4 & C5 & D0 & D1 & D2 & D3 & D4 & D5).
  destruct sample_deref as (N0 & N1 & N2 & N3 & N4 & N5).
  assert (Tree.root Scenario.sample = 0%nat) as Hroot by (by vm_compute).
  eexists. unfold init, init_log.
  cbn [new tree startAngle endAngle startRadius sort].
  rewrite Hroot, Hc. cbn [mbind outcome_bind]. rewrite Hmax.
  cbn [placeAll].
  cbn [new tree startAngle endAngle startRadius sort].
  unfold place.
  repeat (first [rewrite N0|rewrite N1|rewrite N2|rewrite N3|rewrite N4|rewrite N5];
    cbn [mbind outcome_bind Tree.index Tree.children order sort new];
    rewrite ?D0, ?D1, ?D2, ?D3, ?D4, ?D5, ?C0, ?C1, ?C2, ?C3, ?C4, ?C5;
    cbn [mbind outcome_bind number_of]).
  cbn [fmap outcome_fmap fst]. reflexivity.
Qed.

End layout_bounds.



(** X23.  The weight that [count] returns for a node is recorded under the
    node's index, is 1 for a leaf, and is greater than the number of the
    node's children; so it is never 0, and [placeAll] never divides a span
    by zero. *)
Theorem count_weight_positive (fuel : nat) (tr : Tree.Tree) (node : Tree.ref)
    (depth : nat) (st st' : CircleLayout.counts) (k : nat) :
  CircleLayout.count fuel tr node depth st = Done (k, st') →
  ∃ n, Tree.deref node tr = Done n ∧
       1 ≤ k ∧ length (Tree.children n) < k ∧
       (Tree.children n = [] → k = 1) ∧
       CircleLayout.countByNode st' !! Tree.index n = Some k.
Proof.
  intros Hrun. destruct (count_weight _ _ _ _ _ _ _ Hrun) as (n & Hn & Hlt & Hleaf & Hrec).
  exists n. split_and!; [done|lia|done..].
Qed.

Lemma count_weight_positive_witness :
  ∃ st', CircleLayout.count 3 Scenario.sample 0 0 (CircleLayout.mkCounts 0 ∅ ∅)
         = Done (5, st') ∧
    ∃ n, Tree.deref 0 Scenario.sample = Done n ∧
         1 ≤ 5 ∧ length (Tree.children n) < 5 ∧
         (Tree.children n = [] → 5 = 1) ∧
         CircleLayout.countByNode st' !! Tree.index n = Some 5.
Proof.
  destruct (sample_count 0) as (st' & Hc & _).
  exists st'. split; [exact Hc|].
  apply (count_weight_positive 3 Scenario.sample 0 0 (CircleLayout.mkCounts 0 ∅ ∅) st' 5).
  exact Hc.
Defined.

(** * The control path of the router *)

Section control_path.
Import Tree Chain BundledEdgeRouter ControlPath.

(** A chain does not come back to a node. *)
Lemma chain_once t c (xs : list ref) l rest :
  chain t c (xs ++ l :: rest) → l ∉ xs.
Proof.
  intros Hc Hin. apply list_elem_of_split in Hin as (ys & zs & ->).
  rewrite <-app_assoc in Hc. simpl in Hc.
  pose proof (chain_suffix t _ _ _ _ _ Hc eq_refl) as H1.
  pose proof (chain_suffix t _ _ (ys ++ l :: zs) _ _ Hc
                ltac:(by rewrite <-app_assoc)) as H2.
  pose proof (chain_fun t _ _ _ H1 H2) as E.
  apply (f_equal length) in E. rewrite !length_cons, length_app in E.
  simpl in E. lia.
Qed.

(** The least common ancestor as the place where the two chains meet. *)
Lemma lca_split t (a b : ref) (fuel : nat) :
  wf_tree t → a ∈ nodes t → b ∈ nodes t → length (nodes t) ≤ fuel →
  ∃ ua ub l rest,
    chain t a (ua ++ l :: rest) ∧ chain t b (ub ++ l :: rest) ∧
    (last ua ≠ last ub ∨ (ua = [] ∧ ub = [])) ∧
    length (ua ++ l :: rest) ≤ fuel ∧ length (ub ++ l :: rest) ≤ fuel ∧
    leastCommonAncestor fuel (Some a) (Some b) t = Done (Some l).
Proof.
  intros Hwf Ha Hb Hfuel.
  destruct (wf_chain_table t Hwf a Ha) as (la & Hla & Hlena & Hlasta).
  destruct (wf_chain_table t Hwf b Hb) as (lb & Hlb & Hlenb & Hlastb).
  unfold leastCommonAncestor.
  destruct (decide (Some a = Some b)) as [E|Hne].
  - assert (a = b) as <- by congruence.
    destruct (chain_head _ _ _ Hla) as [rest ->].
    exists [], [], a, rest. simpl in *. split_and!; try done; try lia. by right.
  - rewrite (ancestors_chain t fuel a la Hla) by lia. simpl.
    rewrite (ancestors_chain t fuel b lb Hlb) by lia. simpl.
    destruct (common_prefix (reverse la) (reverse lb)) as (P & sa & sb & EP & EQ & Hhd).
    { intros E. apply (f_equal reverse) in E. rewrite !reverse_involutive in E.
      subst. destruct (chain_head _ _ _ Hla) as [ra Era].
      destruct (chain_head _ _ _ Hlb) as [rb Erb]. congruence. }
    assert (la = reverse (P ++ sa)) as Ela by (by rewrite <-EP, reverse_involutive).
    assert (lb = reverse (P ++ sb)) as Elb by (by rewrite <-EQ, reverse_involutive).
    assert (∃ P' l, P = P' ++ [l]) as (P' & l & ->).
    { destruct (last P) as [l|] eqn:E; [apply last_Some in E as [P' ->]; eauto|].
      apply last_None in E as ->. exfalso. apply Hhd. simpl in *.
      by rewrite <-EP, <-EQ, !head_reverse, Hlasta, Hlastb. }
    assert (length (P' ++ [l]) ≤ fuel) as HlenP.
    { assert (length la = length (P' ++ [l]) + length sa) as E.
      { by rewrite Ela, length_reverse, length_app. }
      lia. }
    pose proof (lca_loop_prefix (P' ++ [l]) sa sb None fuel Hhd HlenP) as Hloop.
    rewrite <-Ela, <-Elb, last_snoc in Hloop.
    assert (la = reverse sa ++ l :: reverse P') as Ea.
    { by rewrite Ela, !reverse_app, reverse_singleton. }
    assert (lb = reverse sb ++ l :: reverse P') as Eb.
    { by rewrite Elb, !reverse_app, reverse_singleton. }
    exists (reverse sa), (reverse sb), l, (reverse P').
    rewrite <-Ea, <-Eb. split_and!; [done|done| |lia|lia|exact Hloop].
    left. by rewrite !last_reverse.
Qed.

Lemma ascend_chain (this : BundledEdgeRouter.t) (l : ref) (rest : list ref) :
  ∀ (ua : list ref) (fuel : nat) (points : list (option Vector)) (a : ref),
    chain (tree this) a (ua ++ l :: rest) → length ua ≤ fuel →
    ascend fuel this (Some l) (Some a) points
    = Done (points ++ (point_of this <$> tail (ua ++ [l]))).
Proof.
  induction ua as [|x ua IH]; intros fuel points a Hc Hlen.
  - destruct (chain_head _ _ _ Hc) as [? E]. simpl in E.
    assert (a = l) as -> by congruence.
    destruct fuel; simpl; rewrite decide_True by done; by rewrite app_nil_r.
  - pose proof (chain_once _ _ _ _ _ Hc) as Hl.
    destruct (chain_head _ _ _ Hc) as [? E]. simpl in E.
    assert (x = a) as -> by congruence. clear E.
    assert (a ≠ l) as Hal by (intros ->; apply Hl; left).
    destruct fuel as [|f]; [simpl in Hlen; lia|].
    simpl ascend. rewrite decide_False by congruence.
    simpl in Hc. inversion Hc as [|c n p l' Hn Hp Hc']; subst.
    { by destruct ua. }
    unfold deref. rewrite Hn. simpl. rewrite Hp.
    assert (∃ pn, heap (tree this) !! p = Some pn) as [pn Hpn]
      by (inversion Hc'; eauto).
    rewrite Hpn. simpl. rewrite (IH f _ p Hc') by (simpl in Hlen; lia).
    unfold Array.add. rewrite <-app_assoc. do 2 f_equal. simpl.
    destruct (chain_head _ _ _ Hc') as [tl' E].
    assert (∃ tl'', ua ++ [l] = p :: tl'') as [tl'' E'].
    { destruct ua as [|y ua]; simpl in *; [injection E as ->|injection E as -> _]; eauto. }
    rewrite E'. simpl. f_equal. unfold point_of. by rewrite Hpn.
Qed.

Lemma descend_chain (this : BundledEdgeRouter.t) (l : ref) (rest : list ref) (k : nat) :
  ∀ (ub : list ref) (fuel : nat) (points : list (option Vector)) (b : ref),
    chain (tree this) b (ub ++ l :: rest) → length ub ≤ fuel → k ≤ length points →
    descend fuel this (Some l) (Some b) k points
    = Done (take k points ++ reverse (point_of this <$> ub) ++ drop k points).
Proof.
  induction ub as [|x ub IH]; intros fuel points b Hc Hlen Hk.
  - destruct (chain_head _ _ _ Hc) as [? E]. simpl in E.
    assert (b = l) as -> by congruence.
    destruct fuel; simpl; rewrite decide_True by done; by rewrite take_drop.
  - pose proof (chain_once _ _ _ _ _ Hc) as Hl.
    destruct (chain_head _ _ _ Hc) as [? E]. simpl in E.
    assert (x = b) as -> by congruence. clear E.
    assert (b ≠ l) as Hbl by (intros ->; apply Hl; left).
    destruct fuel as [|f]; [simpl in Hlen; lia|].
    simpl descend. rewrite decide_False by congruence.
    simpl in Hc. inversion Hc as [|c n p l' Hn Hp Hc']; subst.
    { by destruct ub. }
    unfold deref. rewrite Hn. simpl. rewrite Hp.
    rewrite (IH f _ p Hc'); [|simpl in Hlen; lia|].
    2: { unfold Array.add_at. rewrite length_app, length_take. simpl.
         rewrite length_drop. lia. }
    unfold Array.add_at. f_equal.
    rewrite take_app_length' by (rewrite length_take; lia).
    rewrite drop_app_length' by (rewrite length_take; lia).
    rewrite reverse_cons, <-!app_assoc. simpl.
    do 3 f_equal. unfold point_of. by rewrite Hn.
Qed.

End control_path.

(** X24.  The control path of [_spline(i, j)] in general: in a well-formed
    tree, for table positions [i] and [j] and a step budget of at least the
    table size, the control points are those of the nodes on the way from
    node [i] up to the node [l] where the ancestor chains of the two nodes
    meet, then down to node [j]; [l] occurs once, and the chains part right
    below it. *)
Theorem spline_points_path (fuel : nat) (this : BundledEdgeRouter.t) (i j : nat)
    (a b : Tree.ref) :
  Tree.wf_tree (BundledEdgeRouter.tree this) →
  Tree.nodes (BundledEdgeRouter.tree this) !! i = Some a →
  Tree.nodes (BundledEdgeRouter.tree this) !! j = Some b →
  length (Tree.nodes (BundledEdgeRouter.tree this)) ≤ fuel →
  ∃ ua ub l rest,
    Chain.chain (BundledEdgeRouter.tree this) a (ua ++ l :: rest) ∧
    Chain.chain (BundledEdgeRouter.tree this) b (ub ++ l :: rest) ∧
    (last ua ≠ last ub ∨ (ua = [] ∧ ub = [])) ∧
    head (ua ++ l :: reverse ub) = Some a ∧
    last (ua ++ l :: reverse ub) = Some b ∧
    BundledEdgeRouter._spline_points fuel this i j
    = Done (ControlPath.point_of this <$> (ua ++ l :: reverse ub)).
Proof.
  intros Hwf Hi Hj Hfuel.
  assert (a ∈ Tree.nodes (BundledEdgeRouter.tree this)) as Ha
    by (by eapply list_elem_of_lookup_2).
  assert (b ∈ Tree.nodes (BundledEdgeRouter.tree this)) as Hb
    by (by eapply list_elem_of_lookup_2).
  destruct (lca_split _ a b fuel Hwf Ha Hb Hfuel)
    as (ua & ub & l & rest & Hca & Hcb & Hpart & Hlena & Hlenb & Hlca).
  exists ua, ub, l, rest.
  destruct (chain_head _ _ _ Hca) as [ta Eta].
  destruct (chain_head _ _ _ Hcb) as [tb Etb].
  assert (head (ua ++ [l]) = Some a) as Hhead.
  { destruct ua as [|y ua]; simpl in *; congruence. }
  split_and!; [done..| | |].
  - destruct ua as [|y ua]; simpl in *; congruence.
  - rewrite last_app, last_cons, last_reverse.
    destruct ub as [|y ub]; simpl in *; congruence.
  - unfold BundledEdgeRouter._spline_points. rewrite Hi, Hj, Hlca.
    cbn [mbind outcome_bind].
    assert (BundledEdgeRouter.transformPoint this (BundledEdgeRouter.position this i)
            = ControlPath.point_of this a) as ->.
    { destruct Hwf as [Hnd Hall]. rewrite Forall_forall in Hall.
      destruct (proj1 (wf_node_spec _ a) (Hall a Ha)) as (n & Hn & Hpos & _).
      pose proof (NoDup_lookup _ _ _ _ Hnd Hi Hpos) as ->.
      unfold ControlPath.point_of. by rewrite Hn. }
    rewrite length_app in Hlena, Hlenb.
    rewrite (ascend_chain this l rest ua fuel _ a Hca) by lia.
    cbn [mbind outcome_bind].
    set (pts := Array.add _ [] ++ _).
    rewrite (descend_chain this l rest _ ub fuel pts b Hcb) by (lia || done).
    rewrite firstn_all, drop_all, app_nil_r. f_equal.
    unfold pts, Array.add. simpl.
    replace (ua ++ l :: reverse ub) with ((ua ++ [l]) ++ reverse ub)
      by (by rewrite <-app_assoc).
    rewrite fmap_app, fmap_reverse.
    destruct (ua ++ [l]) as [|y tl'] eqn:E; [done|].
    simpl in Hhead. injection Hhead as ->. done.
Qed.

Lemma spline_points_path_witness :
  ∃ ua ub l rest,
    Chain.chain Scenario.sample 3 (ua ++ l :: rest) ∧
    Chain.chain Scenario.sample 5 (ub ++ l :: rest) ∧
    (last ua ≠ last ub ∨ (ua = [] ∧ ub = [])) ∧
    head (ua ++ l :: reverse ub) = Some 3 ∧
    last (ua ++ l :: reverse ub) = Some 5 ∧
    BundledEdgeRouter._spline_points 6
      (BundledEdgeRouter.new Scenario.sample Scenario.row_layout) 3 5
    = Done (ControlPath.point_of
              (BundledEdgeRouter.new Scenario.sample Scenario.row_layout)
            <$> (ua ++ l :: reverse ub)).
Proof.
  apply (spline_points_path 6
           (BundledEdgeRouter.new Scenario.sample Scenario.row_layout) 3 5 3 5).
  - exact sample_wf.
  - simpl. by rewrite sample_nodes.
  - simpl. by rewrite sample_nodes.
  - simpl. rewrite sample_nodes. simpl. lia.
Defined.

(** * Properties of the labeler *)

Section labeler_facts.
Import Tree RadialLabeler.
Local Open Scope R_scope.

(** The loop keeps the first nearest position seen so far. *)
Lemma nodeAt_loop_spec (this : RadialLabeler.t) (x y : R) (cnt : nat) :
  ∀ (i j : nat) (jd : option R),
    (∀ k, (i ≤ k < i + cnt)%nat → is_Some (transformPoint this (position this k))) →
    ∃ j', nodeAt_loop this x y cnt i j jd = Done j' ∧
      ((j' = j ∧ ∀ k p, (i ≤ k < i + cnt)%nat →
                  transformPoint this (position this k) = Some p →
                  closer (Vector.distance p x y) jd = false) ∨
       (∃ pj, (i ≤ j' < i + cnt)%nat ∧
              transformPoint this (position this j') = Some pj ∧
              closer (Vector.distance pj x y) jd = true ∧
              ∀ k p, (i ≤ k < i + cnt)%nat →
                     transformPoint this (position this k) = Some p →
                     Vector.distance pj x y <= Vector.distance p x y ∧
                     ((k < j')%nat → Vector.distance pj x y < Vector.distance p x y))).
Proof.
  induction cnt as [|c IH]; intros i j jd Hdef.
  - exists j. split; [done|]. left. split; [done|]. intros k p Hk. lia.
  - simpl. destruct (Hdef i ltac:(lia)) as [p Hp]. rewrite Hp.
    destruct (closer (Vector.distance p x y) jd) eqn:Hcl.
    + destruct (IH (S i) i (Some (Vector.distance p x y))) as (j' & Hrun & Hcase).
      { intros k Hk. apply Hdef. lia. }
      exists j'. split; [done|]. right.
      destruct Hcase as [[-> Hrest]|(pj & Hj' & Hpj & Hlt & Hmin)].
      * exists p. split; [lia|]. split; [done|]. split; [done|]. intros k q Hk Hq.
        destruct (decide (k = i)) as [->|Hne].
        -- assert (q = p) as -> by congruence. split; [lra|lia].
        -- specialize (Hrest k q ltac:(lia) Hq). simpl in Hrest.
           apply bool_decide_eq_false in Hrest. split; [lra|lia].
      * simpl in Hlt. apply bool_decide_eq_true in Hlt.
        exists pj. split; [lia|]. split; [done|]. split.
        -- destruct jd as [d|]; [|done]. simpl in *.
           apply bool_decide_eq_true in Hcl. apply bool_decide_eq_true. lra.
        -- intros k q Hk Hq. destruct (decide (k = i)) as [->|Hne].
           ++ assert (q = p) as -> by congruence. split; [lra|]. intros _. lra.
           ++ apply (Hmin k q); [lia|done].
    + destruct (IH (S i) j jd) as (j' & Hrun & Hcase).
      { intros k Hk. apply Hdef. lia. }
      exists j'. split; [done|].
      destruct Hcase as [[-> Hrest]|(pj & Hj' & Hpj & Hlt & Hmin)].
      * left. split; [done|]. intros k q Hk Hq.
        destruct (decide (k = i)) as [->|Hne]; [congruence|].
        apply (Hrest k q); [lia|done].
      * right. exists pj. split; [lia|]. split; [done|]. split; [done|].
        intros k q Hk Hq. destruct (decide (k = i)) as [->|Hne].
        -- assert (q = p) as -> by congruence.
           destruct jd as [d|]; [|done]. simpl in *.
           apply bool_decide_eq_true in Hlt. apply bool_decide_eq_false in Hcl.
           split; [lra|]. intros _. lra.
        -- apply (Hmin k q); [lia|done].
Qed.

End labeler_facts.



Section upside_down.
Import RadialLabeler.
Local Open Scope R_scope.

Lemma cos_period_Z (x : R) (k : Z) : cos (x + 2 * IZR k * PI) = cos x.
Proof.
  destruct (Z_le_gt_dec 0 k) as [Hk|Hk].
  - rewrite <-(Z2Nat.id k Hk), <-INR_IZR_INZ. apply cos_period.
  - assert (k = (- Z.of_nat (Z.to_nat (- k)))%Z) as -> by lia.
    rewrite opp_IZR, <-INR_IZR_INZ.
    rewrite <-(cos_period (x + 2 * - INR (Z.to_nat (- k)) * PI) (Z.to_nat (- k))).
    f_equal. ring.
Qed.

(** [rem] and the correction by [2π] bring the angle into [[0, 2π)]
    without changing it modulo [2π]. *)
Lemma normalise_angle (a : R) :
  let r := rem a (2 * PI) in
  let a' := if bool_decide (r < 0) then r + 2 * PI else r in
  0 <= a' < 2 * PI ∧ ∃ k : Z, a = a' + 2 * IZR k * PI.
Proof.
  pose proof PI_RGT_0 as Hpi. intros r a'. unfold a', r, rem, trunc. clear a' r.
  set (q := a / (2 * PI)).
  assert (a = q * (2 * PI)) as Ea by (unfold q; field; lra).
  destruct (decide (0 <= q)) as [Hq|Hq];
    [rewrite (bool_decide_eq_true_2 _ Hq)|rewrite (bool_decide_eq_false_2 _ Hq)].
  - destruct (base_Int_part q) as [H1 H2]. set (k := Int_part q) in *.
    assert (0 <= a - 2 * PI * IZR k < 2 * PI) as [Hlo Hhi].
    { rewrite Ea. split; nra. }
    rewrite bool_decide_eq_false_2 by lra. split; [lra|].
    exists k. lra.
  - destruct (base_Int_part (- q)) as [H1 H2]. set (m := Int_part (- q)) in *.
    rewrite opp_IZR.
    assert (- (2 * PI) < a - 2 * PI * - IZR m <= 0) as [Hlo Hhi].
    { rewrite Ea. split; nra. }
    case_bool_decide as Hneg.
    + split; [lra|]. exists (- m - 1)%Z. rewrite minus_IZR, opp_IZR. lra.
    + split; [lra|]. exists (- m)%Z. rewrite opp_IZR. lra.
Qed.

End upside_down.


(** * Properties of the path intersection test *)

Section path_intersects.
Import Path Flatten Subdivision PathIntersects.

Lemma intersect_swap (p1 p2 q1 q2 : Vector) :
  Line.intersect p1 p2 q1 q2 = Line.intersect q1 q2 p1 p2.
Proof.
  apply eq_true_iff_eq. rewrite !intersect_true_iff. split; intros H; nra.
Qed.

Lemma inner_spec (p1 p2 : Vector) (b : list Segment) :
  ∀ prev, (prev = None → begins_with_move b = true) → flat b = true →
    inner p1 p2 prev b
    = Done (existsb (λ q, Line.intersect p1 p2 q.1 q.2) (pieces prev b)).
Proof.
  induction b as [|s rest IH]; intros prev Hprev Hflat; [done|].
  unfold flat in Hflat. simpl in Hflat. apply andb_true_iff in Hflat as [Hs Hflat].
  destruct s as [p|p|p c1 c2]; simpl; [by apply IH| |done].
  destruct prev as [ps|]; [|by specialize (Hprev eq_refl)].
  simpl. destruct (Line.intersect p1 p2 (point0 ps) p); [done|]. by apply IH.
Qed.

Lemma outer_spec (b : list Segment) (a : list Segment) :
  begins_with_move b = true → flat b = true →
  ∀ prev, (prev = None → begins_with_move a = true) → flat a = true →
    outer prev a b
    = Done (existsb (λ p, existsb (λ q, Line.intersect p.1 p.2 q.1 q.2) (pieces None b))
              (pieces prev a)).
Proof.
  intros Hb Hfb. induction a as [|s rest IH]; intros prev Hprev Hflat; [done|].
  unfold flat in Hflat. simpl in Hflat. apply andb_true_iff in Hflat as [Hs Hflat].
  destruct s as [p|p|p c1 c2]; simpl; [by apply IH| |done].
  destruct prev as [ps|]; [|by specialize (Hprev eq_refl)].
  rewrite inner_spec by done. simpl.
  destruct (existsb _ (pieces None b)); [done|]. by apply IH.
Qed.

Lemma existsb_swap {A B} (f : A → B → bool) (la : list A) (lb : list B) :
  existsb (λ x, existsb (λ y, f x y) lb) la
  = existsb (λ y, existsb (λ x, f x y) la) lb.
Proof.
  apply eq_true_iff_eq. rewrite !existsb_exists. split.
  - intros (x & Hx & (y & Hy & Hf)%existsb_exists).
    exists y. split; [done|]. apply existsb_exists. eauto.
  - intros (y & Hy & (x & Hx & Hf)%existsb_exists).
    exists x. split; [done|]. apply existsb_exists. eauto.
Qed.

Lemma existsb_pointwise {A} (f g : A → bool) (l : list A) :
  (∀ x, f x = g x) → existsb f l = existsb g l.
Proof. intros H. induction l as [|x l IH]; simpl; [done|]. by rewrite H, IH. Qed.

Lemma flatten_begun (fuel : nat) (flatness : option R) (p out : Path) :
  flatten fuel flatness p = Done out → begins_with_move p = true →
  begins_with_move out = true ∧ flat out = true.
Proof.
  unfold flatten. destruct (flat p) eqn:Hflat.
  - by intros [= <-].
  - intros Hrun Hp. apply flatten_loop_sound in Hrun as (res & -> & Hres).
    simpl. split; [|by eapply flattens_flat].
    inversion Hres as [|prev s rest out' Hs Hrest|]; subst; [done|].
    by destruct s.
Qed.

End path_intersects.



(** * Properties of the dependency tree *)

Section dependency_tree.
Import Tree DependencyTree.
Implicit Types (s nm : string) (this : DependencyTree.t).

Lemma lastIndexOf_from_bound (c : ascii) s :
  ∀ i found k, lastIndexOf_from c s i found = Some k →
    found = Some k ∨ (i ≤ k < i + String.length s).
Proof.
  induction s as [|a s IH]; intros i found k; simpl.
  - by left.
  - intros H. apply IH in H as [H|H]; [|right; lia].
    case_decide; [|by left]. injection H as <-. right. lia.
Qed.

Lemma lastIndexOf_lt (c : ascii) s k :
  lastIndexOf c s = Some k → k < String.length s.
Proof.
  intros H. apply lastIndexOf_from_bound in H as [H|H]; [done|lia].
Qed.

Lemma length_substring_to (i : nat) s : String.length (substring_to i s) ≤ i.
Proof.
  unfold substring_to. revert s. induction i as [|i IH]; intros s.
  - by destruct s.
  - destruct s as [|a s]; simpl; [lia|]. specialize (IH s). lia.
Qed.

Lemma package_shorter s k :
  lastIndexOf "."%char s = Some k →
  String.length (substring_to k s) < String.length s.
Proof.
  intros H%lastIndexOf_lt. pose proof (length_substring_to k s). lia.
Qed.

(** What [addChild] does to a well-formed tree. *)
Lemma addChild_facts (t : Tree) (p : ref) :
  wf_tree t → heap_closed t → is_Some (heap t !! p) →
  ∃ child t', addChild p t = Done (child, t') ∧
    wf_tree t' ∧ heap_closed t' ∧
    nodes t' = nodes t ++ [child] ∧ root t' = root t ∧ (child ∉ nodes t) ∧
    parent_of t' child = Some p ∧
    ∀ x, x ∈ nodes t → parent_of t' x = parent_of t x.
Proof.
  intros Hwf Hclosed [n Hn].
  destruct (addChild p t) as [[child t']| | |] eqn:Hrun;
    try (unfold addChild, deref in Hrun; rewrite Hn in Hrun; simpl in Hrun; done).
  exists child, t'. split; [done|].
  destruct (addChild_wf t t' p child Hwf Hclosed Hrun) as [Hwf' Hclosed'].
  unfold addChild, deref in Hrun. rewrite Hn in Hrun. simpl in Hrun.
  injection Hrun as <- <-.
  set (r := fresh (dom (heap t))).
  assert (heap t !! r = None) as Hr by (apply not_elem_of_dom, is_fresh).
  assert (r ∉ nodes t) as Hrn.
  { intros Hin. destruct (wf_in_heap t Hwf r Hin) as [m Hm]. congruence. }
  assert (p ≠ r) as Hpr by congruence.
  split_and!; [done..| |].
  - unfold parent_of, update. simpl.
    rewrite lookup_alter_ne, lookup_insert_eq by done. done.
  - intros x Hx. assert (x ≠ r) as Hxr by congruence.
    unfold parent_of, update. simpl.
    destruct (decide (x = p)) as [->|Hxp].
    + rewrite lookup_alter_eq, lookup_insert_ne, Hn by done. done.
    + rewrite lookup_alter_ne, lookup_insert_ne by done. done.
Qed.

Lemma new_wf : wf DependencyTree.new.
Proof.
  destruct clear_wf as [Hwf Hclosed]. split_and!; [done..| |done].
  simpl. by apply (bool_decide_unpack _); vm_compute.
Qed.

Section get_facts.
Variable inherited : string → bool.

Lemma get_spec (fuel : nat) :
  ∀ nm this,
    wf this →
    Forall (λ s, inherited s = false) (packages fuel nm) →
    String.length nm < fuel →
    ∃ r this', get inherited fuel nm this = Done (Node r, this') ∧
      wf this' ∧ _map this' !! nm = Some r ∧ _map this ⊆ _map this' ∧
      root (tree this') = root (tree this) ∧
      (∀ s, is_Some (_map this' !! s) →
            is_Some (_map this !! s) ∨ String.length s ≤ String.length nm).
Proof.
  induction fuel as [|f IH]; intros nm this Hwf Hclean Hlen; [lia|].
  simpl. destruct (_map this !! nm) as [r|] eqn:Hmap.
  { exists r, this. split_and!; try done. intros s Hs. by left. }
  simpl in Hclean. apply Forall_cons in Hclean as [Hnm Hclean]. rewrite Hnm.
  assert (∃ p this1,
    match lastIndexOf "."%char nm with
    | None => Done (Node (root (tree this)), this)
    | Some i => get inherited f (substring_to i nm) this
    end = Done (Node p, this1) ∧
    wf this1 ∧ package_node this1 nm = Some p ∧ p ∈ nodes (tree this1) ∧
    _map this ⊆ _map this1 ∧ _map this1 !! nm = None ∧
    root (tree this1) = root (tree this) ∧
    (∀ s, is_Some (_map this1 !! s) →
          is_Some (_map this !! s) ∨ String.length s ≤ String.length nm))
    as (p & this1 & Hrun & Hwf1 & Hpkg & Hp & Hsub & Hfresh & Hroot & Hnew).
  { unfold package_node. destruct (lastIndexOf "."%char nm) as [k|] eqn:Hk.
    - pose proof (package_shorter nm k Hk) as Hshort.
      destruct (IH (substring_to k nm) this Hwf Hclean ltac:(lia))
        as (p & this1 & Hrun & Hwf1 & Hmp & Hsub & Hroot & Hnew).
      exists p, this1. split_and!; try done.
      + destruct Hwf1 as (_ & _ & _ & Hm). by destruct (Hm _ _ Hmp).
      + destruct (_map this1 !! nm) as [x|] eqn:E; [|done].
        destruct (Hnew nm ltac:(by eexists)) as [[y Hy]|Hle]; [congruence|lia].
      + intros s Hs. destruct (Hnew s Hs) as [?|?]; [by left|right; lia].
    - exists (root (tree this)), this. split_and!; try done.
      + by destruct Hwf as (_ & _ & ? & _).
      + intros s Hs. by left. }
  rewrite Hrun. simpl.
  destruct Hwf1 as (Hwft & Hclosed & Hrootin & Hm).
  destruct (addChild_facts (tree this1) p Hwft Hclosed)
    as (node & tr & Hadd & Hwft' & Hclosed' & Hnodes & Hroot' & Hnode & Hparent & Hold).
  { by apply wf_in_heap. }
  rewrite Hadd. simpl. eexists node, _. split; [done|]. simpl.
  assert (∀ s x, s ≠ nm → package_node this1 s = Some x →
            package_node
              (mk tr (<[nm:=node]> (_map this1))
                 (<[node:=substring_from
                            match lastIndexOf "."%char nm with
                            | Some i => S i
                            | None => 0
                            end nm]> (name this1))
                 (<[node:=nm]> (fullName this1))) s = Some x) as Hpk.
  { intros s x Hs. unfold package_node. simpl.
    destruct (lastIndexOf "."%char s) as [k|]; [|by rewrite Hroot'].
    intros Hx. rewrite lookup_insert_ne; [done|]. congruence. }
  split_and!.
  - split_and!; simpl; [done|done| |].
    + rewrite Hnodes, Hroot'. apply elem_of_app. by left.
    + intros s r. destruct (decide (s = nm)) as [->|Hs].
      * rewrite lookup_insert_eq. intros [= <-]. split.
        -- rewrite Hnodes. apply elem_of_app. right. by left.
        -- exists p. split; [done|].
           unfold package_node in *. simpl.
           destruct (lastIndexOf "."%char nm) as [k|] eqn:Hk; [|by rewrite Hroot'].
           rewrite lookup_insert_ne; [done|].
           intros E. pose proof (package_shorter nm k Hk) as Hshort.
           rewrite <-E in Hshort. lia.
      * rewrite lookup_insert_ne by done. intros Hr.
        destruct (Hm s r Hr) as (Hin & x & Hx & Hpx). split.
        -- rewrite Hnodes. apply elem_of_app. by left.
        -- exists x. split; [by rewrite Hold|by apply Hpk].
  - by rewrite lookup_insert_eq.
  - etrans; [exact Hsub|]. by apply insert_subseteq.
  - congruence.
  - intros s [x Hs]. destruct (decide (s = nm)) as [->|Hne]; [right; lia|].
    rewrite lookup_insert_ne in Hs by done. apply Hnew. by eexists.
Qed.

Lemma get_Done_map (fuel : nat) nm this r this' :
  get inherited fuel nm this = Done (Node r, this') → _map this' !! nm = Some r.
Proof.
  destruct fuel as [|f]; [done|]. simpl.
  destruct (_map this !! nm) as [x|] eqn:Hmap.
  { by intros [= <- <-]. }
  destruct (inherited nm); [done|].
  match goal with
  | |- (?call ≫= _) = _ → _ => destruct call as [[[p|?] this1]| | |]; simpl; try done
  end.
  destruct (addChild p (tree this1)) as [[node tr]| | |]; simpl; try done.
  intros [= <- <-]. simpl. by rewrite lookup_insert_eq.
Qed.

End get_facts.

End dependency_tree.

(** X28.  [get(name)] on a dependency tree built by [get], for a name none
    of whose packages is an inherited member name: it returns a node, given
    a step budget above the length of the name; the node is mapped under
    [name], it is a table node whose parent is the node of its package (the
    root for a name without a dot), nodes mapped before stay mapped, the
    tree stays well-formed, and asking again returns the same node and
    changes nothing. *)
Theorem get_builds_packages (inherited : string → bool) (fuel : nat)
    (nm : string) (this : DependencyTree.t) :
  DependencyTree.wf this →
  Forall (λ s, inherited s = false) (DependencyTree.packages fuel nm) →
  String.length nm < fuel →
  ∃ r this',
    DependencyTree.get inherited fuel nm this = Done (DependencyTree.Node r, this') ∧
    DependencyTree.wf this' ∧
    DependencyTree._map this' !! nm = Some r ∧
    DependencyTree._map this ⊆ DependencyTree._map this' ∧
    r ∈ Tree.nodes (DependencyTree.tree this') ∧
    (∃ p, Tree.parent_of (DependencyTree.tree this') r = Some p ∧
          DependencyTree.package_node this' nm = Some p) ∧
    ∀ fuel', DependencyTree.get inherited (S fuel') nm this'
             = Done (DependencyTree.Node r, this').
Proof.
  intros Hwf Hclean Hlen.
  destruct (get_spec inherited fuel nm this Hwf Hclean Hlen)
    as (r & this' & Hrun & Hwf' & Hmap & Hsub & _).
  exists r, this'. split_and!; [done..| | |].
  - destruct Hwf' as (_ & _ & _ & Hm). by destruct (Hm nm r Hmap).
  - destruct Hwf' as (_ & _ & _ & Hm). by destruct (Hm nm r Hmap).
  - intros fuel'. simpl. by rewrite Hmap.
Qed.

Lemma get_builds_packages_witness :
  ∃ r this',
    DependencyTree.get (λ s, bool_decide (s = "constructor")) 11 "flare.util"
      DependencyTree.new = Done (DependencyTree.Node r, this') ∧
    DependencyTree.wf this' ∧
    DependencyTree._map this' !! "flare.util" = Some r ∧
    DependencyTree._map DependencyTree.new ⊆ DependencyTree._map this' ∧
    r ∈ Tree.nodes (DependencyTree.tree this') ∧
    (∃ p, Tree.parent_of (DependencyTree.tree this') r = Some p ∧
          DependencyTree.package_node this' "flare.util" = Some p) ∧
    ∀ fuel', DependencyTree.get (λ s, bool_decide (s = "constructor")) (S fuel')
               "flare.util" this'
             = Done (DependencyTree.Node r, this').
Proof.
  apply (get_builds_packages (λ s, bool_decide (s = "constructor")) 11 "flare.util"
           DependencyTree.new).
  - exact new_wf.
  - vm_compute. by repeat constructor.
  - vm_compute. lia.
Defined.

(** X29.  A name that every object inherits (such as [constructor]) and
    that was not mapped is never given a node: [get] returns the inherited
    member and leaves the tree alone; and [get] of a class right inside
    such a package throws. *)
Theorem get_inherited_name (inherited : string → bool) (f : nat)
    (nm : string) (this : DependencyTree.t) :
  DependencyTree._map this !! nm = None → inherited nm = true →
  DependencyTree.get inherited (S f) nm this
  = Done (DependencyTree.Inherited nm, this) ∧
  ∀ child k,
    DependencyTree._map this !! child = None → inherited child = false →
    DependencyTree.lastIndexOf "."%char child = Some k →
    DependencyTree.substring_to k child = nm →
    DependencyTree.get inherited (S (S f)) child this = Throws.
Proof.
  intros Hmap Hinh.
  assert (DependencyTree.get inherited (S f) nm this
          = Done (DependencyTree.Inherited nm, this)) as Hget.
  { simpl. by rewrite Hmap, Hinh. }
  split; [exact Hget|].
  intros child k Hc Hic Hk Hsub.
  change (DependencyTree.get inherited (S (S f)) child this)
    with (match DependencyTree._map this !! child with
          | Some r => Done (DependencyTree.Node r, this)
          | None =>
              if inherited child then Done (DependencyTree.Inherited child, this)
              else
                let i := DependencyTree.lastIndexOf "."%char child in
                '(parent, this1) ←
                  match i with
                  | None => Done (DependencyTree.Node (Tree.root (DependencyTree.tree this)), this)
                  | Some i => DependencyTree.get inherited (S f)
                                (DependencyTree.substring_to i child) this
                  end;
                match parent with
                | DependencyTree.Inherited _ => Throws
                | DependencyTree.Node p =>
                    '(node, tr) ← Tree.addChild p (DependencyTree.tree this1);
                    let short := DependencyTree.substring_from
                                   (match i with None => 0 | Some i => S i end) child in
                    Done (DependencyTree.Node node,
                          DependencyTree.mk tr (<[child := node]> (DependencyTree._map this1))
                            (<[node := short]> (DependencyTree.name this1))
                            (<[node := child]> (DependencyTree.fullName this1)))
                end
          end).
  rewrite Hc, Hic. cbv zeta. rewrite Hk, Hsub, Hget. reflexivity.
Qed.

Lemma get_inherited_name_witness :
  DependencyTree.get (λ s, bool_decide (s = "constructor")) 1 "constructor"
    DependencyTree.new
  = Done (DependencyTree.Inherited "constructor", DependencyTree.new) ∧
  DependencyTree.get (λ s, bool_decide (s = "constructor")) 2 "constructor.Foo"
    DependencyTree.new = Throws.
Proof.
  destruct (get_inherited_name (λ s, bool_decide (s = "constructor")) 0 "constructor"
              DependencyTree.new) as [Hfirst Hinside]; [done..|].
  split; [exact Hfirst|].
  apply (Hinside "constructor.Foo" 11); by vm_compute.
Defined.

(** * The router and the layout share their position objects *)

Section shared_layout.
Import Tree Chain Chord SharedLayout.
Local Open Scope R_scope.

(** What the loop of [straighten] does to the objects when the references
    are distinct: the objects of the entries [i], ..., [i + cnt - 1] are
    blended, every other object is left as it was. *)
Lemma shared_straighten_loop_spec (beta dx dy : R) (e : nat) (z : list nat) (cnt : nat) :
  NoDup z →
  ∀ (i : nat) (st : objects),
    (0 < i)%nat → (i + cnt ≤ length z)%nat →
    (∀ r, r ∈ z → is_Some (st !! r)) →
    ∃ st', straighten_loop cnt i beta dx dy e z st = Done st' ∧
      (∀ r, is_Some (st' !! r) ↔ is_Some (st !! r)) ∧
      (∀ r, (∀ m, (i ≤ m < i + cnt)%nat → z !! m ≠ Some r) → st' !! r = st !! r) ∧
      (∀ m r p r0 z0, (i ≤ m < i + cnt)%nat → z !! m = Some r → st !! r = Some p →
         z !! 0%nat = Some r0 → st !! r0 = Some z0 →
         st' !! r = Some (Vector.mk
           (beta * Vector.x p + (1 - beta) * (Vector.x z0 + INR m * dx / INR e))
           (beta * Vector.y p + (1 - beta) * (Vector.y z0 + INR m * dy / INR e)))).
Proof.
  intros Hnd. induction cnt as [|cnt IH]; intros i st Hi Hlen Hin.
  - exists st. split_and!; [done..|]. intros m r p r0 z0 Hm. lia.
  - simpl.
    destruct (lookup_lt_is_Some_2 z i ltac:(lia)) as [r Hr].
    destruct (lookup_lt_is_Some_2 z 0%nat ltac:(lia)) as [r0 Hr0].
    rewrite Hr, Hr0.
    destruct (Hin r ltac:(by eapply list_elem_of_lookup_2)) as [p Hp].
    destruct (Hin r0 ltac:(by eapply list_elem_of_lookup_2)) as [z0 Hz0].
    rewrite Hp, Hz0. set (p' := Vector.mk _ _).
    assert (r ≠ r0) as Hrr0.
    { intros ->. pose proof (NoDup_lookup _ _ _ _ Hnd Hr Hr0). lia. }
    destruct (IH (S i) (<[r:=p']> st) ltac:(lia) ltac:(lia))
      as (st' & Hrun & Hdom & Hout & Hblend).
    { intros x Hx. destruct (decide (x = r)) as [->|Hne].
      - rewrite lookup_insert_eq. by eexists.
      - rewrite lookup_insert_ne by done. by apply Hin. }
    exists st'. split; [done|]. split_and!.
    + intros x. rewrite Hdom. destruct (decide (x = r)) as [->|Hne].
      * rewrite lookup_insert_eq, Hp. split; by eexists.
      * by rewrite lookup_insert_ne.
    + intros x Hx. rewrite Hout.
      * rewrite lookup_insert_ne; [done|]. intros ->. by apply (Hx i); [lia|].
      * intros m Hm. apply Hx. lia.
    + intros m x q x0 q0 Hm Hx Hq Hx0 Hq0.
      assert (x0 = r0) as -> by congruence. assert (q0 = z0) as -> by congruence.
      destruct (decide (m = i)) as [->|Hne].
      * assert (x = r) as -> by congruence. assert (q = p) as -> by congruence.
        rewrite Hout.
        -- by rewrite lookup_insert_eq.
        -- intros m Hm' Hm''. pose proof (NoDup_lookup _ _ _ _ Hnd Hr Hm''). lia.
      * assert (x ≠ r) as Hxr.
        { intros ->. pose proof (NoDup_lookup _ _ _ _ Hnd Hr Hx). lia. }
        apply (Hblend m x q r0 z0); [lia|done| |done|].
        -- by rewrite lookup_insert_ne.
        -- by rewrite lookup_insert_ne.
Qed.

Lemma chain_NoDup (t : Tree) c (l : list ref) : chain t c l → NoDup l.
Proof.
  intros Hc. apply NoDup_alt. intros i j x Hi Hj.
  destruct (Nat.lt_trichotomy i j) as [Hlt|[->|Hlt]]; [|done|]; exfalso.
  - destruct (take_drop_middle l j x Hj).
    pose proof (take_drop_middle l j x Hj) as E.
    rewrite <-E in Hc. apply chain_once in Hc. apply Hc.
    apply list_elem_of_lookup. exists i. by rewrite lookup_take_lt.
  - pose proof (take_drop_middle l i x Hi) as E.
    rewrite <-E in Hc. apply chain_once in Hc. apply Hc.
    apply list_elem_of_lookup. exists j. by rewrite lookup_take_lt.
Qed.

Lemma chain_table (t : Tree) c (l : list ref) :
  wf_tree t → chain t c l → c ∈ nodes t → ∀ d, d ∈ l → d ∈ nodes t.
Proof.
  intros Hwf. induction 1 as [r n Hr Hp|c n p l Hc Hp Hl IH]; intros Hin d Hd.
  - by apply list_elem_of_singleton in Hd as ->.
  - apply elem_of_cons in Hd as [->|Hd]; [done|]. apply IH; [|done].
    destruct Hwf as [_ Hall]. rewrite Forall_forall in Hall.
    destruct (proj1 (wf_node_spec t c) (Hall c Hin)) as (n' & Hn' & _ & _ & Hpar).
    assert (n' = n) as -> by congruence.
    destruct (Hpar p Hp) as (pn & _ & Hpos & _).
    by eapply list_elem_of_lookup_2.
Qed.

(** The way from [a] up to the meeting node and down to [b] passes every
    node once. *)
Lemma path_NoDup (t : Tree) (a b l : ref) (ua ub rest : list ref) :
  chain t a (ua ++ l :: rest) → chain t b (ub ++ l :: rest) →
  last ua ≠ last ub ∨ (ua = [] ∧ ub = []) →
  NoDup (ua ++ l :: reverse ub).
Proof.
  intros Ha Hb Hpart.
  pose proof (chain_NoDup _ _ _ Ha) as Hnda.
  pose proof (chain_NoDup _ _ _ Hb) as Hndb.
  apply NoDup_app in Hnda as (Hua & Hdisja & _).
  apply NoDup_app in Hndb as (Hub & Hdisjb & _).
  apply NoDup_app. split_and!; [done| |].
  - intros x Hx Hx'. apply elem_of_cons in Hx' as [->|Hx'].
    { apply (Hdisja l Hx). left. }
    apply (proj1 (elem_of_reverse _ _)) in Hx'.
    destruct Hpart as [Hpart|[-> _]]; [|by apply elem_of_nil in Hx].
    assert (x ≠ l) as Hxl by (intros ->; apply (Hdisja l Hx); left).
    apply (chains_part_below t a b l _ _ ua ub rest x Ha Hb eq_refl eq_refl);
      [by left| |done|].
    + apply list_elem_of_split in Hx as (xs & ys & ->).
      rewrite <-app_assoc in Ha. simpl in Ha.
      pose proof (chain_suffix t _ _ _ _ _ Ha eq_refl) as Hcx.
      eapply chain_ancestor; [exact Hcx|].
      right. apply elem_of_app. right. left.
    + split.
      * eapply chain_ancestor; [exact Ha|]. apply elem_of_app. by left.
      * eapply chain_ancestor; [exact Hb|]. apply elem_of_app. by left.
  - apply NoDup_cons. split.
    + intros Hl. apply (proj1 (elem_of_reverse _ _)) in Hl. apply (Hdisjb l Hl). left.
    + by rewrite reverse_Permutation.
Qed.

Lemma shared_ascend_chain (tr : Tree) (st : objects) (l : ref) (rest : list ref) :
  ∀ (ua : list ref) (fuel : nat) (points : list (option nat)) (a : ref),
    chain tr a (ua ++ l :: rest) → (length ua ≤ fuel)%nat →
    ascend fuel tr st (Some l) (Some a) points
    = Done (points ++ (point_of tr st <$> tail (ua ++ [l]))).
Proof.
  induction ua as [|x ua IH]; intros fuel points a Hc Hlen.
  - destruct (chain_head _ _ _ Hc) as [? E]. simpl in E.
    assert (a = l) as -> by congruence.
    destruct fuel; simpl; rewrite decide_True by done; by rewrite app_nil_r.
  - pose proof (chain_once _ _ _ _ _ Hc) as Hl.
    destruct (chain_head _ _ _ Hc) as [? E]. simpl in E.
    assert (x = a) as -> by congruence. clear E.
    assert (a ≠ l) as Hal by (intros ->; apply Hl; left).
    destruct fuel as [|f]; [simpl in Hlen; lia|].
    simpl ascend. rewrite decide_False by congruence.
    simpl in Hc. inversion Hc as [|c n p l' Hn Hp Hc']; subst.
    { by destruct ua. }
    unfold deref. rewrite Hn. simpl. rewrite Hp.
    assert (∃ pn, heap tr !! p = Some pn) as [pn Hpn]
      by (inversion Hc'; eauto).
    rewrite Hpn. simpl. rewrite (IH f _ p Hc') by (simpl in Hlen; lia).
    unfold Array.add. rewrite <-app_assoc. do 2 f_equal. simpl.
    destruct (chain_head _ _ _ Hc') as [tl' E].
    assert (∃ tl'', ua ++ [l] = p :: tl'') as [tl'' E'].
    { destruct ua as [|y ua]; simpl in *; [injection E as ->|injection E as -> _]; eauto. }
    rewrite E'. simpl. f_equal. unfold point_of. by rewrite Hpn.
Qed.

Lemma shared_descend_chain (tr : Tree) (st : objects) (l : ref) (rest : list ref)
    (k : nat) :
  ∀ (ub : list ref) (fuel : nat) (points : list (option nat)) (b : ref),
    chain tr b (ub ++ l :: rest) → (length ub ≤ fuel)%nat → (k ≤ length points)%nat →
    descend fuel tr st (Some l) (Some b) k points
    = Done (take k points ++ reverse (point_of tr st <$> ub) ++ drop k points).
Proof.
  induction ub as [|x ub IH]; intros fuel points b Hc Hlen Hk.
  - destruct (chain_head _ _ _ Hc) as [? E]. simpl in E.
    assert (b = l) as -> by congruence.
    destruct fuel; simpl; rewrite decide_True by done; by rewrite take_drop.
  - pose proof (chain_once _ _ _ _ _ Hc) as Hl.
    destruct (chain_head _ _ _ Hc) as [? E]. simpl in E.
    assert (x = b) as -> by congruence. clear E.
    assert (b ≠ l) as Hbl by (intros ->; apply Hl; left).
    destruct fuel as [|f]; [simpl in Hlen; lia|].
    simpl descend. rewrite decide_False by congruence.
    simpl in Hc. inversion Hc as [|c n p l' Hn Hp Hc']; subst.
    { by destruct ub. }
    unfold deref. rewrite Hn. simpl. rewrite Hp.
    rewrite (IH f _ p Hc'); [|simpl in Hlen; lia|].
    2: { unfold Array.add_at. rewrite length_app, length_take. simpl.
         rewrite length_drop. lia. }
    unfold Array.add_at. f_equal.
    rewrite take_app_length' by (rewrite length_take; lia).
    rewrite drop_app_length' by (rewrite length_take; lia).
    rewrite reverse_cons, <-!app_assoc. simpl.
    do 3 f_equal. unfold point_of. by rewrite Hn.
Qed.

Lemma control_refs_Some (z : list nat) : control_refs (Some <$> z) = Done z.
Proof.
  induction z as [|r z IH]; [done|].
  change (control_refs (Some <$> r :: z))
    with (rs ← control_refs (Some <$> z); Done (r :: rs)).
  by rewrite IH.
Qed.

End shared_layout.

(** X30.  With its default hook the router works on the layout's own
    position objects.  In a well-formed tree whose layout has a position
    for every table slot, [_spline(i, j)] returns (given a step budget of at
    least the table size) a spline whose control points are the position
    objects of the nodes on the way from node [i] up to the meeting node of
    the two ancestor chains and down to node [j], each once; and
    [straighten] has then overwritten, in the layout, the position of every
    node strictly inside that way by its blend with the point on the line
    from the position of [i] to that of [j].  All other positions are
    unchanged. *)
Theorem spline_moves_layout (fuel : nat) (tr : Tree.Tree) (beta : R)
    (st : SharedLayout.objects) (i j : nat) (a b : Tree.ref) :
  Tree.wf_tree tr →
  Tree.nodes tr !! i = Some a → Tree.nodes tr !! j = Some b →
  length (Tree.nodes tr) ≤ fuel →
  (∀ k, k < length (Tree.nodes tr) → is_Some (st !! k)) →
  ∃ ua ub l rest z st',
    Chain.chain tr a (ua ++ l :: rest) ∧ Chain.chain tr b (ub ++ l :: rest) ∧
    Forall2 (λ r k, Tree.index_of tr r = Some k) (ua ++ l :: reverse ub) z ∧
    NoDup z ∧ head z = Some i ∧ last z = Some j ∧
    SharedLayout._spline fuel tr beta st i j = Done (z, st') ∧
    (∀ k, ¬ SharedLayout.interior z k → st' !! k = st !! k) ∧
    (∀ m k p P0 PN,
       0 < m < length z - 1 → z !! m = Some k →
       st !! k = Some p → st !! i = Some P0 → st !! j = Some PN →
       st' !! k = Some (Chord.blend beta p (Chord.on_chord P0 PN m (length z - 1)))).
Proof.
  intros Hwf Hi Hj Hfuel Hslots.
  assert (a ∈ Tree.nodes tr) as Ha by (by eapply list_elem_of_lookup_2).
  assert (b ∈ Tree.nodes tr) as Hb by (by eapply list_elem_of_lookup_2).
  destruct (lca_split tr a b fuel Hwf Ha Hb Hfuel)
    as (ua & ub & l & rest & Hca & Hcb & Hpart & Hlena & Hlenb & Hlca).
  exists ua, ub, l, rest.
  set (path := ua ++ l :: reverse ub).
  set (slot := λ r : Tree.ref, from_option Tree.index 0 (Tree.heap tr !! r)).
  assert (∀ r, r ∈ path → r ∈ Tree.nodes tr) as Htable.
  { intros r Hr. unfold path in Hr.
    apply elem_of_app in Hr as [Hr|Hr].
    - apply (chain_table tr a _ Hwf Hca Ha). apply elem_of_app. by left.
    - apply elem_of_cons in Hr as [->|Hr].
      + apply (chain_table tr a _ Hwf Hca Ha). apply elem_of_app. right. left.
      + apply (proj1 (elem_of_reverse _ _)) in Hr.
        apply (chain_table tr b _ Hwf Hcb Hb). apply elem_of_app. by left. }
  assert (∀ r, r ∈ Tree.nodes tr →
            Tree.index_of tr r = Some (slot r) ∧ Tree.nodes tr !! slot r = Some r ∧
            SharedLayout.point_of tr st r = Some (slot r)) as Hslot.
  { intros r Hr. destruct Hwf as [Hnd Hall]. rewrite Forall_forall in Hall.
    destruct (proj1 (wf_node_spec tr r) (Hall r Hr)) as (n & Hn & Hpos & _).
    unfold slot, Tree.index_of, SharedLayout.point_of, SharedLayout.position.
    rewrite Hn. simpl. split_and!; [done..|].
    destruct (Hslots (Tree.index n)) as [p ->]; [|done].
    by eapply lookup_lt_Some. }
  assert (slot a = i) as Hsa.
  { destruct (Hslot a Ha) as (_ & Hpos & _).
    destruct Hwf as [Hnd _]. by apply (NoDup_lookup _ _ _ _ Hnd Hpos Hi). }
  assert (slot b = j) as Hsb.
  { destruct (Hslot b Hb) as (_ & Hpos & _).
    destruct Hwf as [Hnd _]. by apply (NoDup_lookup _ _ _ _ Hnd Hpos Hj). }
  set (z := slot <$> path).
  destruct (chain_head _ _ _ Hca) as [ta Eta].
  destruct (chain_head _ _ _ Hcb) as [tb Etb].
  assert (head path = Some a) as Hhead.
  { unfold path. destruct ua as [|y ua]; simpl in *; congruence. }
  assert (last path = Some b) as Hlast.
  { unfold path. rewrite last_app, last_cons, last_reverse.
    destruct ub as [|y ub]; simpl in *; congruence. }
  assert (NoDup z) as Hndz.
  { unfold z. apply NoDup_fmap_2_strong; [|by eapply path_NoDup].
    intros x y Hx Hy E.
    destruct (Hslot x (Htable x Hx)) as (_ & Hpx & _).
    destruct (Hslot y (Htable y Hy)) as (_ & Hpy & _).
    rewrite E in Hpx. congruence. }
  assert (SharedLayout._spline_points fuel tr st i j = Done (Some <$> z)) as Hpoints.
  { unfold SharedLayout._spline_points. rewrite Hi, Hj, Hlca.
    cbn [mbind outcome_bind].
    assert (SharedLayout.position st i = SharedLayout.point_of tr st a) as ->.
    { destruct (Hslot a Ha) as (_ & _ & ->). unfold SharedLayout.position.
      rewrite Hsa. by destruct (Hslots i ltac:(by eapply lookup_lt_Some)) as [p ->]. }
    rewrite length_app in Hlena, Hlenb.
    rewrite (shared_ascend_chain tr st l rest ua fuel _ a Hca) by lia.
    cbn [mbind outcome_bind].
    set (pts := Array.add _ [] ++ _).
    rewrite (shared_descend_chain tr st l rest _ ub fuel pts b Hcb) by (lia || done).
    rewrite firstn_all, drop_all, app_nil_r. f_equal.
    assert (pts = SharedLayout.point_of tr st <$> (ua ++ [l])) as ->.
    { unfold pts, Array.add. simpl.
      assert (head (ua ++ [l]) = Some a) as Hh.
      { destruct ua as [|y ua]; simpl in *; congruence. }
      destruct (ua ++ [l]) as [|y tl'] eqn:E; [done|].
      simpl in Hh. injection Hh as ->. done. }
    rewrite <-fmap_reverse, <-fmap_app.
    replace ((ua ++ [l]) ++ reverse ub) with path
      by (unfold path; by rewrite <-app_assoc).
    unfold z. rewrite <-list_fmap_compose.
    apply list_fmap_ext. intros m r Hr. simpl.
    by destruct (Hslot r (Htable r ltac:(by eapply list_elem_of_lookup_2)))
      as (_ & _ & ->). }
  assert (z !! 0 = Some i) as Hz0.
  { unfold z. rewrite list_lookup_fmap, <-head_lookup, Hhead. simpl. by rewrite Hsa. }
  assert (z !! (length z - 1) = Some j) as Hze.
  { unfold z. rewrite list_lookup_fmap, length_fmap.
    replace (length path - 1) with (pred (length path)) by lia.
    rewrite <-last_lookup, Hlast. simpl. by rewrite Hsb. }
  assert (∀ r, r ∈ z → is_Some (st !! r)) as Hzst.
  { intros k Hk. unfold z in Hk. apply list_elem_of_fmap in Hk as (r & -> & Hr).
    destruct (Hslot r (Htable r Hr)) as (_ & Hpos & _).
    apply Hslots. by eapply lookup_lt_Some. }
  destruct (Hzst i ltac:(by eapply list_elem_of_lookup_2)) as [P0 HP0].
  destruct (Hzst j ltac:(by eapply list_elem_of_lookup_2)) as [PN HPN].
  assert (0 < length z) as Hlenz by (by eapply lookup_lt_Some).
  destruct (shared_straighten_loop_spec beta (Vector.x PN - Vector.x P0)
              (Vector.y PN - Vector.y P0) (length z - 1) z (length z - 1 - 1) Hndz 1 st)
    as (st' & Hloop & _ & Hout & Hblend); [lia|lia|done|].
  exists z, st'. split_and!; [done|done| |done| | | | |].
  - unfold z. apply Forall2_fmap_r. apply Forall_Forall2_diag.
    apply Forall_forall. intros r Hr. by destruct (Hslot r (Htable r Hr)) as (-> & _).
  - by rewrite head_lookup.
  - rewrite last_lookup. by replace (pred (length z)) with (length z - 1) by lia.
  - unfold SharedLayout._spline. rewrite Hpoints. cbn [mbind outcome_bind].
    rewrite control_refs_Some. cbn [mbind outcome_bind].
    unfold SharedLayout.straighten.
    destruct z as [|r0 z'] eqn:Ez; [simpl in Hlenz; lia|].
    rewrite Hze. simpl in Hz0. injection Hz0 as ->.
    rewrite HPN, HP0. cbv zeta. rewrite Hloop. done.
  - intros k Hk. apply Hout. intros m Hm Hzm. apply Hk. exists m. split; [lia|done].
  - intros m k p Q0 QN Hm Hzm Hp HQ0 HQN.
    assert (Q0 = P0) as -> by congruence. assert (QN = PN) as -> by congruence.
    rewrite (Hblend m k p i P0) by (lia || done).
    unfold Chord.blend, Chord.on_chord. f_equal. apply vector_eq; simpl.
    + unfold Rdiv. ring.
    + unfold Rdiv. ring.
Qed.

Lemma spline_moves_layout_witness :
  ∃ ua ub l rest z st',
    Chain.chain Scenario.sample 3 (ua ++ l :: rest) ∧
    Chain.chain Scenario.sample 5 (ub ++ l :: rest) ∧
    Forall2 (λ r k, Tree.index_of Scenario.sample r = Some k) (ua ++ l :: reverse ub) z ∧
    NoDup z ∧ head z = Some 3 ∧ last z = Some 5 ∧
    SharedLayout._spline 6 Scenario.sample 0 (SharedLayout.row 6) 3 5 = Done (z, st') ∧
    (∀ k, ¬ SharedLayout.interior z k → st' !! k = SharedLayout.row 6 !! k) ∧
    (∀ m k p P0 PN,
       0 < m < length z - 1 → z !! m = Some k →
       SharedLayout.row 6 !! k = Some p →
       SharedLayout.row 6 !! 3 = Some P0 → SharedLayout.row 6 !! 5 = Some PN →
       st' !! k = Some (Chord.blend 0 p (Chord.on_chord P0 PN m (length z - 1)))).
Proof.
  apply (spline_moves_layout 6 Scenario.sample 0 (SharedLayout.row 6) 3 5 3 5).
  - exact sample_wf.
  - by rewrite sample_nodes.
  - by rewrite sample_nodes.
  - rewrite sample_nodes. simpl. lia.
  - rewrite sample_nodes. simpl. intros k Hk.
    do 6 (destruct k as [|k]; [by eexists|]). lia.
Defined.
